(** * gdal2mbtiles: the tiling engine, embedded and verified

    A shallow embedding of [gdal2mbtiles.py]: the Spherical Mercator
    coordinate kernel, the query-to-tile mapper [geo_query], the round-robin
    tile scheduling of the worker loops, the quadrant placement of the
    overview phase, and the SQLite archive with the worker processes and
    [main] over explicit state.

    Numbers.  Python integers are [Z].  A Python float is the rational
    number [Q] that it denotes; [math.pi] is the rational number that the
    double constant denotes.  In the coordinate conversions of
    [GlobalMercator] and [GlobalGeodetic] and in [PixelsToRaster] every
    operation rounds its exact result to binary64,
    to the nearest number with ties to even ([Float64.fl]); a division by a
    power of two is exact and carries no rounding.  The exponent range is
    not bounded: overflow and underflow are not modelled.  In [geo_query],
    in the raster tables and in the progress percentage the operations are
    the exact ones; their results are only compared, truncated and clamped.

    Effects.  The archive (tables, rows, indexes), the files and the history
    of the statements executed form a [world]; a computation maps a world to
    a result or an exception and a new world.  Pixels are symbolic terms.
    Not modelled: the progress queue and verbose printing, [commit] (a
    statement takes effect when it is executed), failures inside GDAL, PIL
    and the file system, and the stop flag, which no code path sets.  The
    worker processes of a phase run one after the other, in the order in
    which [main] starts them. *)

From Stdlib Require Import ZArith QArith Qround Qabs Qpower Lqa List Bool String Lia.
Import ListNotations.

Open Scope Z_scope.

(** ** Python built-ins *)

Module Py.

(** [int(x)] on a float truncates toward zero. *)
Definition int (x : Q) : Z :=
  if Qle_bool 0 x then Qfloor x else Qceiling x.

(** [float(n)] on an integer. *)
Definition float (n : Z) : Q := inject_Z n.

(** [math.ceil]. *)
Definition ceil (x : Q) : Z := Qceiling x.

(** [range(a, b)]: a, a+1, ..., b-1. *)
Definition range (a b : Z) : list Z :=
  map (fun k => a + Z.of_nat k) (seq 0 (Z.to_nat (b - a))).

(** [range(a, b, -1)]: a, a-1, ..., b+1. *)
Definition range_down (a b : Z) : list Z :=
  map (fun k => a - Z.of_nat k) (seq 0 (Z.to_nat (a - b))).

(** [x > y] on floats. *)
Definition gt (x y : Q) : bool := negb (Qle_bool x y).

End Py.

(** ** Binary64 arithmetic *)

Module Float64.

(** The integer nearest to [x], the even one of the two when [x] lies
    half-way. *)
Definition rne (x : Q) : Z :=
  let f := Qfloor x in
  match ((x - inject_Z f) ?= (1 # 2))%Q with
  | Lt => f
  | Gt => f + 1
  | Eq => if Z.even f then f else f + 1
  end.

(** The exponent [e] of the last place of a number that is not zero:
    [2^52 <= |x| / 2^e < 2^53]. *)
Definition exponent (x : Q) : Z :=
  let a := Qabs x in
  let e := Z.log2 (Qnum a) - Z.log2 (Zpos (Qden a)) - 53 in
  if Qle_bool (2 ^ 53) (a / 2 ^ e) then e + 1 else e.

(** The binary64 number nearest to [x]: 53 significant bits, ties to
    even. *)
Definition fl (x : Q) : Q :=
  let x := Qred x in
  if Qeq_bool x 0 then 0%Q
  else let e := exponent x in
       Qred (inject_Z (rne (x / 2 ^ e)) * 2 ^ e).

End Float64.

(** ** globalmaptiles: GlobalMercator *)

Definition MAXZOOMLEVEL : Z := 32.

Module GlobalMercator.

Local Open Scope Q_scope.

(** [math.pi], the double 0x400921FB54442D18, as a rational. *)
Definition math_pi : Q := 884279719003555 # 281474976710656.

Definition tileSize : Z := 256.

(** [__init__]: 2 * math.pi * 6378137 / self.tileSize *)
Definition initialResolution : Q :=
  Float64.fl (Float64.fl (Float64.fl (2 * math_pi) * 6378137) / inject_Z tileSize).

(** [__init__]: 2 * math.pi * 6378137 / 2.0 *)
Definition originShift : Q :=
  Float64.fl (Float64.fl (Float64.fl (2 * math_pi) * 6378137) / 2).

(** [Resolution]: self.initialResolution / (2 ** zoom); the division of a
    binary64 number by a power of two is exact. *)
Definition Resolution (zoom : Z) : Q :=
  initialResolution / inject_Z (2 ^ zoom)%Z.

(** [PixelsToMeters]: the product and the difference are rounded. *)
Definition PixelsToMeters (px py : Q) (zoom : Z) : Q * Q :=
  let res := Resolution zoom in
  let mx := Float64.fl (Float64.fl (px * res) - originShift) in
  let my := Float64.fl (Float64.fl (py * res) - originShift) in
  (mx, my).

(** [MetersToPixels]: the sum and the quotient are rounded. *)
Definition MetersToPixels (mx my : Q) (zoom : Z) : Q * Q :=
  let res := Resolution zoom in
  let px := Float64.fl (Float64.fl (mx + originShift) / res) in
  let py := Float64.fl (Float64.fl (my + originShift) / res) in
  (px, py).

Definition PixelsToTile (px py : Q) : Z * Z :=
  let tx := (Py.ceil (px / Py.float tileSize) - 1)%Z in
  let ty := (Py.ceil (py / Py.float tileSize) - 1)%Z in
  (tx, ty).

Definition MetersToTile (mx my : Q) (zoom : Z) : Z * Z :=
  let '(px, py) := MetersToPixels mx my zoom in
  PixelsToTile px py.

Definition TileBounds (tx ty zoom : Z) : Q * Q * Q * Q :=
  let '(minx, miny) :=
    PixelsToMeters (inject_Z (tx * tileSize)) (inject_Z (ty * tileSize)) zoom in
  let '(maxx, maxy) :=
    PixelsToMeters (inject_Z ((tx + 1) * tileSize))
                   (inject_Z ((ty + 1) * tileSize)) zoom in
  (minx, miny, maxx, maxy).

(** The body of the [for i in range(MAXZOOMLEVEL)] loop of
    [ZoomForPixelSize]; falling off the end of the loop is Python's
    implicit [return None]. *)
Fixpoint ZoomForPixelSize_loop (pixelSize : Q) (zooms : list Z) : option Z :=
  match zooms with
  | [] => None
  | i :: rest =>
      if Py.gt pixelSize (Resolution i)
      then (if negb (i =? 0)%Z then Some (i - 1)%Z else Some 0%Z)
      else ZoomForPixelSize_loop pixelSize rest
  end.

Definition ZoomForPixelSize (pixelSize : Q) : option Z :=
  ZoomForPixelSize_loop pixelSize (Py.range 0 MAXZOOMLEVEL).

(** [GoogleTile]: TMS row to XYZ row. *)
Definition GoogleTile (tx ty zoom : Z) : Z * Z :=
  (tx, ((2 ^ zoom - 1) - ty)%Z).

(** Tiles of the Mercator pyramid at a zoom. *)
Definition tile_in_range (zoom tx ty : Z) : bool :=
  ((0 <=? zoom) && (0 <=? tx) && (tx <? 2 ^ zoom)
                && (0 <=? ty) && (ty <? 2 ^ zoom))%Z.

End GlobalMercator.

(** ** Python exceptions and results *)

Inductive exn : Type :=
| ZeroDivisionError
| TypeError
| IndexError
| OperationalError
| IntegrityError.

Inductive res (A : Type) : Type :=
| Ok (a : A)
| Raise (e : exn).

Arguments Ok {A} a.
Arguments Raise {A} e.

Definition res_bind {A B : Type} (r : res A) (k : A -> res B) : res B :=
  match r with
  | Ok a => k a
  | Raise e => Raise e
  end.

Declare Scope res_scope.
Delimit Scope res_scope with res.
Notation "x <- r ;; k" := (res_bind r (fun x => k))
  (at level 61, r at next level, right associativity) : res_scope.
Notation "' pat <- r ;; k" := (res_bind r (fun x => match x with pat => k end))
  (at level 61, pat pattern, r at next level, right associativity) : res_scope.

(** Float division: a zero divisor raises. *)
Definition fdiv (a b : Q) : res Q :=
  if Qeq_bool b 0 then Raise ZeroDivisionError else Ok (a / b)%Q.

(** ** The projected dataset, as far as the tiling reads it *)

(** [ds.GetGeoTransform()]: the six coefficients, by index. *)
Record GeoTransform : Type := mkGeoTransform {
  gt0 : Q;   (* x of the upper-left corner *)
  gt1 : Q;   (* pixel width *)
  gt2 : Q;   (* rotation *)
  gt3 : Q;   (* y of the upper-left corner *)
  gt4 : Q;   (* rotation *)
  gt5 : Q    (* pixel height, negative for north-up rasters *)
}.

Record Dataset : Type := mkDataset {
  GetGeoTransform : GeoTransform;
  RasterXSize : Z;
  RasterYSize : Z
}.

(** A window [(x, y, xsize, ysize)]. *)
Definition window : Type := (Z * Z * Z * Z)%type.

(** ** GDAL2Mbtiles.geo_query *)

Section GeoQuery.

Local Open Scope res_scope.

Definition geo_query (ds : Dataset) (ulx uly lrx lry : Q) (querysize : Z)
  : res (window * window) :=
  let geotran := GetGeoTransform ds in
  q <- fdiv (ulx - gt0 geotran)%Q (gt1 geotran) ;;
  let rx := Py.int (q + (1 # 1000))%Q in
  q <- fdiv (uly - gt3 geotran)%Q (gt5 geotran) ;;
  let ry := Py.int (q + (1 # 1000))%Q in
  q <- fdiv (lrx - ulx)%Q (gt1 geotran) ;;
  let rxsize := Py.int (q + (1 # 2))%Q in
  q <- fdiv (lry - uly)%Q (gt5 geotran) ;;
  let rysize := Py.int (q + (1 # 2))%Q in
  let '(wxsize, wysize) :=
    if querysize =? 0 then (rxsize, rysize) else (querysize, querysize) in
  (* Coordinates should not go out of the bounds of the raster *)
  let wx := 0 in
  '(rx, rxsize, wx, wxsize) <-
    (if rx <? 0 then
       let rxshift := Z.abs rx in
       f <- fdiv (Py.float rxshift) (Py.float rxsize) ;;
       let wx := Py.int (Py.float wxsize * f)%Q in
       let wxsize := wxsize - wx in
       f <- fdiv (Py.float rxshift) (Py.float rxsize) ;;
       let rxsize := rxsize - Py.int (Py.float rxsize * f)%Q in
       let rx := 0 in
       Ok (rx, rxsize, wx, wxsize)
     else Ok (rx, rxsize, wx, wxsize)) ;;
  '(rxsize, wxsize) <-
    (if rx + rxsize >? RasterXSize ds then
       f <- fdiv (Py.float (RasterXSize ds - rx)) (Py.float rxsize) ;;
       let wxsize := Py.int (Py.float wxsize * f)%Q in
       let rxsize := RasterXSize ds - rx in
       Ok (rxsize, wxsize)
     else Ok (rxsize, wxsize)) ;;
  let wy := 0 in
  '(ry, rysize, wy, wysize) <-
    (if ry <? 0 then
       let ryshift := Z.abs ry in
       f <- fdiv (Py.float ryshift) (Py.float rysize) ;;
       let wy := Py.int (Py.float wysize * f)%Q in
       let wysize := wysize - wy in
       f <- fdiv (Py.float ryshift) (Py.float rysize) ;;
       let rysize := rysize - Py.int (Py.float rysize * f)%Q in
       let ry := 0 in
       Ok (ry, rysize, wy, wysize)
     else Ok (ry, rysize, wy, wysize)) ;;
  '(rysize, wysize) <-
    (if ry + rysize >? RasterYSize ds then
       f <- fdiv (Py.float (RasterYSize ds - ry)) (Py.float rysize) ;;
       let wysize := Py.int (Py.float wysize * f)%Q in
       let rysize := RasterYSize ds - ry in
       Ok (rysize, wysize)
     else Ok (rysize, wysize)) ;;
  Ok ((rx, ry, rxsize, rysize), (wx, wy, wxsize, wysize)).

(** One axis of the clamping in [geo_query]: the code repeats it for x
    and for y. *)
Definition clip_axis (r rsize wsize RasterSize : Z) : res (Z * Z * Z * Z) :=
  let w := 0 in
  '(r, rsize, w, wsize) <-
    (if r <? 0 then
       let rshift := Z.abs r in
       f <- fdiv (Py.float rshift) (Py.float rsize) ;;
       let w := Py.int (Py.float wsize * f)%Q in
       let wsize := wsize - w in
       f <- fdiv (Py.float rshift) (Py.float rsize) ;;
       let rsize := rsize - Py.int (Py.float rsize * f)%Q in
       let r := 0 in
       Ok (r, rsize, w, wsize)
     else Ok (r, rsize, w, wsize)) ;;
  '(rsize, wsize) <-
    (if r + rsize >? RasterSize then
       f <- fdiv (Py.float (RasterSize - r)) (Py.float rsize) ;;
       let wsize := Py.int (Py.float wsize * f)%Q in
       let rsize := RasterSize - r in
       Ok (rsize, wsize)
     else Ok (rsize, wsize)) ;;
  Ok (r, rsize, w, wsize).

(** The query rectangle [ulx, lrx] x [lry, uly] meets the extent of the
    raster, [gt0, gt0 + W*gt1] x [gt3 + H*gt5, gt3]. *)
Definition intersects (ds : Dataset) (ulx uly lrx lry : Q) : Prop :=
  let g := GetGeoTransform ds in
  (ulx <= gt0 g + inject_Z (RasterXSize ds) * gt1 g)%Q /\
  (gt0 g <= lrx)%Q /\
  (lry <= gt3 g)%Q /\
  (gt3 g + inject_Z (RasterYSize ds) * gt5 g <= uly)%Q.

(** The window invariants of the mapper. *)
Definition windows_in_bounds (ds : Dataset) (querysize : Z)
           (rw : window * window) : Prop :=
  let '((rx, ry, rxsize, rysize), (wx, wy, wxsize, wysize)) := rw in
  0 <= rx /\ rx + rxsize <= RasterXSize ds /\
  0 <= ry /\ ry + rysize <= RasterYSize ds /\
  0 <= wx /\ wx + wxsize <= querysize /\
  0 <= wy /\ wy + wysize <= querysize.

End GeoQuery.

(** ** Tile ranges, the canonical order and the round-robin claim *)

(** An entry of [self.tminmax]: [(tminx, tminy, tmaxx, tmaxy)]. *)
Definition TileRange : Type := (Z * Z * Z * Z)%type.

Definition in_range (r : TileRange) (x y : Z) : bool :=
  let '(minx, miny, maxx, maxy) := r in
  (minx <=? x) && (x <=? maxx) && (miny <=? y) && (y <=? maxy).

(** The tiles in the order of the two nested loops of both phases,
    [for ty in range(tmaxy, tminy - 1, -1): for tx in range(tminx, tmaxx + 1)],
    as pairs [(tx, ty)]. *)
Definition tile_order (r : TileRange) : list (Z * Z) :=
  let '(tminx, tminy, tmaxx, tmaxy) := r in
  flat_map (fun ty => map (fun tx => (tx, ty)) (Py.range tminx (tmaxx + 1)))
           (Py.range_down tmaxy (tminy - 1)).

(** The head of the loop body, [ti += 1] followed by
    [if (ti - 1) % self.options.processes != cpu: continue]: the tiles
    that worker [cpu] goes on to compute, with the counter [ti] threaded
    through the iterations. *)
Fixpoint claimed (processes cpu ti : Z) (tiles : list (Z * Z)) : list (Z * Z) :=
  match tiles with
  | [] => []
  | t :: rest =>
      let ti := ti + 1 in
      if negb ((ti - 1) mod processes =? cpu)
      then claimed processes cpu ti rest
      else t :: claimed processes cpu ti rest
  end.

(** Both workers start with [ti = 0]. *)
Definition worker_tiles (processes cpu : Z) (r : TileRange) : list (Z * Z) :=
  claimed processes cpu 0 (tile_order r).

Definition tile_eq_dec (a b : Z * Z) : {a = b} + {a <> b}.
Proof. decide equality; apply Z.eq_dec. Defined.

(** ** Quadrant placement of a child tile in the overview canvas *)

(** The code of [generate_overview_tiles]:
    [if (ty == 0 and y == 1) or (ty != 0 and (y % (2 * ty)) != 0)]. *)
Definition tileposy_cond (ty y : Z) : bool :=
  ((ty =? 0) && (y =? 1)) || (negb (ty =? 0) && negb (y mod (2 * ty) =? 0)).

Definition tileposy (tilesize ty y : Z) : Z :=
  if tileposy_cond ty y then 0 else tilesize.

(** [if tx: ... elif tx == 0 and x == 1: ... else: ...] *)
Definition tileposx (tilesize tx x : Z) : Z :=
  if negb (tx =? 0) then x mod (2 * tx) * tilesize
  else if (tx =? 0) && (x =? 1) then tilesize
  else 0.

(** The condition under which the specification reads the X offset as one
    tile size. *)
Definition tileposx_cond (tx x : Z) : bool :=
  (negb (tx =? 0) && negb (x mod (2 * tx) =? 0)) || ((tx =? 0) && (x =? 1)).

(** The simpler rule of the specification: the child is in the upper
    (right) half exactly when its index is the odd one of the pair. *)
Definition tileposy_simple (tilesize ty y : Z) : Z :=
  if y - 2 * ty =? 1 then 0 else tilesize.

Definition tileposx_simple (tilesize tx x : Z) : Z :=
  if x - 2 * tx =? 1 then tilesize else 0.

(** ** Sample inputs *)

(** A north-up raster of 1000 x 800 unit pixels with its upper-left corner
    at the origin. *)
Definition raster_1000x800 : Dataset :=
  mkDataset (mkGeoTransform 0 1 0 0 0 (-1)) 1000 800.

(** ** The corner round trips of the Mercator pyramid *)

(** [PixelsToTile(MetersToPixels(minx, miny, zoom))] for the minimum corner
    of [TileBounds(tx, ty, zoom)]. *)
Definition min_corner_tile (tx ty zoom : Z) : Z * Z :=
  let '(minx, miny, maxx, maxy) := GlobalMercator.TileBounds tx ty zoom in
  let '(px, py) := GlobalMercator.MetersToPixels minx miny zoom in
  GlobalMercator.PixelsToTile px py.

(** The same for the maximum corner [(maxx, maxy)]. *)
Definition max_corner_tile (tx ty zoom : Z) : Z * Z :=
  let '(minx, miny, maxx, maxy) := GlobalMercator.TileBounds tx ty zoom in
  let '(px, py) := GlobalMercator.MetersToPixels maxx maxy zoom in
  GlobalMercator.PixelsToTile px py.

(** ** open_input: the default maximal zoom of the Mercator profile *)

(** [if self.tmaxz == None:
       self.tmaxz = self.mercator.ZoomForPixelSize(self.out_gt[1])];
    a zoom given with [--zoom] is kept. *)
Definition open_input_tmaxz (tmaxz : option Z) (out_gt : GeoTransform) : option Z :=
  match tmaxz with
  | None => GlobalMercator.ZoomForPixelSize (gt1 out_gt)
  | Some z => Some z
  end.

(** ** Command-line options *)

Inductive profile : Type := mercator | geodetic | raster.

Inductive resampling : Type :=
| average | near | bilinear | cubic | cubicspline | lanczos | antialias.

Inductive webviewer : Type :=
| wv_all | wv_google | wv_openlayers | wv_leaflet | wv_index | wv_metadata
| wv_none.

Inductive output_cache : Type := tms | xyz.

Inductive tiledriver : Type := PNG | JPEG.

Definition resampling_eqb (a b : resampling) : bool :=
  match a, b with
  | average, average | near, near | bilinear, bilinear | cubic, cubic
  | cubicspline, cubicspline | lanczos, lanczos | antialias, antialias => true
  | _, _ => false
  end.

(** [self.options], after [optparse_init] and [parse_args].  [zoom] is the
    parsed [--zoom] option: the constructor sets [self.tminz] and
    [self.tmaxz] from it and leaves them [None] without it. *)
Record Options : Type := mkOptions {
  opt_profile : profile;
  opt_resampling : resampling;
  opt_zoom : option (Z * Z);
  opt_resume : bool;
  opt_processes : Z;
  opt_verbose : bool;
  opt_kml : bool;
  opt_webviewer : webviewer;
  opt_title : string;
  opt_copyright : string;
  opt_output_cache : output_cache
}.

(** ** Images and files, symbolically

    Pixels are produced by GDAL, numpy and PIL.  Their operations are kept
    as uninterpreted constructors, so that a tile is the term that says how
    it was computed. *)

Inductive image : Type :=
| Create (xsize ysize bands : Z)
    (* mem_drv.Create: a zero-filled dataset, alpha 0 everywhere *)
| ReadRaster (rb : window) (wxsize wysize : Z)
    (* ds.ReadRaster and alphaband.ReadRaster of the source window *)
| WriteRaster (dst : image) (wb : window) (data : image)
| WriteArray (dst : image) (xoff yoff : Z) (src : image)
    (* band by band WriteArray of a decoded child tile *)
| Scaled (algo : resampling) (query : image)
    (* RegenerateOverview / ReprojectImage into the tile dataset *)
| Resized (tilesize : Z) (query : image)
    (* Image.fromarray(...).resize(..., Image.ANTIALIAS) *)
| Composite (im1 im0 : image)
    (* Image.composite(im1, im0, im1) *)
| Encoded (driver : tiledriver) (img : image)
    (* img.save(binary, format=self.tiledriver) *)
| Decoded (blob : image).
    (* numpy.array(Image.open(io.BytesIO(blob))) *)

(** [os.path.join(self.output, str(tz), str(tx), "%s.%s" % (ty_final,
    self.tileext))], and the files that [generate_metadata] writes next to
    the archive. *)
Inductive path : Type :=
| TileFile (output : string) (tz tx ty_final : Z) (tileext : string)
| OutputDirFile (name : string).

Inductive content : Type :=
| ImageFile (img : image)
| TextFile (template : string).

Definition path_eqb (p q : path) : bool :=
  match p, q with
  | TileFile o z x y e, TileFile o' z' x' y' e' =>
      String.eqb o o' && (z =? z') && (x =? x') && (y =? y') && String.eqb e e'
  | OutputDirFile n, OutputDirFile n' => String.eqb n n'
  | _, _ => false
  end.

(** ** The archive and the file system as explicit state *)

(** A value bound to a [?] of an INSERT into [metadata]. *)
Inductive value : Type :=
| VStr (s : string)
| VInt (n : Z).

Record tile_row_t : Type := mkRow {
  zoom_level : Z;
  tile_column : Z;
  tile_row : Z;
  tile_data : image
}.

(** The statements that changed the archive, in the order of execution. *)
Inductive event : Type :=
| EvCreateTables
| EvInsertMetadata (name : string) (v : value)
| EvInsertTile (z x y : Z)
| EvCreateIndexName
| EvCreateIndexTiles
| EvJournalDelete.

Record world : Type := mkWorld {
  schema : bool;                        (* the four tables exist *)
  tiles : list tile_row_t;              (* table tiles, in insertion order *)
  metadata : list (string * value);     (* table metadata *)
  name_index : bool;                    (* unique index name on metadata(name) *)
  tile_index : bool;                    (* unique index tile_index on tiles *)
  files : list (path * content);        (* the file system *)
  log : list event                      (* history of the archive *)
}.

Definition set_schema (b : bool) (w : world) : world :=
  mkWorld b (tiles w) (metadata w) (name_index w) (tile_index w) (files w) (log w).
Definition set_tiles (t : list tile_row_t) (w : world) : world :=
  mkWorld (schema w) t (metadata w) (name_index w) (tile_index w) (files w) (log w).
Definition set_metadata (m : list (string * value)) (w : world) : world :=
  mkWorld (schema w) (tiles w) m (name_index w) (tile_index w) (files w) (log w).
Definition set_name_index (b : bool) (w : world) : world :=
  mkWorld (schema w) (tiles w) (metadata w) b (tile_index w) (files w) (log w).
Definition set_tile_index (b : bool) (w : world) : world :=
  mkWorld (schema w) (tiles w) (metadata w) (name_index w) b (files w) (log w).
Definition set_files (f : list (path * content)) (w : world) : world :=
  mkWorld (schema w) (tiles w) (metadata w) (name_index w) (tile_index w) f (log w).
Definition add_log (e : event) (w : world) : world :=
  mkWorld (schema w) (tiles w) (metadata w) (name_index w) (tile_index w)
          (files w) (log w ++ [e]).

(** A new output file: no tables, no files. *)
Definition fresh_world : world := mkWorld false [] [] false false [] [].

(** ** Computations: state and exceptions

    A computation runs on a world and either returns or raises; in both
    cases the effects made so far remain. *)

Definition M (A : Type) : Type := world -> res A * world.

Definition ret {A : Type} (a : A) : M A := fun w => (Ok a, w).

Definition raise {A : Type} (e : exn) : M A := fun w => (Raise e, w).

Definition bind {A B : Type} (m : M A) (k : A -> M B) : M B :=
  fun w => match m w with
           | (Ok a, w') => k a w'
           | (Raise e, w') => (Raise e, w')
           end.

Definition lift {A : Type} (r : res A) : M A := fun w => (r, w).

Definition gets {A : Type} (f : world -> A) : M A := fun w => (Ok (f w), w).

Definition modify (f : world -> world) : M unit := fun w => (Ok tt, f w).

Declare Scope m_scope.
Delimit Scope m_scope with M.
Notation "x <- m ;; k" := (bind m (fun x => k))
  (at level 61, m at next level, right associativity) : m_scope.
Notation "' pat <- m ;; k" := (bind m (fun x => match x with pat => k end))
  (at level 61, pat pattern, m at next level, right associativity) : m_scope.
Notation "m ;;; k" := (bind m (fun _ => k))
  (at level 61, right associativity) : m_scope.

(** A [for] loop whose body may raise. *)
Fixpoint for_each {A : Type} (l : list A) (body : A -> M unit) : M unit :=
  match l with
  | [] => ret tt
  | a :: rest => bind (body a) (fun _ => for_each rest body)
  end.

(** A [for] loop that threads a local variable through its iterations. *)
Fixpoint for_fold {A S : Type} (l : list A) (s : S) (body : S -> A -> M S) : M S :=
  match l with
  | [] => ret s
  | a :: rest => bind (body s a) (fun s' => for_fold rest s' body)
  end.

(** ** Primitive operations: indexing, SQLite statements, files *)

(** [l[i]] on a Python list. *)
Definition list_get {A : Type} (l : list A) (i : Z) : res A :=
  let n := Z.of_nat (List.length l) in
  let j := if i <? 0 then i + n else i in
  if (0 <=? j) && (j <? n)
  then match nth_error l (Z.to_nat j) with
       | Some a => Ok a
       | None => Raise IndexError
       end
  else Raise IndexError.

(** [a % b] on integers. *)
Definition zmod (a b : Z) : res Z :=
  if b =? 0 then Raise ZeroDivisionError else Ok (a mod b).

Definition row_matches (z x y : Z) (r : tile_row_t) : bool :=
  (zoom_level r =? z) && (tile_column r =? x) && (tile_row r =? y).

(** [insert into tiles (zoom_level, tile_column, tile_row, tile_data)
    values (?, ?, ?, ?)].  Without the tables the statement fails; once the
    unique index exists a second row for a key is refused. *)
Definition sql_insert_tile (z x y : Z) (data : image) : M unit :=
  fun w =>
    if negb (schema w) then (Raise OperationalError, w)
    else if tile_index w && existsb (row_matches z x y) (tiles w)
    then (Raise IntegrityError, w)
    else (Ok tt, add_log (EvInsertTile z x y)
                         (set_tiles (tiles w ++ [mkRow z x y data]) w)).

(** [select tile_data from tiles where zoom_level = ? AND tile_column = ?
    AND tile_row = ?] followed by [fetchone()]. *)
Definition sql_select_tile (z x y : Z) : M (option image) :=
  fun w =>
    if negb (schema w) then (Raise OperationalError, w)
    else (Ok (option_map tile_data (find (row_matches z x y) (tiles w))), w).

(** [INSERT INTO metadata (name, value) values (?, ?)]. *)
Definition sql_insert_metadata (name : string) (v : value) : M unit :=
  fun w =>
    if negb (schema w) then (Raise OperationalError, w)
    else if name_index w && existsb (fun nv => String.eqb (fst nv) name) (metadata w)
    then (Raise IntegrityError, w)
    else (Ok tt, add_log (EvInsertMetadata name v)
                         (set_metadata (metadata w ++ [(name, v)]) w)).

Definition path_exists (p : path) : M bool :=
  gets (fun w => existsb (fun f => path_eqb (fst f) p) (files w)).

Definition file_read (p : path) : M (option content) :=
  gets (fun w => option_map snd (find (fun f => path_eqb (fst f) p) (files w))).

Definition file_write (p : path) (c : content) : M unit :=
  modify (fun w =>
    set_files ((p, c) :: filter (fun f => negb (path_eqb (fst f) p)) (files w)) w).

(** ** globalmaptiles: GlobalGeodetic.TileBounds *)

Module GlobalGeodetic.

Definition tileSize : Z := 256.

(** [TileBounds]: the resolution, 180 / 256 / 2^zoom, is a binary64
    number; the product with the integer pixel and the difference are
    rounded. *)
Definition TileBounds (tx ty zoom : Z) : Q * Q * Q * Q :=
  let res := (180 / inject_Z tileSize / inject_Z (2 ^ zoom))%Q in
  (Float64.fl (Float64.fl (inject_Z (tx * tileSize) * res) - 180)%Q,
   Float64.fl (Float64.fl (inject_Z (ty * tileSize) * res) - 90)%Q,
   Float64.fl (Float64.fl (inject_Z ((tx + 1) * tileSize) * res) - 180)%Q,
   Float64.fl (Float64.fl (inject_Z ((ty + 1) * tileSize) * res) - 90)%Q).

End GlobalGeodetic.

(** ** The GDAL2Mbtiles object of a worker, after [open_input] *)

Record GDAL2Mbtiles : Type := mkGDAL2Mbtiles {
  options : Options;
  output : string;
  tilesize : Z;
  querysize : Z;
  self_tiledriver : tiledriver;
  tileext : string;
  tminz : Z;
  tmaxz : Z;
  tminmax : list TileRange;
  out_ds : Dataset;
  dataBandsCount : Z;
  nativezoom : Z;
  tsize : list Z;
  swne_str : string * string * string * string
    (* str(south), str(west), str(north), str(east) of self.swne *)
}.

(** [ty_final], the row of the file name: XYZ when the output cache is
    'xyz'. *)
Definition ty_final (self : GDAL2Mbtiles) (tz ty : Z) : Z :=
  match opt_output_cache (options self) with
  | xyz => (2 ^ tz - 1) - ty
  | tms => ty
  end.

Definition tilefilename (self : GDAL2Mbtiles) (tz tx ty : Z) : path :=
  TileFile (output self) tz tx (ty_final self tz ty) (tileext self).

(** ** GDAL2Mbtiles.scale_query_to_tile

    The tile dataset is mutated in place by the code; here the new tile
    dataset is returned.  Failures inside GDAL ([res != 0]) are not
    modelled. *)

Section Tiling.

Local Open Scope m_scope.

Definition scale_query_to_tile (self : GDAL2Mbtiles) (dsquery dstile : image)
           (tilefilename : path) : M image :=
  match opt_resampling (options self) with
  | average => ret (Scaled average dsquery)
  | antialias =>
      let im1 := Resized (tilesize self) dsquery in
      ex <- path_exists tilefilename ;;
      im1 <- (if ex then
                c <- file_read tilefilename ;;
                match c with
                | Some (ImageFile im0) => ret (Composite im1 im0)
                | _ => ret im1
                end
              else ret im1) ;;
      file_write tilefilename (ImageFile (Encoded (self_tiledriver self) im1)) ;;;
      ret dstile
  | algo => ret (Scaled algo dsquery)
  end.

(** ** GDAL2Mbtiles.generate_base_tiles *)

(** The read and write windows of a base tile and the query size in
    force, by profile. *)
Definition base_windows (self : GDAL2Mbtiles) (tmaxx tmaxy tx ty tz : Z)
  : res (window * window * Z) :=
  (match opt_profile (options self) with
   | raster =>
       t <- list_get (tsize self) tz ;;
       let tsize := t in
       let xsize := RasterXSize (out_ds self) in
       let ysize := RasterYSize (out_ds self) in
       let querysize :=
         if tz >=? nativezoom self then tilesize self else querysize self in
       let rx := tx * tsize in
       let rxsize := 0 in
       rxsize <- (if tx =? tmaxx then zmod xsize tsize else Ok rxsize) ;;
       let rxsize := if rxsize =? 0 then tsize else rxsize in
       let rysize := 0 in
       rysize <- (if ty =? tmaxy then zmod ysize tsize else Ok rysize) ;;
       let rysize := if rysize =? 0 then tsize else rysize in
       let ry := ysize - (ty * tsize) - rysize in
       let wx := 0 in
       let wy := 0 in
       fx <- fdiv (Py.float rxsize) (Py.float tsize) ;;
       fy <- fdiv (Py.float rysize) (Py.float tsize) ;;
       let wxsize := Py.int (fx * Py.float (tilesize self))%Q in
       let wysize := Py.int (fy * Py.float (tilesize self))%Q in
       let wy := if negb (wysize =? tilesize self) then tilesize self - wysize else wy in
       Ok ((rx, ry, rxsize, rysize), (wx, wy, wxsize, wysize), querysize)
   | p =>
       let '(b0, b1, b2, b3) :=
         match p with
         | mercator => GlobalMercator.TileBounds tx ty tz
         | _ => GlobalGeodetic.TileBounds tx ty tz
         end in
       (* the native extent, only printed in verbose mode *)
       _ <- geo_query (out_ds self) b0 b3 b2 b1 0 ;;
       '(rb, wb) <- geo_query (out_ds self) b0 b3 b2 b1 (querysize self) ;;
       Ok (rb, wb, querysize self)
   end)%res.

(** The body of the two loops for one claimed tile [(tx, ty)]. *)
Definition base_tile (self : GDAL2Mbtiles) (tmaxx tmaxy : Z) (t : Z * Z) : M unit :=
  let '(tx, ty) := t in
  let tz := tmaxz self in
  let tilebands := dataBandsCount self + 1 in
  let tilefilename := tilefilename self tz tx ty in
  ex <- path_exists tilefilename ;;
  if ex then ret tt (* already exist: continue *) else
  done <- (if opt_resume (options self)
           then r <- sql_select_tile tz tx ty ;;
                ret (match r with Some _ => true | None => false end)
           else ret false) ;;
  if done then ret tt (* skipped because of --resume: continue *) else
  '(rb, wb, querysize) <- lift (base_windows self tmaxx tmaxy tx ty tz) ;;
  let '(wx, wy, wxsize, wysize) := wb in
  let dstile := Create (tilesize self) (tilesize self) tilebands in
  let data := ReadRaster rb wxsize wysize in
  dstile <- (if tilesize self =? querysize
             then ret (WriteRaster dstile wb data)
             else
               let dsquery := Create querysize querysize tilebands in
               let dsquery := WriteRaster dsquery wb data in
               scale_query_to_tile self dsquery dstile tilefilename) ;;
  if negb (resampling_eqb (opt_resampling (options self)) antialias)
  then sql_insert_tile tz tx ty (Encoded (self_tiledriver self) dstile)
  else ret tt.

Definition generate_base_tiles (self : GDAL2Mbtiles) (cpu : Z) : M unit :=
  r <- lift (list_get (tminmax self) (tmaxz self)) ;;
  let '(tminx, tminy, tmaxx, tmaxy) := r in
  if opt_processes (options self) =? 0
  then match tile_order r with
       | [] => ret tt
       | _ :: _ => raise ZeroDivisionError
       end
  else for_each (worker_tiles (opt_processes (options self)) cpu r)
                (base_tile self tmaxx tmaxy).

(** ** GDAL2Mbtiles.generate_overview_tiles *)

(** The body of [for y ...: for x ...:] for one child position: paint the
    child into the query canvas when it lies in the range of zoom [tz + 1]. *)
Definition paint_child (self : GDAL2Mbtiles) (tz tx ty : Z) (dsquery : image)
           (c : Z * Z) : M image :=
  let '(x, y) := c in
  r <- lift (list_get (tminmax self) (tz + 1)) ;;
  let '(minx, miny, maxx, maxy) := r in
  if (x >=? minx) && (x <=? maxx) && (y >=? miny) && (y <=? maxy) then
    blob_tile <- sql_select_tile (tz + 1) x y ;;
    match blob_tile with
    | None => raise TypeError   (* blob_tile[0] on None *)
    | Some blob =>
        let np_tile := Decoded blob in
        let tileposy := tileposy (tilesize self) ty y in
        let tileposx := tileposx (tilesize self) tx x in
        ret (WriteArray dsquery tileposx tileposy np_tile)
    end
  else ret dsquery.

(** The four child positions in the order of the loops. *)
Definition children (tx ty : Z) : list (Z * Z) :=
  flat_map (fun y => map (fun x => (x, y)) (Py.range (2 * tx) (2 * tx + 2)))
           (Py.range (2 * ty) (2 * ty + 2)).

Definition overview_tile (self : GDAL2Mbtiles) (tz : Z) (t : Z * Z) : M unit :=
  let '(tx, ty) := t in
  let tilebands := dataBandsCount self + 1 in
  let tilefilename := tilefilename self tz tx ty in
  ex <- (if opt_resume (options self) then path_exists tilefilename else ret false) ;;
  if ex then ret tt (* skipped because of --resume: continue *) else
  let tilebands :=
    match self_tiledriver self with
    | JPEG => if tilebands =? 4 then 3 else tilebands
    | PNG => tilebands
    end in
  let dsquery := Create (2 * tilesize self) (2 * tilesize self) tilebands in
  let dstile := Create (tilesize self) (tilesize self) tilebands in
  dsquery <- for_fold (children tx ty) dsquery (paint_child self tz tx ty) ;;
  dstile <- scale_query_to_tile self dsquery dstile tilefilename ;;
  if negb (resampling_eqb (opt_resampling (options self)) antialias)
  then sql_insert_tile tz tx ty (Encoded (self_tiledriver self) dstile)
  else ret tt.

Definition generate_overview_tiles (self : GDAL2Mbtiles) (cpu tz : Z) : M unit :=
  (* tcount: the ranges of all the overview zooms are read first *)
  for_each (Py.range_down (tmaxz self - 1) (tminz self - 1))
           (fun z => _ <- lift (list_get (tminmax self) z) ;; ret tt) ;;;
  r <- lift (list_get (tminmax self) tz) ;;
  if opt_processes (options self) =? 0
  then match tile_order r with
       | [] => ret tt
       | _ :: _ => raise ZeroDivisionError
       end
  else for_each (worker_tiles (opt_processes (options self)) cpu r)
                (overview_tile self tz).

End Tiling.

(** ** Metadata, schema and indexes *)

Section Run.

Local Open Scope m_scope.
Local Open Scope string_scope.

Definition quote_char : Ascii.ascii := Ascii.ascii_of_nat 34.
Definition backslash_char : Ascii.ascii := Ascii.ascii_of_nat 92.

(** [s.replace(quote, backslash + quote)]. *)
Fixpoint escape_quotes (s : string) : string :=
  match s with
  | EmptyString => EmptyString
  | String c rest =>
      if Ascii.eqb c quote_char
      then String backslash_char (String quote_char (escape_quotes rest))
      else String c (escape_quotes rest)
  end.

(** [generate_metadatajson]: the dictionary [s], as the list of its items
    in the order of the literal. *)
Definition generate_metadatajson (self : GDAL2Mbtiles) : list (string * value) :=
  let '(south, west, north, east) := swne_str self in
  [ ("name", VStr (escape_quotes (opt_title (options self))));
    ("description", VStr (opt_title (options self)));
    ("version", VStr "1.0.0");
    ("attribution", VStr (escape_quotes (opt_copyright (options self))));
    ("type", VStr "overlay");
    ("format", VStr (tileext self));
    ("minzoom", VInt (tminz self));
    ("maxzoom", VInt (tmaxz self));
    ("bounds", VStr (south ++ " " ++ west ++ " " ++ north ++ " " ++ east));
    ("scale", VStr "1");
    ("profile", VStr "mercator") ].

(** The guard of every file of [generate_metadata]:
    [if not self.options.resume or not os.path.exists(...)]. *)
Definition unless_resumed (self : GDAL2Mbtiles) (name : string) (body : M unit)
  : M unit :=
  ex <- path_exists (OutputDirFile name) ;;
  if negb (opt_resume (options self)) || negb ex then body else ret tt.

Definition write_viewer (self : GDAL2Mbtiles) (name : string) : M unit :=
  unless_resumed self name (file_write (OutputDirFile name) (TextFile name)).

Definition webviewer_in (v : webviewer) (a b : webviewer) : bool :=
  match v, a, b with
  | wv_all, wv_all, _ => true
  | wv_google, _, wv_google => true
  | wv_openlayers, _, wv_openlayers => true
  | wv_leaflet, _, wv_leaflet => true
  | wv_index, _, wv_index => true
  | wv_metadata, _, wv_metadata => true
  | _, _, _ => false
  end.

(** [generate_metadata(self, cur)]: the viewer files, and for the Mercator
    profile the rows of the metadata table. *)
Definition generate_metadata (self : GDAL2Mbtiles) : M unit :=
  let wv := opt_webviewer (options self) in
  (match opt_profile (options self) with
   | mercator =>
       (if webviewer_in wv wv_all wv_google
        then write_viewer self "googlemaps.html" else ret tt) ;;;
       (if webviewer_in wv wv_all wv_openlayers
        then write_viewer self "openlayers.html" else ret tt) ;;;
       (if webviewer_in wv wv_all wv_leaflet
        then write_viewer self "leaflet.html" else ret tt) ;;;
       (if webviewer_in wv wv_all wv_index
        then write_viewer self "index.html" else ret tt) ;;;
       (if webviewer_in wv wv_all wv_metadata
        then unless_resumed self "metadata.json"
               (let metadata_dict := generate_metadatajson self in
                file_write (OutputDirFile "metadata.json") (TextFile "metadata.json") ;;;
                for_each metadata_dict
                         (fun nv => sql_insert_metadata (fst nv) (snd nv)))
        else ret tt)
   | geodetic =>
       if webviewer_in wv wv_all wv_openlayers
       then write_viewer self "openlayers.html" else ret tt
   | raster =>
       if webviewer_in wv wv_all wv_openlayers
       then write_viewer self "openlayers.html" else ret tt
   end) ;;;
  write_viewer self "tilemapresource.xml" ;;;
  (if opt_kml (options self) then write_viewer self "doc.kml" else ret tt).

(** [mbtiles_setup]: the four CREATE TABLE statements. *)
Definition mbtiles_setup : M unit :=
  fun w =>
    if schema w then (Raise OperationalError, w)
    else (Ok tt, add_log EvCreateTables (set_schema true w)).

Fixpoint distinctb {A : Type} (eqb : A -> A -> bool) (l : list A) : bool :=
  match l with
  | [] => true
  | a :: rest => negb (existsb (eqb a) rest) && distinctb eqb rest
  end.

Definition tile_key (r : tile_row_t) : Z * Z * Z :=
  (zoom_level r, tile_column r, tile_row r).

Definition tile_key_eqb (a b : Z * Z * Z) : bool :=
  let '(z, x, y) := a in
  let '(z', x', y') := b in
  ((z =? z') && (x =? x') && (y =? y'))%Z.

(** [create unique index name on metadata (name)]: refused when the table
    is missing, when the index exists, or when a name occurs twice. *)
Definition create_index_name : M unit :=
  fun w =>
    if negb (schema w) || name_index w then (Raise OperationalError, w)
    else if negb (distinctb String.eqb (map fst (metadata w)))
    then (Raise IntegrityError, w)
    else (Ok tt, add_log EvCreateIndexName (set_name_index true w)).

(** [create unique index tile_index on tiles (zoom_level, tile_column,
    tile_row)]. *)
Definition create_index_tiles : M unit :=
  fun w =>
    if negb (schema w) || tile_index w then (Raise OperationalError, w)
    else if negb (distinctb tile_key_eqb (map tile_key (tiles w)))
    then (Raise IntegrityError, w)
    else (Ok tt, add_log EvCreateIndexTiles (set_tile_index true w)).

Definition create_index : M unit :=
  create_index_name ;;; create_index_tiles.

(** ** The worker processes and [main] *)

Definition worker_metadata (self : GDAL2Mbtiles) : M unit :=
  if negb (opt_resume (options self))
  then mbtiles_setup ;;; generate_metadata self
  else ret tt.

Definition worker_base_tiles (self : GDAL2Mbtiles) (cpu : Z) : M unit :=
  generate_base_tiles self cpu.

Definition worker_overview_tiles (self : GDAL2Mbtiles) (cpu tz : Z) : M unit :=
  generate_overview_tiles self cpu tz.

(** A child process: what it did to the archive and to the files stays,
    an exception ends the child and is not seen by the parent. *)
Definition run_process (m : M unit) : M unit :=
  fun w => (Ok tt, snd (m w)).

(** [main].  The parent object is the one the constructor built, so its
    [tminz] and [tmaxz] are those of [--zoom], or [None]; the workers of a
    phase are run one after the other, in the order in which they are
    started. *)
Definition main (self : GDAL2Mbtiles) : M unit :=
  let proc_count := opt_processes (options self) in
  run_process (worker_metadata self) ;;;
  for_each (Py.range 0 proc_count)
           (fun cpu => run_process (worker_base_tiles self cpu)) ;;;
  (match opt_zoom (options self) with
   | None => raise TypeError   (* tmaxz - 1 on None *)
   | Some (tminz, tmaxz) =>
       for_each (Py.range_down (tmaxz - 1) (tminz - 1))
         (fun tz =>
            for_each (Py.range 0 proc_count)
              (fun cpu =>
                 run_process (worker_overview_tiles self (cpu mod proc_count) tz)))
   end) ;;;
  (if negb (opt_resume (options self)) then create_index else ret tt) ;;;
  modify (add_log EvJournalDelete).

End Run.

(** ** open_input: the tile ranges of the Mercator profile *)

(** [self.tminmax] for the zooms 0..31, from the bounds of the projected
    raster. *)
Definition mercator_tminmax (ds : Dataset) : list TileRange :=
  let g := GetGeoTransform ds in
  let ominx := gt0 g in
  let omaxx := (gt0 g + inject_Z (RasterXSize ds) * gt1 g)%Q in
  let omaxy := gt3 g in
  let ominy := (gt3 g - inject_Z (RasterYSize ds) * gt1 g)%Q in
  map (fun tz =>
         let '(tminx, tminy) := GlobalMercator.MetersToTile ominx ominy tz in
         let '(tmaxx, tmaxy) := GlobalMercator.MetersToTile omaxx omaxy tz in
         (* crop tiles extending world limits *)
         let '(tminx, tminy) := (Z.max 0 tminx, Z.max 0 tminy) in
         let '(tmaxx, tmaxy) := (Z.min (2 ^ tz - 1) tmaxx, Z.min (2 ^ tz - 1) tmaxy) in
         (tminx, tminy, tmaxx, tmaxy))
      (Py.range 0 32).

(** ** A sample run: the whole world as a 512 x 512 raster in EPSG:3857 *)

Definition world_512 : Dataset :=
  mkDataset
    (mkGeoTransform (- GlobalMercator.originShift)
                    (2 * GlobalMercator.originShift / 512) 0
                    GlobalMercator.originShift 0
                    (- (2 * GlobalMercator.originShift / 512)))
    512 512.

Definition sample_options (r : resampling) (o : output_cache) (resume : bool)
  : Options :=
  mkOptions mercator r (Some (0, 1)) resume 2 false false wv_all
            "world"%string ""%string o.

(** The object for [-p mercator -z 0-1 --processes 2]; [near] reads the
    tile at query size 256, the other algorithms at 4 * 256 (bilinear at
    2 * 256). *)
Definition sample_self (r : resampling) (o : output_cache) (resume : bool)
  : GDAL2Mbtiles :=
  mkGDAL2Mbtiles (sample_options r o resume) "world.mbtiles"%string 256
                 (match r with near => 256 | bilinear => 512 | _ => 1024 end)
                 PNG "png"%string 0 1 (mercator_tminmax world_512) world_512 3 0 []
                 ("-85.05"%string, "-180.0"%string, "85.05"%string, "180.0"%string).

(** ** Frame reasoning for computations

    [preserves R m] says that running [m], whether it returns or raises,
    takes a world to an [R]-related one. *)

Definition preserves {A : Type} (R : world -> world -> Prop) (m : M A) : Prop :=
  forall w, R w (snd (m w)).

(** Two worlds with the same archive: tables, rows, indexes and history. *)
Definition same_archive (w w' : world) : Prop :=
  schema w' = schema w /\ tiles w' = tiles w /\ metadata w' = metadata w /\
  name_index w' = name_index w /\ tile_index w' = tile_index w /\
  log w' = log w.

(** The history of the archive grew by events that all satisfy [P]. *)
Definition log_grows (P : event -> Prop) (w w' : world) : Prop :=
  exists l, log w' = log w ++ l /\ Forall P l.

Definition is_tile_insert (e : event) : Prop :=
  match e with EvInsertTile _ _ _ => True | _ => False end.

Definition is_metadata_insert (e : event) : Prop :=
  match e with EvInsertMetadata _ _ => True | _ => False end.

Definition is_index_event (e : event) : Prop :=
  match e with EvCreateIndexName | EvCreateIndexTiles => True | _ => False end.

(** The table [tiles] is as it was and no INSERT into it was executed. *)
Definition same_tiles (w w' : world) : Prop :=
  tiles w' = tiles w /\ log_grows (fun e => ~ is_tile_insert e) w w'.


(** The sample archive after the metadata worker and worker 0 of the base
    phase, when worker 1 has written nothing: of the four tiles of zoom 1
    the rows of (0, 1) and (0, 0) are there, those of (1, 1) and (1, 0) are
    not. *)
Definition sample_archive_worker0_only : world :=
  let s := sample_self near tms false in
  snd (bind (run_process (worker_metadata s))
            (fun _ => run_process (worker_base_tiles s 0)) fresh_world).

(** A newly created output file: no tables, no rows, no indexes. *)
Definition new_archive (w : world) : Prop :=
  schema w = false /\ tiles w = [] /\ metadata w = [] /\
  name_index w = false /\ tile_index w = false.

(** The Mercator sample with another web viewer option. *)
Definition sample_self_viewer (v : webviewer) : GDAL2Mbtiles :=
  mkGDAL2Mbtiles
    (mkOptions mercator average (Some (0, 1)) false 2 false false v
               "world"%string ""%string xyz)
    "world.mbtiles"%string 256 1024 PNG "png"%string 0 1
    (mercator_tminmax world_512) world_512 3 0 []
    ("-85.05"%string, "-180.0"%string, "85.05"%string, "180.0"%string).

(** A sample of the geodetic profile: the whole world as a 512 x 256
    raster in EPSG:4326, zooms 0 and 1. *)
Definition geodetic_512 : Dataset :=
  mkDataset (mkGeoTransform (-180) (360 # 512) 0 90 0 (- (360 # 512))) 512 256.

Definition sample_geodetic : GDAL2Mbtiles :=
  mkGDAL2Mbtiles
    (mkOptions geodetic average (Some (0, 1)) false 2 false false wv_all
               "world"%string ""%string xyz)
    "world.mbtiles"%string 256 1024 PNG "png"%string 0 1
    [(0, 0, 1, 0); (0, 0, 3, 1)] geodetic_512 3 0 []
    ("-90.0"%string, "-180.0"%string, "90.0"%string, "180.0"%string).

(** The metadata table is as it was and no INSERT into it was executed. *)
Definition same_metadata (w w' : world) : Prop :=
  metadata w' = metadata w /\ log_grows (fun e => ~ is_metadata_insert e) w w'.

(** ** The plan of a run: which keys each worker may insert *)

(** [l1] is [l2] with some elements left out. *)
Inductive subseq {A : Type} : list A -> list A -> Prop :=
| subseq_nil : subseq [] []
| subseq_skip (a : A) (l1 l2 : list A) : subseq l1 l2 -> subseq l1 (a :: l2)
| subseq_take (a : A) (l1 l2 : list A) : subseq l1 l2 -> subseq (a :: l1) (a :: l2).

(** The rows appended to [tiles] have their keys, in order, among [L]. *)
Definition appends_keys (L : list (Z * Z * Z)) (w w' : world) : Prop :=
  exists l, tiles w' = tiles w ++ l /\ subseq (map tile_key l) L.

(** Tables, indexes and metadata rows are as they were. *)
Definition same_setup (w w' : world) : Prop :=
  schema w' = schema w /\ metadata w' = metadata w /\
  name_index w' = name_index w /\ tile_index w' = tile_index w /\
  log_grows (fun e => ~ is_index_event e) w w'.

(** [self.tminmax[tz]], or an empty range where the indexing raises. *)
Definition zoom_range (self : GDAL2Mbtiles) (tz : Z) : TileRange :=
  match list_get (tminmax self) tz with
  | Ok r => r
  | Raise _ => (0, 0, -1, -1)
  end.

Definition worker_keys (processes cpu tz : Z) (r : TileRange) : list (Z * Z * Z) :=
  map (fun t => (tz, fst t, snd t)) (worker_tiles processes cpu r).

(** The keys of one zoom, worker by worker. *)
Definition phase_keys (self : GDAL2Mbtiles) (tz : Z) : list (Z * Z * Z) :=
  let n := opt_processes (options self) in
  flat_map (fun cpu => worker_keys n cpu tz (zoom_range self tz)) (Py.range 0 n).

(** The keys of the base phase at [tmaxz] and of the overview phases from
    [tmaxz - 1] down to [tminz]. *)
Definition plan (self : GDAL2Mbtiles) (tminz tmaxz : Z) : list (Z * Z * Z) :=
  flat_map (phase_keys self) (tmaxz :: Py.range_down (tmaxz - 1) (tminz - 1)).

(** The processes of a phase, one after the other. *)
Definition run_all {A : Type} (l : list A) (f : A -> M unit) (w : world) : world :=
  fold_left (fun w a => snd (f a w)) l w.

(** The sample archive of a run that was interrupted after the base phase:
    metadata and the four tiles of zoom 1, no overview tile, no index. *)
Definition sample_archive_after_base : world :=
  let s := sample_self average xyz false in
  run_all (Py.range 0 2) (worker_base_tiles s) (snd (worker_metadata s fresh_world)).

(** ** globalmaptiles: the remaining Mercator conversions *)

Module MercatorTiles.

(** [str(digit)] for a one-digit number. *)
Definition str_digit (d : Z) : string :=
  String (Ascii.ascii_of_nat (48 + Z.to_nat d)) EmptyString.

(** The body of the loop of [QuadTree] for one [i]: the digit appended. *)
Definition quad_digit (tx ty i : Z) : Z :=
  let digit := 0 in
  let mask := Z.shiftl 1 (i - 1) in
  let digit := if negb (Z.land tx mask =? 0) then digit + 1 else digit in
  let digit := if negb (Z.land ty mask =? 0) then digit + 2 else digit in
  digit.

(** [QuadTree]: the row is flipped to the top-left origin, then one digit
    per zoom level, from bit [zoom - 1] down to bit 0. *)
Definition QuadTree (tx ty zoom : Z) : string :=
  let quadKey := EmptyString in
  let ty := (2 ^ zoom - 1) - ty in
  fold_left (fun quadKey i => String.append quadKey (str_digit (quad_digit tx ty i)))
            (Py.range_down zoom 0) quadKey.

(** [a << n] on integers; a negative shift count raises ValueError, given
    here as [None]. *)
Definition lshift (a n : Z) : option Z :=
  if n <? 0 then None else Some (Z.shiftl a n).

(** [PixelsToRaster]: the pixel row counted from the top of the map; the
    difference is rounded. *)
Definition PixelsToRaster (px py : Q) (zoom : Z) : option (Q * Q) :=
  match lshift GlobalMercator.tileSize zoom with
  | None => None
  | Some mapSize => Some (px, Float64.fl (inject_Z mapSize - py))
  end.

End MercatorTiles.

(** ** open_input: the tables of the raster profile

    [self.nativezoom] comes from a logarithm computed in floating point and
    is taken as given. *)

(** [2.0 ** k] for an integer [k]. *)
Definition pow2_float (k : Z) : Q :=
  if 0 <=? k then inject_Z (2 ^ k) else (1 / inject_Z (2 ^ (- k)))%Q.

(** The body of [for tz in range(0, self.tmaxz + 1)]: the entries of
    [self.tminmax] and of [self.tsize] for the zoom [tz]; [math.ceil]
    returns an integer, which [int] leaves as it is. *)
Definition raster_level (ds : Dataset) (tilesize nativezoom tz : Z)
  : res (TileRange * Z) :=
  (let tsize := (pow2_float (nativezoom - tz) * Py.float tilesize)%Q in
   let '(tminx, tminy) := (0, 0) in
   q <- fdiv (Py.float (RasterXSize ds)) tsize ;;
   let tmaxx := Py.ceil q - 1 in
   q <- fdiv (Py.float (RasterYSize ds)) tsize ;;
   let tmaxy := Py.ceil q - 1 in
   Ok ((tminx, tminy, tmaxx, tmaxy), Py.ceil tsize))%res.

(** A loop that fills a list, one entry per element, and stops at the
    first exception. *)
Fixpoint res_map {A B : Type} (f : A -> res B) (l : list A) : res (list B) :=
  match l with
  | [] => Ok []
  | a :: rest =>
      (b <- f a ;;
       bs <- res_map f rest ;;
       Ok (b :: bs))%res
  end.

(** [self.tminmax] and [self.tsize] of the raster profile. *)
Definition raster_tables (ds : Dataset) (tilesize nativezoom tmaxz : Z)
  : res (list TileRange * list Z) :=
  (l <- res_map (raster_level ds tilesize nativezoom) (Py.range 0 (tmaxz + 1)) ;;
   Ok (map fst l, map snd l))%res.

(** A sample of the raster profile: the raster of 1000 x 800 pixels, whose
    native zoom is 2, tiled at the zooms 0 to 2. *)
Definition sample_raster : GDAL2Mbtiles :=
  let tables :=
    match raster_tables raster_1000x800 256 2 2 with
    | Ok t => t
    | Raise _ => ([], [])
    end in
  mkGDAL2Mbtiles
    (mkOptions raster average (Some (0, 2)) false 2 false false wv_none
               "raster"%string ""%string tms)
    "raster.mbtiles"%string 256 1024 PNG "png"%string 0 2
    (fst tables) raster_1000x800 3 2 (snd tables)
    ("0"%string, "0"%string, "0"%string, "0"%string).

(** ** globalmaptiles: the conversions of the geodetic profile *)

Module GeodeticTiles.

Local Open Scope Q_scope.

Definition tileSize : Z := 256.

(** [Resolution]: 180.0 / self.tileSize / 2 ** zoom *)
Definition Resolution (zoom : Z) : Q :=
  180 / inject_Z tileSize / inject_Z (2 ^ zoom)%Z.

(** [LatLonToPixels]; the callers pass x as [lat] and y as [lon].  The
    resolution, 180 / 256 / 2^zoom, is a binary64 number; the sum and the
    quotient are rounded. *)
Definition LatLonToPixels (lat lon : Q) (zoom : Z) : Q * Q :=
  let res := 180 / inject_Z tileSize / inject_Z (2 ^ zoom)%Z in
  let px := Float64.fl (Float64.fl (180 + lat) / res) in
  let py := Float64.fl (Float64.fl (90 + lon) / res) in
  (px, py).

Definition PixelsToTile (px py : Q) : Z * Z :=
  let tx := (Py.ceil (px / Py.float tileSize) - 1)%Z in
  let ty := (Py.ceil (py / Py.float tileSize) - 1)%Z in
  (tx, ty).

Definition LatLonToTile (lat lon : Q) (zoom : Z) : Z * Z :=
  let '(px, py) := LatLonToPixels lat lon zoom in
  PixelsToTile px py.

(** [TileLatLonBounds]: the bounds in the order south, west, north, east. *)
Definition TileLatLonBounds (tx ty zoom : Z) : Q * Q * Q * Q :=
  let '(b0, b1, b2, b3) := GlobalGeodetic.TileBounds tx ty zoom in
  (b1, b0, b3, b2).

End GeodeticTiles.

(** ** open_input: the tile ranges of the geodetic profile *)

Definition geodetic_tminmax (ds : Dataset) : list TileRange :=
  let g := GetGeoTransform ds in
  let ominx := gt0 g in
  let omaxx := (gt0 g + inject_Z (RasterXSize ds) * gt1 g)%Q in
  let omaxy := gt3 g in
  let ominy := (gt3 g - inject_Z (RasterYSize ds) * gt1 g)%Q in
  map (fun tz =>
         let '(tminx, tminy) := GeodeticTiles.LatLonToTile ominx ominy tz in
         let '(tmaxx, tmaxy) := GeodeticTiles.LatLonToTile omaxx omaxy tz in
         (* crop tiles extending world limits *)
         let '(tminx, tminy) := (Z.max 0 tminx, Z.max 0 tminy) in
         let '(tmaxx, tmaxy) :=
           (Z.min (2 ^ (tz + 1) - 1) tmaxx, Z.min (2 ^ tz - 1) tmaxy) in
         (tminx, tminy, tmaxx, tmaxy))
      (Py.range 0 32).

(** ** The progress of a phase *)

(** [tcount], the number of tiles that [generate_base_tiles] announces on
    the progress queue. *)
Definition tcount (r : TileRange) : Z :=
  let '(tminx, tminy, tmaxx, tmaxy) := r in
  (1 + Z.abs (tmaxx - tminx)) * (1 + Z.abs (tmaxy - tminy)).

(** [ProgressBar.progress_emiter]: the value that is emitted. *)
Definition progress_emiter (maxz minz processed_tiles total : Z) (overview : bool)
  : res Z :=
  (base_level <- fdiv (Py.float 100) (Py.float (maxz - minz + 1)) ;;
   if negb overview then
     multiplyer <- fdiv base_level (Py.float total) ;;
     Ok (Py.int (Py.float processed_tiles * multiplyer)%Q)
   else
     let level_percent := (100 - base_level)%Q in
     multiplyer <- fdiv level_percent (Py.float total) ;;
     Ok (Py.int (base_level + Py.float processed_tiles * multiplyer)%Q))%res.

(** ** Reading the archive *)

(** The image stored for a key: the first row that matches, as
    [fetchone()] returns it. *)
Definition stored (w : world) (z x y : Z) : option image :=
  option_map tile_data (find (row_matches z x y) (tiles w)).

(** ** open_input: the default minimal zoom of the Mercator profile *)

(** [if self.tminz == None:
       self.tminz = self.mercator.ZoomForPixelSize(
           self.out_gt[1] * max(RasterXSize, RasterYSize) / float(self.tilesize))];
    a zoom given with [--zoom] is kept. *)
Definition open_input_tminz (tminz : option Z) (ds : Dataset) (tilesize : Z)
  : res (option Z) :=
  match tminz with
  | None =>
      (q <- fdiv (gt1 (GetGeoTransform ds)
                  * Py.float (Z.max (RasterXSize ds) (RasterYSize ds)))%Q
                 (Py.float tilesize) ;;
       Ok (GlobalMercator.ZoomForPixelSize q))%res
  | Some z => Ok (Some z)
  end.

(** ** What a run that only computes tiles does to the archive *)

(** Tables, metadata rows and indexes are as they were, the rows of tiles
    that were there are kept, and the history grew by INSERTs into tiles
    and the closing journal statement only. *)
Definition only_tile_work (w w' : world) : Prop :=
  schema w' = schema w /\ metadata w' = metadata w /\
  name_index w' = name_index w /\ tile_index w' = tile_index w /\
  (exists l, tiles w' = tiles w ++ l) /\
  log_grows (fun e => is_tile_insert e \/ e = EvJournalDelete) w w'.

(** * Properties *)

(** ** Binary64 rounding

    The facts about [Float64.fl] that the coordinate kernel needs: what it
    returns is the nearest number with 53 significant bits, so that it is
    monotone, exact on such numbers and off by at most [2^-53] of its
    argument. *)

Section Float64Facts.

Import Float64.

Lemma two_pos (e : Z) : (0 < 2 ^ e)%Q.
Proof. apply Qpower_0_lt. reflexivity. Qed.

Lemma two_nz (e : Z) : ~ (2 ^ e == 0)%Q.
Proof. assert (H := two_pos e). lra. Qed.

Lemma two_plus (a b : Z) : (2 ^ (a + b) == 2 ^ a * 2 ^ b)%Q.
Proof. apply Qpower_plus. discriminate. Qed.

Lemma two_le (a b : Z) : a <= b -> (2 ^ a <= 2 ^ b)%Q.
Proof. intros H. apply Qpower_le_compat_l; [assumption | discriminate]. Qed.

Lemma two_lt (a b : Z) : a < b -> (2 ^ a < 2 ^ b)%Q.
Proof. intros H. apply Qpower_lt_compat_l; [assumption | reflexivity]. Qed.

Lemma two_inject (n : Z) : 0 <= n -> (inject_Z (2 ^ n) == 2 ^ n)%Q.
Proof. intros H. now rewrite Zpower_Qpower. Qed.

(** ** Rounding to the nearest integer, ties to even *)

Lemma rne_cases (x : Q) : rne x = Qfloor x \/ rne x = Qfloor x + 1.
Proof.
  unfold rne. destruct (Qcompare _ _); auto. destruct (Z.even _); auto.
Qed.

Lemma rne_error (x : Q) : (Qabs (inject_Z (rne x) - x) <= 1 # 2)%Q.
Proof.
  assert (L := Qfloor_le x). assert (U := Qlt_floor x).
  rewrite inject_Z_plus in U. change (inject_Z 1) with 1%Q in U.
  apply Qabs_Qle_condition. unfold rne.
  destruct (Qcompare_spec (x - inject_Z (Qfloor x)) (1 # 2)) as [E | E | E].
  - destruct (Z.even (Qfloor x)).
    + lra.
    + rewrite inject_Z_plus. change (inject_Z 1) with 1%Q. lra.
  - lra.
  - rewrite inject_Z_plus. change (inject_Z 1) with 1%Q. lra.
Qed.

Lemma rne_Z (k : Z) : rne (inject_Z k) = k.
Proof.
  unfold rne. rewrite Qfloor_Z.
  destruct (Qcompare_spec (inject_Z k - inject_Z k) (1 # 2)) as [E | E | E];
    try reflexivity; lra.
Qed.

Lemma rne_comp (x y : Q) : (x == y)%Q -> rne x = rne y.
Proof.
  intros E. unfold rne. rewrite (Qfloor_comp x y E).
  assert (C : ((x - inject_Z (Qfloor y)) ?= (1 # 2))%Q
              = ((y - inject_Z (Qfloor y)) ?= (1 # 2))%Q).
  { apply Qcompare_comp; [now rewrite E | reflexivity]. }
  now rewrite C.
Qed.

Lemma rne_mono (x y : Q) : (x <= y)%Q -> rne x <= rne y.
Proof.
  intros H. assert (F := Qfloor_resp_le x y H).
  destruct (Z.eq_dec (Qfloor x) (Qfloor y)) as [E | N].
  - (* same integer part *)
    unfold rne. rewrite E.
    destruct (Qcompare_spec (x - inject_Z (Qfloor y)) (1 # 2));
      destruct (Qcompare_spec (y - inject_Z (Qfloor y)) (1 # 2));
      destruct (Z.even (Qfloor y)); try lia; lra.
  - destruct (rne_cases x) as [-> | ->], (rne_cases y) as [-> | ->]; lia.
Qed.

Lemma rne_ge (x : Q) (k : Z) : (inject_Z k <= x)%Q -> k <= rne x.
Proof. intros H. rewrite <- (rne_Z k). now apply rne_mono. Qed.

Lemma rne_le (x : Q) (k : Z) : (x <= inject_Z k)%Q -> rne x <= k.
Proof. intros H. rewrite <- (rne_Z k). now apply rne_mono. Qed.

(** ** The exponent of a non-zero number *)

Lemma log2_bounds (n : Z) :
  0 < n -> (2 ^ Z.log2 n <= inject_Z n < 2 ^ (Z.log2 n + 1))%Q.
Proof.
  intros Hn. destruct (Z.log2_spec n Hn) as [L U].
  assert (H0 := Z.log2_nonneg n).
  rewrite <- !two_inject by lia. rewrite <- Zle_Qle, <- Zlt_Qlt.
  split; [assumption | exact U].
Qed.

Lemma Qabs_num_den (x : Q) :
  (Qabs x == inject_Z (Qnum (Qabs x)) / inject_Z (Zpos (Qden (Qabs x))))%Q.
Proof. rewrite <- Qmake_Qdiv. destruct (Qabs x). reflexivity. Qed.

Lemma Qabs_num_pos (x : Q) : ~ (x == 0)%Q -> 0 < Qnum (Qabs x).
Proof.
  intros H. destruct x as [n d]. cbn.
  assert (n <> 0). { intros ->. apply H. reflexivity. }
  lia.
Qed.

Lemma exponent_bounds (x : Q) :
  ~ (x == 0)%Q ->
  (2 ^ (52 + exponent x) <= Qabs x < 2 ^ (53 + exponent x))%Q.
Proof.
  intros Hx. unfold exponent.
  set (a := Qabs x).
  assert (Ea := Qabs_num_den x). fold a in Ea.
  assert (Hn := Qabs_num_pos x Hx). fold a in Hn.
  set (n := Qnum a) in *. set (d := Zpos (Qden a)) in *.
  assert (Hd : 0 < d) by (unfold d; lia).
  destruct (log2_bounds n Hn) as [Ln Un].
  destruct (log2_bounds d Hd) as [Ld Ud].
  set (la := Z.log2 n) in *. set (ld := Z.log2 d) in *.
  assert (Dq : (0 < inject_Z d)%Q).
  { change 0%Q with (inject_Z 0). now rewrite <- Zlt_Qlt. }
  set (e0 := la - ld - 53).
  assert (P1 := two_pos (52 + e0)). assert (P2 := two_pos (54 + e0)).
  assert (L : (2 ^ (52 + e0) < a)%Q).
  { rewrite Ea. apply Qlt_shift_div_l; [assumption|].
    apply Qlt_le_trans with (2 ^ (52 + e0) * 2 ^ (ld + 1))%Q.
    - apply Qmult_lt_l; assumption.
    - rewrite <- two_plus. replace (52 + e0 + (ld + 1)) with la by (unfold e0; lia).
      assumption. }
  assert (U : (a < 2 ^ (54 + e0))%Q).
  { rewrite Ea. apply Qlt_shift_div_r; [assumption|].
    apply Qlt_le_trans with (2 ^ (la + 1))%Q; [assumption|].
    replace (la + 1) with (54 + e0 + ld) by (unfold e0; lia).
    rewrite two_plus. apply Qmult_le_l; assumption. }
  assert (Pe := two_pos e0).
  destruct (Qle_bool (2 ^ 53) (a / 2 ^ e0)) eqn:B.
  - apply Qle_bool_iff in B.
    assert (B' : (2 ^ 53 * 2 ^ e0 <= a)%Q).
    { apply Qmult_le_r with (z := (2 ^ e0)%Q) in B; [| assumption].
      setoid_replace (a / 2 ^ e0 * 2 ^ e0)%Q with a in B by (field; lra).
      exact B. }
    rewrite <- two_plus in B'.
    replace (52 + (e0 + 1)) with (53 + e0) by lia.
    replace (53 + (e0 + 1)) with (54 + e0) by lia. now split.
  - assert (B' : (a < 2 ^ 53 * 2 ^ e0)%Q).
    { apply Qnot_le_lt. intros C. 
      assert (C' : (2 ^ 53 <= a / 2 ^ e0)%Q).
      { apply Qle_shift_div_l; assumption. }
      apply Qle_bool_iff in C'. congruence. }
    rewrite <- two_plus in B'. split; [lra | assumption].
Qed.

Lemma exponent_unique (x : Q) (e : Z) :
  (2 ^ (52 + e) <= Qabs x < 2 ^ (53 + e))%Q -> exponent x = e.
Proof.
  intros [L U].
  assert (Hx : ~ (x == 0)%Q).
  { intros E. rewrite E in L. assert (P := two_pos (52 + e)).
    change (Qabs 0) with 0%Q in L. lra. }
  destruct (exponent_bounds x Hx) as [L' U'].
  assert (A : 52 + e < 53 + exponent x).
  { apply Qpower_lt_compat_l_inv with (q := 2%Q); [lra | reflexivity]. }
  assert (B : 52 + exponent x < 53 + e).
  { apply Qpower_lt_compat_l_inv with (q := 2%Q); [lra | reflexivity]. }
  lia.
Qed.

Lemma exponent_comp (x y : Q) : (x == y)%Q -> ~ (x == 0)%Q -> exponent x = exponent y.
Proof.
  intros E Hx. symmetry. apply exponent_unique. rewrite <- E.
  now apply exponent_bounds.
Qed.

(** ** Rounding to binary64 *)

Lemma fl_comp (x y : Q) : (x == y)%Q -> fl x = fl y.
Proof. intros E. unfold fl. now rewrite (Qred_complete x y E). Qed.

Lemma fl_zero (x : Q) : (x == 0)%Q -> fl x = 0%Q.
Proof. intros E. rewrite (fl_comp x 0 E). reflexivity. Qed.

Lemma fl_nonzero (x : Q) :
  ~ (x == 0)%Q ->
  (fl x == inject_Z (rne (x / 2 ^ exponent x)) * 2 ^ exponent x)%Q.
Proof.
  intros Hx. unfold fl. cbv zeta.
  assert (R := Qred_correct x).
  destruct (Qeq_bool (Qred x) 0) eqn:B.
  - apply Qeq_bool_iff in B. rewrite R in B. contradiction.
  - rewrite Qred_correct.
    assert (Hr : ~ (Qred x == 0)%Q) by now rewrite R.
    rewrite (exponent_comp (Qred x) x R Hr).
    rewrite (rne_comp (Qred x / 2 ^ exponent x) (x / 2 ^ exponent x)); [reflexivity|].
    now rewrite R.
Qed.

(** The significand of a non-zero number lies in [2^52, 2^53). *)
Lemma significand_bounds (x : Q) :
  ~ (x == 0)%Q ->
  (2 ^ 52 <= Qabs (x / 2 ^ exponent x) < 2 ^ 53)%Q.
Proof.
  intros Hx. destruct (exponent_bounds x Hx) as [L U].
  set (e := exponent x) in *. assert (P := two_pos e).
  unfold Qdiv. rewrite Qabs_Qmult, Qabs_Qinv, (Qabs_pos (2 ^ e)) by lra.
  rewrite two_plus in L, U. split.
  - apply Qle_shift_div_l; assumption.
  - apply Qlt_shift_div_r; assumption.
Qed.

Lemma fl_error (x : Q) :
  (Qabs (fl x - x) <= Qabs x * 2 ^ (-53))%Q.
Proof.
  destruct (Qeq_dec x 0) as [E | Hx].
  - rewrite (fl_zero x E), E. cbn. discriminate.
  - rewrite (fl_nonzero x Hx).
    destruct (exponent_bounds x Hx) as [L _].
    set (e := exponent x) in *. assert (P := two_pos e).
    set (m := (x / 2 ^ e)%Q).
    setoid_replace (inject_Z (rne m) * 2 ^ e - x)%Q
      with ((inject_Z (rne m) - m) * 2 ^ e)%Q by (unfold m; field; lra).
    rewrite Qabs_Qmult, (Qabs_pos (2 ^ e)) by lra.
    assert (R := rne_error m).
    apply Qle_trans with ((1 # 2) * 2 ^ e)%Q.
    + apply Qmult_le_compat_r; [assumption | lra].
    + apply Qle_trans with (2 ^ (52 + e) * 2 ^ (-53))%Q.
      * rewrite <- two_plus. replace (52 + e + -53) with (-1 + e) by lia.
        rewrite two_plus. apply Qmult_le_compat_r; [| lra].
        vm_compute. discriminate.
      * apply Qmult_le_compat_r; [assumption|]. apply Qlt_le_weak, two_pos.
Qed.

(** The rounded value of a positive number keeps its binade. *)
Lemma fl_pos_bounds (x : Q) :
  (0 < x)%Q ->
  (2 ^ (52 + exponent x) <= fl x <= 2 ^ (53 + exponent x))%Q.
Proof.
  intros Hx. assert (N : ~ (x == 0)%Q) by lra.
  rewrite (fl_nonzero x N). destruct (significand_bounds x N) as [L U].
  set (e := exponent x) in *. assert (P := two_pos e).
  assert (M : (0 < x / 2 ^ e)%Q).
  { apply Qlt_shift_div_l; [assumption | lra]. }
  rewrite Qabs_pos in L, U by lra.
  rewrite !two_plus. split.
  - apply Qmult_le_compat_r; [| lra].
    rewrite <- (two_inject 52) by lia. rewrite <- Zle_Qle.
    apply rne_ge. now rewrite two_inject by lia.
  - apply Qmult_le_compat_r; [| lra].
    rewrite <- (two_inject 53) by lia. rewrite <- Zle_Qle.
    apply rne_le. rewrite two_inject by lia. lra.
Qed.

Lemma fl_neg_bounds (x : Q) :
  (x < 0)%Q ->
  (- 2 ^ (53 + exponent x) <= fl x <= - 2 ^ (52 + exponent x))%Q.
Proof.
  intros Hx. assert (N : ~ (x == 0)%Q) by lra.
  rewrite (fl_nonzero x N). destruct (significand_bounds x N) as [L U].
  set (e := exponent x) in *. assert (P := two_pos e).
  assert (M : (x / 2 ^ e < 0)%Q).
  { apply Qlt_shift_div_r; [assumption | lra]. }
  rewrite Qabs_neg in L, U by lra.
  rewrite !two_plus.
  setoid_replace (- (2 ^ 53 * 2 ^ e))%Q with ((- 2 ^ 53) * 2 ^ e)%Q by ring.
  setoid_replace (- (2 ^ 52 * 2 ^ e))%Q with ((- 2 ^ 52) * 2 ^ e)%Q by ring.
  split.
  - apply Qmult_le_compat_r; [| lra].
    rewrite <- (two_inject 53) by lia. rewrite <- inject_Z_opp, <- Zle_Qle.
    apply rne_ge. rewrite inject_Z_opp, two_inject by lia. lra.
  - apply Qmult_le_compat_r; [| lra].
    rewrite <- (two_inject 52) by lia. rewrite <- inject_Z_opp, <- Zle_Qle.
    apply rne_le. rewrite inject_Z_opp, two_inject by lia. lra.
Qed.

Lemma fl_pos (x : Q) : (0 < x)%Q -> (0 < fl x)%Q.
Proof.
  intros H. destruct (fl_pos_bounds x H) as [L _].
  assert (P := two_pos (52 + exponent x)). lra.
Qed.

Lemma fl_neg (x : Q) : (x < 0)%Q -> (fl x < 0)%Q.
Proof.
  intros H. destruct (fl_neg_bounds x H) as [_ U].
  assert (P := two_pos (52 + exponent x)). lra.
Qed.

Lemma exponent_le (x y : Q) :
  ~ (x == 0)%Q -> (Qabs x <= Qabs y)%Q -> exponent x <= exponent y.
Proof.
  intros Hx H.
  assert (Hy : ~ (y == 0)%Q).
  { intros E. rewrite E in H. change (Qabs 0) with 0%Q in H.
    destruct (exponent_bounds x Hx) as [L _].
    assert (P := two_pos (52 + exponent x)). lra. }
  destruct (exponent_bounds x Hx) as [Lx Ux].
  destruct (exponent_bounds y Hy) as [Ly Uy].
  assert (A : 52 + exponent x < 53 + exponent y).
  { apply Qpower_lt_compat_l_inv with (q := 2%Q); [lra | reflexivity]. }
  lia.
Qed.

Lemma fl_mono (x y : Q) : (x <= y)%Q -> (fl x <= fl y)%Q.
Proof.
  intros H.
  destruct (Q_dec x 0) as [[Xn | Xp] | X0]; destruct (Q_dec y 0) as [[Yn | Yp] | Y0].
  - (* both negative *)
    assert (Nx : ~ (x == 0)%Q) by lra. assert (Ny : ~ (y == 0)%Q) by lra.
    assert (E : exponent y <= exponent x).
    { apply exponent_le; [assumption|]. rewrite !Qabs_neg by lra. lra. }
    destruct (Z.eq_dec (exponent y) (exponent x)) as [Eq | Ne].
    + rewrite (fl_nonzero x Nx), (fl_nonzero y Ny), Eq.
      assert (P := two_pos (exponent x)).
      apply Qmult_le_compat_r; [| lra]. rewrite <- Zle_Qle. apply rne_mono.
      apply Qmult_le_compat_r; [assumption|]. apply Qlt_le_weak, Qinv_lt_0_compat, P.
    + destruct (fl_neg_bounds x Xn) as [_ U]. destruct (fl_neg_bounds y Yn) as [L _].
      assert (T := two_le (53 + exponent y) (52 + exponent x) ltac:(lia)). lra.
  - assert (A := fl_neg x Xn). assert (B := fl_pos y Yp). lra.
  - assert (A := fl_neg x Xn). rewrite (fl_zero y Y0). lra.
  - lra.
  - (* both positive *)
    assert (Nx : ~ (x == 0)%Q) by lra. assert (Ny : ~ (y == 0)%Q) by lra.
    assert (E : exponent x <= exponent y).
    { apply exponent_le; [assumption|]. rewrite !Qabs_pos by lra. lra. }
    destruct (Z.eq_dec (exponent x) (exponent y)) as [Eq | Ne].
    + rewrite (fl_nonzero x Nx), (fl_nonzero y Ny), Eq.
      assert (P := two_pos (exponent y)).
      apply Qmult_le_compat_r; [| lra]. rewrite <- Zle_Qle. apply rne_mono.
      apply Qmult_le_compat_r; [assumption|]. apply Qlt_le_weak, Qinv_lt_0_compat, P.
    + destruct (fl_pos_bounds x Xp) as [_ U]. destruct (fl_pos_bounds y Yp) as [L _].
      assert (T := two_le (53 + exponent x) (52 + exponent y) ltac:(lia)). lra.
  - lra.
  - rewrite (fl_zero x X0). assert (A := fl_neg y Yn). lra.
  - rewrite (fl_zero x X0). assert (B := fl_pos y Yp). lra.
  - rewrite (fl_zero x X0), (fl_zero y Y0). lra.
Qed.

Lemma fl_nonneg (x : Q) : (0 <= x)%Q -> (0 <= fl x)%Q.
Proof. intros H. change 0%Q with (fl 0) at 1. now apply fl_mono. Qed.

Lemma fl_nonpos (x : Q) : (x <= 0)%Q -> (fl x <= 0)%Q.
Proof. intros H. change 0%Q with (fl 0). now apply fl_mono. Qed.

(** A number [k * 2^j] with [|k| <= 2^53] is a binary64 number (exponent
    range apart) and is not changed by rounding. *)
Lemma fl_exact (x : Q) (k j : Z) :
  (x == inject_Z k * 2 ^ j)%Q -> Z.abs k <= 2 ^ 53 -> (fl x == x)%Q.
Proof.
  intros E Hk.
  destruct (Qeq_dec x 0) as [X0 | Hx]; [now rewrite (fl_zero x X0), X0|].
  rewrite (fl_nonzero x Hx).
  destruct (significand_bounds x Hx) as [L _].
  set (e := exponent x) in *. assert (P := two_pos e). assert (Pj := two_pos j).
  assert (Em : (x / 2 ^ e == inject_Z k * 2 ^ (j - e))%Q).
  { rewrite E. unfold Z.sub. rewrite two_plus, Qpower_opp. field. lra. }
  assert (Kq : (Qabs (inject_Z k) <= 2 ^ 53)%Q).
  { rewrite <- (two_inject 53) by lia.
    unfold inject_Z at 1. rewrite <- Zabs_Qabs. change (Z.abs k # 1) with (inject_Z (Z.abs k)).
    now rewrite <- Zle_Qle. }
  assert (Pd := two_pos (j - e)).
  rewrite Em, Qabs_Qmult, (Qabs_pos (2 ^ (j - e))) in L by lra.
  assert (Hd : -1 <= j - e).
  { apply Qpower_le_compat_l_inv with (q := 2%Q); [| reflexivity].
    apply Qmult_le_l with (z := (2 ^ 53)%Q); [apply two_pos|].
    apply Qle_trans with (2 ^ 52)%Q; [vm_compute; discriminate|].
    apply Qle_trans with (Qabs (inject_Z k) * 2 ^ (j - e))%Q; [assumption|].
    apply Qmult_le_compat_r; [assumption | lra]. }
  assert (Int : exists n, (x / 2 ^ e == inject_Z n)%Q).
  { destruct (Z.eq_dec (j - e) (-1)) as [D | D].
    - (* then |k| = 2^53 *)
      rewrite D in L.
      assert (K2 : (2 ^ 53 <= Qabs (inject_Z k))%Q).
      { apply Qmult_le_r with (z := (2 ^ (-1))%Q); [apply two_pos|].
        eapply Qle_trans; [| exact L]. vm_compute. discriminate. }
      unfold inject_Z at 1 in K2. rewrite <- Zabs_Qabs in K2.
      change (Z.abs k # 1) with (inject_Z (Z.abs k)) in K2.
      rewrite <- (two_inject 53), <- Zle_Qle in K2 by lia.
      assert (Ak : Z.abs k = 2 ^ 53) by lia.
      exists (k / 2). rewrite Em, D.
      assert (k = 2 * (k / 2)).
      { destruct (Z.abs_eq_or_opp k) as [A | A]; rewrite A in Ak.
        - rewrite Ak. reflexivity.
        - assert (k = - 2 ^ 53) by lia. subst k. reflexivity. }
      rewrite H at 1. rewrite inject_Z_mult.
      change (2 ^ (-1))%Q with (1 # 2)%Q. change (inject_Z 2) with 2%Q. field.
    - exists (k * 2 ^ (j - e)). rewrite Em, inject_Z_mult, two_inject by lia.
      reflexivity. }
  destruct Int as [n En].
  rewrite (rne_comp _ _ En), rne_Z, <- En. field. lra.
Qed.

Lemma fl_Z (n : Z) : Z.abs n <= 2 ^ 53 -> (fl (inject_Z n) == inject_Z n)%Q.
Proof.
  intros H. apply (fl_exact _ n 0); [| assumption].
  change (2 ^ 0)%Q with 1%Q. ring.
Qed.

Lemma fl_pow2 (j : Z) : (fl (2 ^ j) == 2 ^ j)%Q.
Proof.
  apply (fl_exact _ 1 j); [| vm_compute; discriminate].
  change (inject_Z 1) with 1%Q. ring.
Qed.

(** What rounding returns is a binary64 number. *)
Lemma fl_fl (x : Q) : (fl (fl x) == fl x)%Q.
Proof.
  destruct (Qeq_dec x 0) as [X0 | Hx]; [now rewrite (fl_zero x X0)|].
  apply (fl_exact _ (rne (x / 2 ^ exponent x)) (exponent x)).
  - now apply fl_nonzero.
  - destruct (significand_bounds x Hx) as [L U].
    apply Qabs_Qlt_condition in U. destruct U as [U1 U2].
    apply Z.abs_le. split.
    + apply rne_ge. rewrite inject_Z_opp, two_inject by lia. lra.
    + apply rne_le. rewrite two_inject by lia. lra.
Qed.

(** Scaling by a power of two is exact. *)
Lemma fl_scale (x : Q) (j : Z) : (fl (fl x * 2 ^ j) == fl x * 2 ^ j)%Q.
Proof.
  destruct (Qeq_dec x 0) as [X0 | Hx].
  - rewrite (fl_zero x X0). rewrite (fl_zero (0 * 2 ^ j)) by ring. ring.
  - apply (fl_exact _ (rne (x / 2 ^ exponent x)) (exponent x + j)).
    + rewrite (fl_nonzero x Hx), two_plus. ring.
    + destruct (significand_bounds x Hx) as [L U].
      apply Qabs_Qlt_condition in U. destruct U as [U1 U2].
      apply Z.abs_le. split.
      * apply rne_ge. rewrite inject_Z_opp, two_inject by lia. lra.
      * apply rne_le. rewrite two_inject by lia. lra.
Qed.

(** The relative error, as an interval around the exact value. *)
Lemma fl_near (x B : Q) :
  (Qabs x <= B)%Q ->
  (x - B * (1 # 9007199254740992) <= fl x <= x + B * (1 # 9007199254740992))%Q.
Proof.
  intros H. assert (E := fl_error x).
  change (2 ^ (-53))%Q with (1 # 9007199254740992)%Q in E.
  assert (E' : (Qabs (fl x - x) <= B * (1 # 9007199254740992))%Q).
  { eapply Qle_trans; [exact E|]. apply Qmult_le_compat_r; [assumption | discriminate]. }
  apply Qabs_Qle_condition in E'. lra.
Qed.

End Float64Facts.

(** ** Truncation and float division *)

Section GeoQueryProofs.

Local Open Scope res_scope.

Lemma int_comp (x y : Q) : (x == y)%Q -> Py.int x = Py.int y.
Proof.
intros E. unfold Py.int.
destruct (Qle_bool 0 x) eqn:Hx, (Qle_bool 0 y) eqn:Hy.
- now rewrite E.
- apply Qle_bool_iff in Hx. rewrite E in Hx. apply Qle_bool_iff in Hx. congruence.
- apply Qle_bool_iff in Hy. rewrite <- E in Hy. apply Qle_bool_iff in Hy. congruence.
- now rewrite E.
Qed.

Lemma int_nonneg (x : Q) : (0 <= x)%Q -> Py.int x = Qfloor x.
Proof.
intros H. unfold Py.int. apply Qle_bool_iff in H. now rewrite H.
Qed.

Lemma int_lower (x : Q) (n : Z) : 0 <= n -> (inject_Z n <= x)%Q -> n <= Py.int x.
Proof.
intros Hn H.
assert (0 <= x)%Q.
{ apply Qle_trans with (inject_Z n); auto. change 0%Q with (inject_Z 0). now rewrite <- Zle_Qle. }
rewrite int_nonneg by assumption.
rewrite <- (Qfloor_Z n). now apply Qfloor_resp_le.
Qed.

Lemma int_upper (x : Q) (n : Z) : 0 <= n -> (x <= inject_Z n)%Q -> Py.int x <= n.
Proof.
intros Hn H. unfold Py.int.
destruct (Qle_bool 0 x) eqn:Hx.
- rewrite <- (Qfloor_Z n). now apply Qfloor_resp_le.
- assert (x < 0)%Q.
  { apply Qnot_le_lt. intros C. apply Qle_bool_iff in C. congruence. }
  apply Z.le_trans with 0; auto.
  change 0 with (Qceiling 0). apply Qceiling_resp_le. now apply Qlt_le_weak.
Qed.

Lemma int_neg_le (x : Q) : Py.int x < 0 -> (x <= inject_Z (Py.int x))%Q.
Proof.
unfold Py.int. destruct (Qle_bool 0 x) eqn:Hx; intros H.
- apply Qle_bool_iff in Hx. apply Qfloor_resp_le in Hx. change (Qfloor 0) with 0 in Hx. lia.
- apply Qle_ceiling.
Qed.

Lemma int_upper_strict (x : Q) (n : Z) :
0 <= n -> (x < inject_Z (n + 1))%Q -> Py.int x <= n.
Proof.
intros Hn H. unfold Py.int.
destruct (Qle_bool 0 x) eqn:Hx.
- assert (Hf := Qfloor_le x).
  assert (inject_Z (Qfloor x) < inject_Z (n + 1))%Q by (eapply Qle_lt_trans; eauto).
  rewrite <- Zlt_Qlt in H0. lia.
- assert (x < 0)%Q.
  { apply Qnot_le_lt. intros C. apply Qle_bool_iff in C. congruence. }
  apply Z.le_trans with 0; auto.
  change 0 with (Qceiling 0). apply Qceiling_resp_le. now apply Qlt_le_weak.
Qed.

Lemma float_pos (n : Z) : 0 < n -> (0 < Py.float n)%Q.
Proof. intros H. unfold Py.float. change 0%Q with (inject_Z 0). now rewrite <- Zlt_Qlt. Qed.

Lemma float_nonneg (n : Z) : 0 <= n -> (0 <= Py.float n)%Q.
Proof. intros H. unfold Py.float. change 0%Q with (inject_Z 0). now rewrite <- Zle_Qle. Qed.

Lemma float_le (n m : Z) : n <= m -> (Py.float n <= Py.float m)%Q.
Proof. intros H. unfold Py.float. now rewrite <- Zle_Qle. Qed.

Lemma fdiv_pos (a : Q) (n : Z) :
0 < n -> fdiv a (Py.float n) = Ok (a / Py.float n)%Q.
Proof.
intros H. unfold fdiv.
destruct (Qeq_bool (Py.float n) 0) eqn:E; auto.
apply Qeq_bool_eq in E. apply float_pos in H. rewrite E in H. now apply Qlt_irrefl in H.
Qed.

(** Scaling an extent by an in-bounds fraction keeps it inside the extent. *)
Lemma int_scale_fraction (w a b : Z) :
0 <= w -> 0 <= a <= b -> 0 < b ->
0 <= Py.int (Py.float w * (Py.float a / Py.float b))%Q <= w.
Proof.
intros Hw [Ha Hab] Hb.
assert (Fb := float_pos b Hb).
assert (Fw := float_nonneg w Hw).
assert (Fa := float_nonneg a Ha).
assert (Fab := float_le a b Hab).
assert (F0 : (0 <= Py.float a / Py.float b)%Q).
{ apply Qle_shift_div_l; [assumption | lra]. }
assert (F1 : (Py.float a / Py.float b <= 1)%Q).
{ apply Qle_shift_div_r; [assumption | lra]. }
split.
- apply int_lower; [lia|]. change (inject_Z 0) with 0%Q.
  apply Qmult_le_0_compat; auto.
- apply int_upper; auto. change (inject_Z w) with (Py.float w).
  rewrite Qmult_comm.
  setoid_replace (Py.float w) with (1 * Py.float w)%Q at 2 by ring.
  apply Qmult_le_compat_r; assumption.
Qed.

Lemma geo_query_by_axis ds ulx uly lrx lry querysize :
geo_query ds ulx uly lrx lry querysize =
(let geotran := GetGeoTransform ds in
 qx <- fdiv (ulx - gt0 geotran)%Q (gt1 geotran) ;;
 qy <- fdiv (uly - gt3 geotran)%Q (gt5 geotran) ;;
 sx <- fdiv (lrx - ulx)%Q (gt1 geotran) ;;
 sy <- fdiv (lry - uly)%Q (gt5 geotran) ;;
 let rx := Py.int (qx + (1 # 1000))%Q in
 let ry := Py.int (qy + (1 # 1000))%Q in
 let rxsize := Py.int (sx + (1 # 2))%Q in
 let rysize := Py.int (sy + (1 # 2))%Q in
 '(rx, rxsize, wx, wxsize) <-
   clip_axis rx rxsize (if querysize =? 0 then rxsize else querysize)
             (RasterXSize ds) ;;
 '(ry, rysize, wy, wysize) <-
   clip_axis ry rysize (if querysize =? 0 then rysize else querysize)
             (RasterYSize ds) ;;
 Ok ((rx, ry, rxsize, rysize), (wx, wy, wxsize, wysize))).
Proof.
unfold geo_query, clip_axis. cbv zeta.
repeat match goal with
       | |- context [fdiv ?a ?b] => destruct (fdiv a b); cbn [res_bind]; try reflexivity
       | |- context [if ?c then _ else _] => destruct c; cbn [res_bind]; try reflexivity
       end.
Qed.

Lemma clip_axis_spec (u l : Q) (W q : Z) :
0 < W -> (u <= inject_Z W)%Q -> (0 <= l)%Q -> 0 < q ->
exists r rsize w wsize,
  clip_axis (Py.int (u + (1 # 1000))%Q) (Py.int (l - u + (1 # 2))%Q) q W
    = Ok (r, rsize, w, wsize) /\
  0 <= r /\ r + rsize <= W /\ 0 <= w /\ w + wsize <= q.
Proof.
intros HW Hu Hl Hq. unfold clip_axis. cbv zeta.
set (r0 := Py.int (u + (1 # 1000))%Q).
set (s0 := Py.int (l - u + (1 # 2))%Q).
destruct (r0 <? 0) eqn:Hr; [apply Z.ltb_lt in Hr | apply Z.ltb_ge in Hr].
- (* the query starts left of (above) the raster *)
  assert (Hs : - r0 <= s0).
  { apply int_lower; [lia|]. apply int_neg_le in Hr. fold r0 in Hr.
    rewrite inject_Z_opp. lra. }
  rewrite !fdiv_pos by lia. cbn [res_bind].
  assert (Hw := int_scale_fraction q (Z.abs r0) s0 ltac:(lia) ltac:(lia) ltac:(lia)).
  set (w1 := Py.int (Py.float q * (Py.float (Z.abs r0) / Py.float s0))%Q) in *.
  set (s1 := s0 - Py.int (Py.float s0 * (Py.float (Z.abs r0) / Py.float s0))%Q).
  destruct (0 + s1 >? W) eqn:Hc; [apply Z.gtb_lt in Hc | rewrite Z.gtb_ltb in Hc; apply Z.ltb_ge in Hc].
  + rewrite fdiv_pos by lia. cbn [res_bind].
    assert (Hw2 := int_scale_fraction (q - w1) (W - 0) s1 ltac:(lia) ltac:(lia) ltac:(lia)).
    do 4 eexists. split; [reflexivity|]. lia.
  + cbn [res_bind]. do 4 eexists. split; [reflexivity|]. lia.
- assert (HrW : r0 <= W).
  { apply int_upper_strict; [lia|]. rewrite inject_Z_plus. change (inject_Z 1) with 1%Q. lra. }
  cbn [res_bind].
  destruct (r0 + s0 >? W) eqn:Hc; [apply Z.gtb_lt in Hc | rewrite Z.gtb_ltb in Hc; apply Z.ltb_ge in Hc].
  + rewrite fdiv_pos by lia. cbn [res_bind].
    assert (Hw2 := int_scale_fraction q (W - r0) s0 ltac:(lia) ltac:(lia) ltac:(lia)).
    do 4 eexists. split; [reflexivity|]. lia.
  + cbn [res_bind]. do 4 eexists. split; [reflexivity|]. lia.
Qed.

Lemma fdiv_nonzero (a b : Q) : ~ (b == 0)%Q -> fdiv a b = Ok (a / b)%Q.
Proof.
intros H. unfold fdiv. destruct (Qeq_bool b 0) eqn:E; auto.
apply Qeq_bool_eq in E. contradiction.
Qed.

Lemma Qdiv_le_upper (a b : Q) (n : Z) :
(0 < b)%Q -> (a <= inject_Z n * b)%Q -> (a / b <= inject_Z n)%Q.
Proof. intros Hb H. apply Qle_shift_div_r; assumption. Qed.

Lemma Qdiv_nonneg (a b : Q) : (0 < b)%Q -> (0 <= a)%Q -> (0 <= a / b)%Q.
Proof. intros Hb H. apply Qle_shift_div_l; [assumption | lra]. Qed.

Lemma Qdiv_opp_opp (a b : Q) : ~ (b == 0)%Q -> (a / b == (- a) / (- b))%Q.
Proof. intros H. field. lra. Qed.

(** C2. On a raster of width W and height H whose geotransform has a
    positive pixel width and a negative pixel height, a query rectangle that
    meets the raster and a query size Q > 0 make [geo_query] return (no
    exception is raised), and the returned windows satisfy
    0 <= rx, rx + rxsize <= W, 0 <= ry, ry + rysize <= H,
    0 <= wx, wx + wxsize <= Q, 0 <= wy and wy + wysize <= Q.  The rotation
    terms of the geotransform are not read by [geo_query]. *)
Theorem geo_query_windows_in_bounds
      (ds : Dataset) (ulx uly lrx lry : Q) (querysize : Z) :
(0 < gt1 (GetGeoTransform ds))%Q ->
(gt5 (GetGeoTransform ds) < 0)%Q ->
0 < RasterXSize ds -> 0 < RasterYSize ds ->
intersects ds ulx uly lrx lry ->
0 < querysize ->
exists rw, geo_query ds ulx uly lrx lry querysize = Ok rw /\
           windows_in_bounds ds querysize rw.
Proof.
intros Hpx Hpy HW HH (Hx1 & Hx2 & Hy1 & Hy2) Hq.
rewrite geo_query_by_axis. cbv zeta.
set (g := GetGeoTransform ds) in *.
assert (Npx : ~ (gt1 g == 0)%Q) by lra.
assert (Npy : ~ (gt5 g == 0)%Q) by lra.
rewrite !fdiv_nonzero by assumption. cbn [res_bind].
replace (querysize =? 0) with false by (symmetry; apply Z.eqb_neq; lia).
set (ux := ((ulx - gt0 g) / gt1 g)%Q).
set (lx := ((lrx - gt0 g) / gt1 g)%Q).
set (uy := ((uly - gt3 g) / gt5 g)%Q).
set (ly := ((lry - gt3 g) / gt5 g)%Q).
rewrite (int_comp ((lrx - ulx) / gt1 g + (1 # 2)) (lx - ux + (1 # 2)))
  by (unfold lx, ux; field; assumption).
rewrite (int_comp ((lry - uly) / gt5 g + (1 # 2)) (ly - uy + (1 # 2)))
  by (unfold ly, uy; field; assumption).
assert (Hux : (ux <= inject_Z (RasterXSize ds))%Q).
{ apply Qdiv_le_upper; [assumption | lra]. }
assert (Hlx : (0 <= lx)%Q).
{ apply Qdiv_nonneg; [assumption | lra]. }
assert (Huy : (uy <= inject_Z (RasterYSize ds))%Q).
{ unfold uy. rewrite Qdiv_opp_opp by assumption.
  apply Qdiv_le_upper; [lra | lra]. }
assert (Hly : (0 <= ly)%Q).
{ unfold ly. rewrite Qdiv_opp_opp by assumption.
  apply Qdiv_nonneg; lra. }
destruct (clip_axis_spec ux lx (RasterXSize ds) querysize HW Hux Hlx Hq)
  as (rx & rxsize & wx & wxsize & Ex & Bx).
destruct (clip_axis_spec uy ly (RasterYSize ds) querysize HH Huy Hly Hq)
  as (ry & rysize & wy & wysize & Ey & By).
rewrite Ex. cbn [res_bind]. rewrite Ey. cbn [res_bind].
eexists. split; [reflexivity|].
unfold windows_in_bounds. tauto.
Qed.

End GeoQueryProofs.

(** ** Quadrant placement in the overview canvas *)

Section Quadrants.

Lemma even_child_mod (t : Z) : 0 < t -> (2 * t) mod (2 * t) = 0.
Proof. intros H. apply Z.mod_same. lia. Qed.

Lemma odd_child_mod (t : Z) : 0 < t -> (2 * t + 1) mod (2 * t) = 1.
Proof.
  intros H. replace (2 * t + 1) with (1 + 1 * (2 * t)) by lia.
  rewrite Z.mod_add by lia. apply Z.mod_small. lia.
Qed.

Lemma tileposy_cond_simple (ty cy : Z) :
  0 <= ty -> cy = 2 * ty \/ cy = 2 * ty + 1 ->
  tileposy_cond ty cy = (cy - 2 * ty =? 1).
Proof.
  intros Hty Hcy. unfold tileposy_cond.
  destruct (Z.eq_dec ty 0) as [-> | Hnz].
  - destruct Hcy as [-> | ->]; reflexivity.
  - assert (Hpos : 0 < ty) by lia.
    replace (ty =? 0) with false by (symmetry; apply Z.eqb_neq; lia).
    destruct Hcy as [-> | ->].
    + rewrite even_child_mod by assumption.
      replace (2 * ty - 2 * ty) with 0 by lia. reflexivity.
    + rewrite odd_child_mod by assumption.
      replace (2 * ty + 1 - 2 * ty) with 1 by lia. reflexivity.
Qed.

Lemma tileposx_cond_simple (tx cx : Z) :
  0 <= tx -> cx = 2 * tx \/ cx = 2 * tx + 1 ->
  tileposx_cond tx cx = (cx - 2 * tx =? 1).
Proof.
  intros Htx Hcx. unfold tileposx_cond.
  destruct (Z.eq_dec tx 0) as [-> | Hnz].
  - destruct Hcx as [-> | ->]; reflexivity.
  - assert (Hpos : 0 < tx) by lia.
    replace (tx =? 0) with false by (symmetry; apply Z.eqb_neq; lia).
    destruct Hcx as [-> | ->].
    + rewrite even_child_mod by assumption.
      replace (2 * tx - 2 * tx) with 0 by lia. reflexivity.
    + rewrite odd_child_mod by assumption.
      replace (2 * tx + 1 - 2 * tx) with 1 by lia. reflexivity.
Qed.

Lemma tileposx_by_cond (tilesize tx cx : Z) :
  0 <= tx -> cx = 2 * tx \/ cx = 2 * tx + 1 ->
  tileposx tilesize tx cx = if tileposx_cond tx cx then tilesize else 0.
Proof.
  intros Htx Hcx. unfold tileposx, tileposx_cond.
  destruct (Z.eq_dec tx 0) as [-> | Hnz].
  - destruct Hcx as [-> | ->]; reflexivity.
  - assert (Hpos : 0 < tx) by lia.
    replace (tx =? 0) with false by (symmetry; apply Z.eqb_neq; lia).
    cbn [negb andb orb].
    destruct Hcx as [-> | ->].
    + rewrite even_child_mod by assumption. reflexivity.
    + rewrite odd_child_mod by assumption. cbn. destruct tilesize; reflexivity.
Qed.

(** C7. For a parent tile [(tx, ty)] with non-negative indices and a child
    [(cx, cy)] among its four children, the conditions by which the code
    selects the Y offset 0 and the X offset 256 are the conditions
    [cy - 2*ty = 1] and [cx - 2*tx = 1] of the simpler rule, and the offsets
    the code computes are those of the simpler rule. *)
Theorem quadrant_selection_equiv_simple_rule (tx ty cx cy : Z) :
  0 <= tx -> 0 <= ty ->
  cx = 2 * tx \/ cx = 2 * tx + 1 ->
  cy = 2 * ty \/ cy = 2 * ty + 1 ->
  tileposy_cond ty cy = (cy - 2 * ty =? 1) /\
  tileposx_cond tx cx = (cx - 2 * tx =? 1) /\
  (tileposy 256 ty cy = 0 <-> cy - 2 * ty = 1) /\
  (tileposx 256 tx cx = 256 <-> cx - 2 * tx = 1) /\
  tileposy 256 ty cy = tileposy_simple 256 ty cy /\
  tileposx 256 tx cx = tileposx_simple 256 tx cx.
Proof.
  intros Htx Hty Hcx Hcy.
  assert (Ey := tileposy_cond_simple ty cy Hty Hcy).
  assert (Ex := tileposx_cond_simple tx cx Htx Hcx).
  assert (Px := tileposx_by_cond 256 tx cx Htx Hcx).
  unfold tileposy_simple, tileposx_simple.
  rewrite Px. unfold tileposy. rewrite Ex, Ey.
  repeat split; try reflexivity.
  - destruct (cy - 2 * ty =? 1) eqn:E; [intros _; now apply Z.eqb_eq | discriminate].
  - intros H. apply Z.eqb_eq in H. now rewrite H.
  - destruct (cx - 2 * tx =? 1) eqn:E; [intros _; now apply Z.eqb_eq | discriminate].
  - intros H. apply Z.eqb_eq in H. now rewrite H.
Qed.

Lemma quadrant_selection_equiv_simple_rule_witness :
  (0 <= 0 /\ 0 <= 3 /\ (1 = 2 * 0 \/ 1 = 2 * 0 + 1) /\ (7 = 2 * 3 \/ 7 = 2 * 3 + 1)) /\
  (tileposy_cond 3 7 = (7 - 2 * 3 =? 1) /\
   tileposx_cond 0 1 = (1 - 2 * 0 =? 1) /\
   (tileposy 256 3 7 = 0 <-> 7 - 2 * 3 = 1) /\
   (tileposx 256 0 1 = 256 <-> 1 - 2 * 0 = 1) /\
   tileposy 256 3 7 = tileposy_simple 256 3 7 /\
   tileposx 256 0 1 = tileposx_simple 256 0 1).
Proof.
  split.
  - repeat split; try lia; right; reflexivity.
  - apply (quadrant_selection_equiv_simple_rule 0 3 1 7);
      [lia | lia | right; reflexivity | right; reflexivity].
Defined.

End Quadrants.

(** ** The canonical enumeration and the round-robin partition *)

Section RoundRobin.

Lemma in_py_range (a b x : Z) : In x (Py.range a b) <-> a <= x < b.
Proof.
  unfold Py.range. rewrite in_map_iff. split.
  - intros (k & <- & Hk). apply in_seq in Hk. lia.
  - intros H. exists (Z.to_nat (x - a)). split; [lia|]. apply in_seq. lia.
Qed.

Lemma in_py_range_down (a b y : Z) : In y (Py.range_down a b) <-> b < y <= a.
Proof.
  unfold Py.range_down. rewrite in_map_iff. split.
  - intros (k & <- & Hk). apply in_seq in Hk. lia.
  - intros H. exists (Z.to_nat (a - y)). split; [lia|]. apply in_seq. lia.
Qed.

Lemma NoDup_map_of_nat (f : nat -> Z) (l : list nat) :
  (forall j k, f j = f k -> j = k) -> NoDup l -> NoDup (map f l).
Proof.
  intros Hinj Hl. induction Hl as [| k l Hk Hl IH]; cbn; constructor; auto.
  rewrite in_map_iff. intros (j & E & Hj). apply Hinj in E. now subst.
Qed.

Lemma NoDup_py_range (a b : Z) : NoDup (Py.range a b).
Proof.
  apply NoDup_map_of_nat; [intros; lia | apply seq_NoDup].
Qed.

Lemma NoDup_py_range_down (a b : Z) : NoDup (Py.range_down a b).
Proof.
  apply NoDup_map_of_nat; [intros; lia | apply seq_NoDup].
Qed.

Lemma in_tile_order (r : TileRange) (x y : Z) :
  In (x, y) (tile_order r) <-> in_range r x y = true.
Proof.
  destruct r as [[[tminx tminy] tmaxx] tmaxy]. unfold tile_order, in_range.
  rewrite in_flat_map. split.
  - intros (ty & Hty & Hx). apply in_map_iff in Hx as (tx & E & Htx).
    inversion E; subst. apply in_py_range_down in Hty. apply in_py_range in Htx.
    rewrite !andb_true_iff, !Z.leb_le. lia.
  - rewrite !andb_true_iff, !Z.leb_le. intros H. exists y. split.
    + apply in_py_range_down. lia.
    + apply in_map_iff. exists x. split; [reflexivity|]. apply in_py_range. lia.
Qed.

Lemma NoDup_rows (xs ys : list Z) :
  NoDup xs -> NoDup ys ->
  NoDup (flat_map (fun ty => map (fun tx => (tx, ty)) xs) ys).
Proof.
  intros Hxs Hys. induction Hys as [| ty ys Hty Hys IH]; cbn; [constructor|].
  apply NoDup_app; auto.
  - clear IH. induction Hxs as [| tx xs Htx Hxs IHx]; cbn; constructor; auto.
    rewrite in_map_iff. intros (x' & E & Hx'). inversion E; subst. contradiction.
  - intros [x y] Hrow Hrest. apply in_map_iff in Hrow as (tx & E & _).
    inversion E; subst. apply in_flat_map in Hrest as (ty' & Hty' & Hin).
    apply in_map_iff in Hin as (tx' & E' & _). inversion E'; subst. contradiction.
Qed.

Lemma NoDup_tile_order (r : TileRange) : NoDup (tile_order r).
Proof.
  destruct r as [[[tminx tminy] tmaxx] tmaxy]. unfold tile_order.
  apply NoDup_rows; [apply NoDup_py_range | apply NoDup_py_range_down].
Qed.

Lemma claimed_incl (N cpu : Z) (l : list (Z * Z)) :
  forall ti t, In t (claimed N cpu ti l) -> In t l.
Proof.
  induction l as [| a l IH]; cbn; intros ti t H; [assumption|].
  destruct (negb ((ti + 1 - 1) mod N =? cpu)).
  - right. eapply IH; eassumption.
  - destruct H as [-> | H]; [now left | right; eapply IH; eassumption].
Qed.

(** A tile that occurs once in the enumeration is claimed once by the worker
    whose id is the residue of its position, and by no other worker. *)
Lemma claimed_exactly_once (N : Z) (t : Z * Z) (l : list (Z * Z)) :
  1 <= N ->
  forall ti, count_occ tile_eq_dec l t = 1%nat ->
  exists w, 0 <= w < N /\
            count_occ tile_eq_dec (claimed N w ti l) t = 1%nat /\
            forall w', w' <> w -> ~ In t (claimed N w' ti l).
Proof.
  intros HN. induction l as [| a l IH]; intros ti Hc; [discriminate|].
  cbn [claimed]. replace (ti + 1 - 1) with ti by lia.
  destruct (tile_eq_dec a t) as [-> | Hne].
  - rewrite count_occ_cons_eq in Hc by reflexivity.
    assert (Hnot : ~ In t l).
    { rewrite (count_occ_not_In tile_eq_dec). lia. }
    exists (ti mod N). split; [apply Z.mod_pos_bound; lia | split].
    + rewrite Z.eqb_refl. cbn [negb].
      rewrite count_occ_cons_eq by reflexivity. f_equal.
      apply (count_occ_not_In tile_eq_dec). intros H. apply Hnot.
      eapply claimed_incl; eassumption.
    + intros w' Hw'.
      replace (ti mod N =? w') with false by (symmetry; apply Z.eqb_neq; lia).
      cbn [negb]. intros H. apply Hnot. eapply claimed_incl; eassumption.
  - rewrite count_occ_cons_neq in Hc by assumption.
    destruct (IH (ti + 1) Hc) as (w & Hw & Hone & Hothers).
    exists w. split; [assumption | split].
    + destruct (negb (ti mod N =? w)); [assumption|].
      now rewrite count_occ_cons_neq by assumption.
    + intros w' Hw' H. apply (Hothers w' Hw').
      destruct (negb (ti mod N =? w')); [assumption|].
      destruct H as [E | H]; [contradiction | assumption].
Qed.

(** C3. For a tile range and a worker count [N >= 1], the canonical
    enumeration with the filter [(i - 1) mod N = worker_id] partitions the
    range: every tile of the range is claimed exactly once by exactly one
    worker id in [0, N) (so the workers' sets are pairwise disjoint and cover
    the range), and no worker claims a tile outside the range. *)
Theorem round_robin_partitions_range (r : TileRange) (N : Z) :
  1 <= N ->
  (forall tx ty, in_range r tx ty = true ->
     exists w, 0 <= w < N /\
               count_occ tile_eq_dec (worker_tiles N w r) (tx, ty) = 1%nat /\
               forall w', w' <> w -> ~ In (tx, ty) (worker_tiles N w' r)) /\
  (forall w tx ty, In (tx, ty) (worker_tiles N w r) -> in_range r tx ty = true).
Proof.
  intros HN. split.
  - intros tx ty Hin. unfold worker_tiles.
    apply claimed_exactly_once; [assumption|].
    apply NoDup_count_occ'; [apply NoDup_tile_order | now apply in_tile_order].
  - intros w tx ty H. apply in_tile_order.
    eapply claimed_incl. exact H.
Qed.

Lemma round_robin_partitions_range_witness :
  1 <= 3 /\
  ((forall tx ty, in_range (2, 5, 4, 6) tx ty = true ->
      exists w, 0 <= w < 3 /\
                count_occ tile_eq_dec (worker_tiles 3 w (2, 5, 4, 6)) (tx, ty) = 1%nat /\
                forall w', w' <> w -> ~ In (tx, ty) (worker_tiles 3 w' (2, 5, 4, 6))) /\
   (forall w tx ty, In (tx, ty) (worker_tiles 3 w (2, 5, 4, 6)) ->
                    in_range (2, 5, 4, 6) tx ty = true)).
Proof.
  split; [lia | apply (round_robin_partitions_range (2, 5, 4, 6) 3); lia].
Defined.

(** The enumeration and the three workers' shares on a 3 x 2 range. *)
Example tile_order_3x2 :
  tile_order (2, 5, 4, 6) = [(2, 6); (3, 6); (4, 6); (2, 5); (3, 5); (4, 5)] /\
  worker_tiles 3 0 (2, 5, 4, 6) = [(2, 6); (2, 5)] /\
  worker_tiles 3 1 (2, 5, 4, 6) = [(3, 6); (3, 5)] /\
  worker_tiles 3 2 (2, 5, 4, 6) = [(4, 6); (4, 5)].
Proof. repeat split. Qed.

End RoundRobin.

(** ** The query-to-tile mapper on a concrete raster *)

Section GeoQueryExamples.

(** A query that overhangs the upper-left corner of the raster. *)
Example geo_query_upper_left :
  geo_query raster_1000x800 (-100) 100 300 (-300) 1024
  = Ok ((0, 0, 301, 301), (253, 253, 771, 771)).
Proof. vm_compute. reflexivity. Qed.

(** Without the intersection hypothesis the invariants fail: a query to the
    right of the raster yields a negative read size. *)
Example geo_query_outside :
  geo_query raster_1000x800 2000 (-700) 2300 (-1100) 1024
  = Ok ((2000, 700, -1000, 100), (0, 0, -3413, 256)).
Proof. vm_compute. reflexivity. Qed.

Lemma geo_query_windows_in_bounds_witness :
  ((0 < gt1 (GetGeoTransform raster_1000x800))%Q /\
   (gt5 (GetGeoTransform raster_1000x800) < 0)%Q /\
   0 < RasterXSize raster_1000x800 /\ 0 < RasterYSize raster_1000x800 /\
   intersects raster_1000x800 (-100) 100 300 (-300) /\
   0 < 1024) /\
  exists rw, geo_query raster_1000x800 (-100) 100 300 (-300) 1024 = Ok rw /\
             windows_in_bounds raster_1000x800 1024 rw.
Proof.
  assert (Hi : intersects raster_1000x800 (-100) 100 300 (-300)).
  { unfold intersects; cbn; unfold Qle; cbn; lia. }
  split.
  - split; [reflexivity | split; [reflexivity | split; [reflexivity |
      split; [reflexivity | split; [exact Hi | reflexivity]]]]].
  - apply (geo_query_windows_in_bounds raster_1000x800 (-100) 100 300 (-300) 1024);
      try reflexivity; exact Hi.
Defined.

End GeoQueryExamples.

(** ** GlobalMercator: resolutions and corner round trips *)

Section Mercator.

Import GlobalMercator.

Lemma initialResolution_pos : (0 < initialResolution)%Q.
Proof. reflexivity. Qed.

Lemma pow2_pos (z : Z) : 0 <= z -> (0 < inject_Z (2 ^ z))%Q.
Proof.
  intros H. change 0%Q with (inject_Z 0). rewrite <- Zlt_Qlt.
  apply Z.pow_pos_nonneg; lia.
Qed.

Lemma Resolution_pos (zoom : Z) : 0 <= zoom -> (0 < Resolution zoom)%Q.
Proof.
  intros H. unfold Resolution. apply Qlt_shift_div_l.
  - now apply pow2_pos.
  - rewrite Qmult_0_l. exact initialResolution_pos.
Qed.

(** The two constants of the projection are tied by
    [originShift = 128 * initialResolution], rounding included. *)
Lemma originShift_initialResolution : (originShift == 128 * initialResolution)%Q.
Proof. vm_compute. reflexivity. Qed.

Lemma originShift_pos : (0 < originShift)%Q.
Proof. reflexivity. Qed.

(** The width of the world, [256 * 2^zoom] pixels, in meters. *)
Lemma world_meters (zoom : Z) :
  0 <= zoom ->
  (inject_Z (256 * 2 ^ zoom) * Resolution zoom == 2 * originShift)%Q.
Proof.
  intros Hz. assert (P := pow2_pos zoom Hz).
  rewrite originShift_initialResolution. unfold Resolution.
  rewrite inject_Z_mult. change (inject_Z 256) with 256%Q. field. lra.
Qed.

Lemma div_between (x r lo hi : Q) :
  (0 < r)%Q -> (lo * r <= x <= hi * r)%Q -> (lo <= x / r <= hi)%Q.
Proof.
  intros Hr [L U]. split.
  - apply Qle_shift_div_l; assumption.
  - apply Qle_shift_div_r; assumption.
Qed.

(** [PixelsToMeters] on one coordinate of the pyramid: the exact value up
    to two roundings. *)
Lemma pixels_to_meters_near (zoom : Z) (p : Q) :
  0 <= zoom -> (0 <= p <= inject_Z (256 * 2 ^ zoom))%Q ->
  let m := Float64.fl (Float64.fl (p * Resolution zoom) - originShift) in
  let d := (2 * originShift * (2 # 9007199254740992))%Q in
  (p * Resolution zoom - originShift - d <= m
   <= p * Resolution zoom - originShift + d)%Q.
Proof.
  intros Hz [Hp0 Hp1]. cbv zeta.
  assert (Hr := Resolution_pos zoom Hz). assert (Ho := originShift_pos).
  assert (Hw := world_meters zoom Hz).
  set (r := Resolution zoom) in *. set (W := (2 * originShift)%Q) in *.
  set (q := (p * r)%Q).
  assert (Q0 : (0 <= q)%Q) by (unfold q; apply Qmult_le_0_compat; lra).
  assert (Q1 : (q <= W)%Q).
  { rewrite <- Hw. unfold q. apply Qmult_le_compat_r; lra. }
  assert (A1 := fl_near q W).
  assert (Hq : (Qabs q <= W)%Q) by (apply Qabs_Qle_condition; lra).
  specialize (A1 Hq).
  set (a1 := Float64.fl q) in *.
  assert (A2 := fl_near (a1 - originShift) W).
  assert (H2 : (Qabs (a1 - originShift) <= W)%Q).
  { apply Qabs_Qle_condition. unfold W in *. lra. }
  specialize (A2 H2). unfold W in *. lra.
Qed.

(** [MetersToPixels] on one coordinate, for a point of the world or near
    it: the exact value up to two roundings. *)
Lemma meters_to_pixels_near (zoom : Z) (m : Q) :
  0 <= zoom -> (- (2 * originShift) <= m <= 2 * originShift)%Q ->
  let px := Float64.fl (Float64.fl (m + originShift) / Resolution zoom) in
  let d := (inject_Z (256 * 2 ^ zoom) * (4 # 9007199254740992))%Q in
  ((m + originShift) / Resolution zoom - d <= px
   <= (m + originShift) / Resolution zoom + d)%Q.
Proof.
  intros Hz [Hm0 Hm1]. cbv zeta.
  assert (Hr := Resolution_pos zoom Hz). assert (Ho := originShift_pos).
  assert (Hw := world_meters zoom Hz).
  set (r := Resolution zoom) in *.
  set (P := inject_Z (256 * 2 ^ zoom)) in *.
  assert (HP : (0 < P)%Q).
  { unfold P. change 0%Q with (inject_Z 0). rewrite <- Zlt_Qlt.
    assert (0 < 2 ^ zoom) by (apply Z.pow_pos_nonneg; lia). lia. }
  set (x := (m + originShift)%Q).
  assert (A := fl_near x (P * r * 2)).
  assert (Hx : (Qabs x <= P * r * 2)%Q).
  { apply Qabs_Qle_condition. unfold x. lra. }
  specialize (A Hx). set (a := Float64.fl x) in *.
  (* the quotients *)
  assert (Dx : (- (P * (3 # 2)) <= x / r <= P * (3 # 2))%Q).
  { apply div_between; [assumption|]. unfold x.
    setoid_replace (- (P * (3 # 2)) * r)%Q with (- (P * r * (3 # 2)))%Q by ring.
    setoid_replace (P * (3 # 2) * r)%Q with (P * r * (3 # 2))%Q by ring. lra. }
  assert (Da : (x / r - P * (2 # 9007199254740992) <= a / r
                <= x / r + P * (2 # 9007199254740992))%Q).
  { assert (E : (a / r - x / r == (a - x) / r)%Q) by (field; lra).
    assert (B : (- (P * (2 # 9007199254740992)) <= (a - x) / r
                 <= P * (2 # 9007199254740992))%Q).
    { apply div_between; [assumption|].
      setoid_replace (- (P * (2 # 9007199254740992)) * r)%Q
        with (- (P * r * 2 * (1 # 9007199254740992)))%Q by ring.
      setoid_replace (P * (2 # 9007199254740992) * r)%Q
        with (P * r * 2 * (1 # 9007199254740992))%Q by ring. lra. }
    lra. }
  assert (B := fl_near (a / r) (P * 2)).
  assert (Hy : (Qabs (a / r) <= P * 2)%Q) by (apply Qabs_Qle_condition; lra).
  specialize (B Hy). lra.
Qed.

(** A pixel coordinate of the pyramid comes back from the round trip
    through meters within [6 * 2^-53] of the width of the pyramid. *)
Lemma pixel_roundtrip_near (zoom : Z) (p : Q) :
  0 <= zoom -> (0 <= p <= inject_Z (256 * 2 ^ zoom))%Q ->
  let m := Float64.fl (Float64.fl (p * Resolution zoom) - originShift) in
  let px := Float64.fl (Float64.fl (m + originShift) / Resolution zoom) in
  let d := (inject_Z (256 * 2 ^ zoom) * (6 # 9007199254740992))%Q in
  (p - d <= px <= p + d)%Q.
Proof.
  intros Hz Hp. cbv zeta.
  assert (Hr := Resolution_pos zoom Hz). assert (Ho := originShift_pos).
  assert (Hw := world_meters zoom Hz).
  assert (A := pixels_to_meters_near zoom p Hz Hp). cbv zeta in A.
  set (m := Float64.fl (Float64.fl (p * Resolution zoom) - originShift)) in *.
  set (r := Resolution zoom) in *.
  set (P := inject_Z (256 * 2 ^ zoom)) in *.
  assert (Q0 : (0 <= p * r)%Q) by (apply Qmult_le_0_compat; lra).
  assert (Q1 : (p * r <= 2 * originShift)%Q).
  { rewrite <- Hw. apply Qmult_le_compat_r; lra. }
  assert (Hm : (- (2 * originShift) <= m <= 2 * originShift)%Q) by lra.
  assert (B := meters_to_pixels_near zoom m Hz Hm). cbv zeta in B.
  fold r P in B.
  set (px := Float64.fl (Float64.fl (m + originShift) / r)) in *.
  assert (D : (p - P * (2 # 9007199254740992) <= (m + originShift) / r
               <= p + P * (2 # 9007199254740992))%Q).
  { apply div_between; [assumption|].
    setoid_replace ((p - P * (2 # 9007199254740992)) * r)%Q
      with (p * r - P * r * (2 # 9007199254740992))%Q by ring.
    setoid_replace ((p + P * (2 # 9007199254740992)) * r)%Q
      with (p * r + P * r * (2 # 9007199254740992))%Q by ring.
    rewrite Hw. lra. }
  lra.
Qed.

(** Below zoom 32 that is less than a thousandth of a pixel. *)
Lemma pyramid_width_small (zoom : Z) :
  0 <= zoom < MAXZOOMLEVEL ->
  (0 < inject_Z (256 * 2 ^ zoom) * (6 # 9007199254740992) < 1 # 1000)%Q.
Proof.
  unfold MAXZOOMLEVEL. intros Hz.
  assert (L : 0 < 2 ^ zoom) by (apply Z.pow_pos_nonneg; lia).
  assert (U : 2 ^ zoom <= 2 ^ 31) by (apply Z.pow_le_mono_r; lia).
  assert (Lq : (inject_Z 0 < inject_Z (256 * 2 ^ zoom))%Q) by (rewrite <- Zlt_Qlt; lia).
  assert (Uq : (inject_Z (256 * 2 ^ zoom) <= inject_Z (256 * 2 ^ 31))%Q)
    by (rewrite <- Zle_Qle; lia).
  change (inject_Z 0) with 0%Q in Lq.
  change (inject_Z (256 * 2 ^ 31)) with 549755813888%Q in Uq. lra.
Qed.

Lemma ceil_near (x : Q) (t : Z) :
  (inject_Z t - 1 < x <= inject_Z t + 1)%Q ->
  Py.ceil x = t \/ Py.ceil x = t + 1.
Proof.
  intros [L U]. unfold Py.ceil.
  assert (C1 := Qle_ceiling x). assert (C2 := Qceiling_lt x).
  assert (A : (inject_Z (t - 1) < inject_Z (Qceiling x))%Q).
  { unfold Z.sub. rewrite inject_Z_plus, inject_Z_opp.
    change (inject_Z 1) with 1%Q. lra. }
  assert (B : (inject_Z (Qceiling x - 1) < inject_Z (t + 1))%Q).
  { rewrite inject_Z_plus. change (inject_Z 1) with 1%Q. lra. }
  rewrite <- Zlt_Qlt in A, B. lia.
Qed.

(** The tile of the pixel that comes back for the tile boundary
    [256 * t]: the tile below the boundary or the tile above it. *)
Lemma boundary_tile (zoom t : Z) :
  0 <= zoom < MAXZOOMLEVEL -> 0 <= t <= 2 ^ zoom ->
  let m := Float64.fl (Float64.fl (inject_Z (t * tileSize) * Resolution zoom)
                       - originShift) in
  let px := Float64.fl (Float64.fl (m + originShift) / Resolution zoom) in
  Py.ceil (px / Py.float tileSize) - 1 = t - 1 \/
  Py.ceil (px / Py.float tileSize) - 1 = t.
Proof.
  intros Hz Ht. cbv zeta.
  assert (Hp : (0 <= inject_Z (t * tileSize) <= inject_Z (256 * 2 ^ zoom))%Q).
  { unfold tileSize. change 0%Q with (inject_Z 0). rewrite <- !Zle_Qle. lia. }
  assert (N := pixel_roundtrip_near zoom _ (proj1 Hz) Hp). cbv zeta in N.
  assert (S := pyramid_width_small zoom Hz).
  set (px := Float64.fl _) in *.
  destruct (ceil_near (px / Py.float tileSize) t) as [-> | ->]; [| lia | lia].
  unfold Py.float, tileSize in *. rewrite inject_Z_mult in N.
  change (inject_Z 256) with 256%Q in *.
  split.
  - apply Qlt_shift_div_l; [reflexivity | lra].
  - apply Qle_shift_div_r; [reflexivity | lra].
Qed.

(** C4, as amended.  For every in-range Mercator tile [(z, tx, ty)] below
    zoom 32, the minimum corner of [TileBounds(tx, ty, z)], converted with
    [MetersToPixels] and [PixelsToTile], gives in each coordinate the tile
    itself or its lower neighbour, and the maximum corner gives the tile
    itself or its upper neighbour.  [PixelsToTile] computes
    [ceil(p / 256) - 1], which assigns a boundary pixel to the tile below
    it, and the conversions round, so that the pixel of a corner comes back
    on the boundary or next to it on either side. *)
Theorem tile_bounds_corner_roundtrip (zoom tx ty : Z) :
  tile_in_range zoom tx ty = true -> zoom < MAXZOOMLEVEL ->
  (let '(x, y) := min_corner_tile tx ty zoom in
   (x = tx - 1 \/ x = tx) /\ (y = ty - 1 \/ y = ty)) /\
  (let '(x, y) := max_corner_tile tx ty zoom in
   (x = tx \/ x = tx + 1) /\ (y = ty \/ y = ty + 1)).
Proof.
  unfold tile_in_range. rewrite !andb_true_iff, !Z.leb_le, !Z.ltb_lt.
  intros [[[[Hz Hx0] Hx1] Hy0] Hy1] Hmax.
  assert (Z1 : 0 <= zoom < MAXZOOMLEVEL) by lia.
  unfold min_corner_tile, max_corner_tile, TileBounds, PixelsToMeters,
    MetersToPixels, PixelsToTile.
  cbv zeta. cbv beta iota.
  split; split.
  - apply (boundary_tile zoom tx Z1). lia.
  - apply (boundary_tile zoom ty Z1). lia.
  - assert (B := boundary_tile zoom (tx + 1) Z1 ltac:(lia)). cbv zeta in B.
    replace (tx + 1 - 1) with tx in B by lia. exact B.
  - assert (B := boundary_tile zoom (ty + 1) Z1 ltac:(lia)). cbv zeta in B.
    replace (ty + 1 - 1) with ty in B by lia. exact B.
Qed.

Lemma tile_bounds_corner_roundtrip_witness :
  tile_in_range 4 3 2 = true /\ 4 < MAXZOOMLEVEL /\
  (let '(x, y) := min_corner_tile 3 2 4 in
   (x = 3 - 1 \/ x = 3) /\ (y = 2 - 1 \/ y = 2)) /\
  (let '(x, y) := max_corner_tile 3 2 4 in
   (x = 3 \/ x = 3 + 1) /\ (y = 2 \/ y = 2 + 1)).
Proof.
  split; [reflexivity | split; [reflexivity |]].
  apply (tile_bounds_corner_roundtrip 4 3 2); reflexivity.
Defined.

(** Both outcomes occur.  At zoom 4 the minimum corner of the tile (3, 2)
    comes back as the pixel (768, 512.00000000000011), in the tile (2, 2);
    at zoom 3 the maximum corner of the tile (0, 0) comes back above the
    boundary in both coordinates, in the tile (1, 1). *)
Example corner_roundtrip_rounding :
  min_corner_tile 3 2 4 = (2, 2) /\ max_corner_tile 0 0 3 = (1, 1).
Proof. split; vm_compute; reflexivity. Qed.

(** C4, as stated, fails at the tile (0, 0) of zoom 0: the tile is in range
    and its minimum corner maps to (-1, -1), not to (0, 0). *)
Lemma min_corner_roundtrip_counterexample :
  tile_in_range 0 0 0 = true /\
  min_corner_tile 0 0 0 = (-1, -1) /\
  min_corner_tile 0 0 0 <> (0, 0).
Proof.
  split; [reflexivity | split; [vm_compute; reflexivity | vm_compute; discriminate]].
Qed.

End Mercator.

(** ** GlobalMercator.ZoomForPixelSize *)

Section ZoomForPixelSize.

Import GlobalMercator.

Lemma py_range_cons (a b : Z) : a < b -> Py.range a b = a :: Py.range (a + 1) b.
Proof.
  intros H. unfold Py.range.
  replace (Z.to_nat (b - a)) with (S (Z.to_nat (b - (a + 1)))) by lia.
  cbn [seq map]. f_equal; [lia|].
  rewrite <- seq_shift, map_map. apply map_ext. intros k. lia.
Qed.

Lemma py_range_nil (a : Z) : Py.range a a = [].
Proof. unfold Py.range. now rewrite Z.sub_diag. Qed.

Lemma py_gt_true (x y : Q) : Py.gt x y = true <-> (y < x)%Q.
Proof.
  unfold Py.gt. rewrite negb_true_iff. split.
  - intros H. apply Qnot_le_lt. intros C. apply Qle_bool_iff in C. congruence.
  - intros H. destruct (Qle_bool x y) eqn:E; [|reflexivity].
    apply Qle_bool_iff in E. lra.
Qed.

Lemma py_gt_false (x y : Q) : Py.gt x y = false <-> (x <= y)%Q.
Proof.
  unfold Py.gt. rewrite negb_false_iff. apply Qle_bool_iff.
Qed.

(** Resolutions decrease with the zoom. *)
Lemma Resolution_antitone (a b : Z) :
  0 <= a <= b -> (Resolution b <= Resolution a)%Q.
Proof.
  intros [Ha Hab]. unfold Resolution.
  assert (Pa := pow2_pos a Ha).
  assert (Pd := pow2_pos (b - a) ltac:(lia)).
  assert (Pb := pow2_pos b ltac:(lia)).
  assert (D1 : (1 <= inject_Z (2 ^ (b - a)))%Q).
  { change 1%Q with (inject_Z 1). rewrite <- Zle_Qle.
    assert (0 < 2 ^ (b - a)) by (apply Z.pow_pos_nonneg; lia). lia. }
  assert (E : (inject_Z (2 ^ b) == inject_Z (2 ^ a) * inject_Z (2 ^ (b - a)))%Q).
  { rewrite <- inject_Z_mult, <- Z.pow_add_r by lia.
    now replace (a + (b - a)) with b by lia. }
  apply Qle_shift_div_r; [assumption|].
  rewrite E.
  setoid_replace (initialResolution / inject_Z (2 ^ a) *
                  (inject_Z (2 ^ a) * inject_Z (2 ^ (b - a))))%Q
    with (initialResolution * inject_Z (2 ^ (b - a)))%Q by (field; lra).
  assert (I := initialResolution_pos).
  setoid_replace initialResolution with (initialResolution * 1)%Q at 1 by ring.
  apply Qmult_le_l; assumption.
Qed.

(** The loop over [range(k, k + n)], entered knowing that no earlier
    resolution is below the pixel size. *)
Lemma ZoomForPixelSize_loop_spec (p : Q) (n : nat) :
  forall k, 0 <= k ->
    (forall j, 0 <= j < k -> (p <= Resolution j)%Q) ->
    match ZoomForPixelSize_loop p (Py.range k (k + Z.of_nat n)) with
    | Some z =>
        (k = 0 /\ z = 0 /\ (Resolution 0 < p)%Q) \/
        (0 <= z /\ k - 1 <= z < k + Z.of_nat n - 1 /\
         (p <= Resolution z)%Q /\ (Resolution (z + 1) < p)%Q)
    | None => forall j, 0 <= j < k + Z.of_nat n -> (p <= Resolution j)%Q
    end.
Proof.
  induction n as [| n IH]; intros k Hk Hinv.
  - rewrite Z.add_0_r, py_range_nil. cbn. intros j Hj. apply Hinv. lia.
  - rewrite py_range_cons by lia. cbn [ZoomForPixelSize_loop].
    destruct (Py.gt p (Resolution k)) eqn:G.
    + apply py_gt_true in G.
      destruct (Z.eqb_spec k 0) as [-> | Hk0]; cbn [negb].
      * left. auto.
      * right. replace (k - 1 + 1) with k by lia.
        repeat split; try lia; [apply Hinv; lia | assumption].
    + apply py_gt_false in G.
      replace (k + Z.of_nat (S n)) with (k + 1 + Z.of_nat n) by lia.
      specialize (IH (k + 1) ltac:(lia)).
      assert (Hinv' : forall j, 0 <= j < k + 1 -> (p <= Resolution j)%Q).
      { intros j Hj. destruct (Z.eq_dec j k) as [-> | Hne]; [assumption|].
        apply Hinv. lia. }
      specialize (IH Hinv').
      destruct (ZoomForPixelSize_loop p (Py.range (k + 1) (k + 1 + Z.of_nat n)))
        as [z |]; [| assumption].
      destruct IH as [(Hk1 & _) | (Hz & Hr & Hle & Hlt)]; [lia|].
      right. repeat split; try lia; assumption.
Qed.

(** C5, as amended.  For every pixel size [p] above [Resolution(31)],
    [ZoomForPixelSize(p)] returns a zoom in [0, 30].  When
    [p <= Resolution(0)] it is the largest zoom [z] of [0, 31] with
    [Resolution(z) >= p], so the default [tmaxz] satisfies
    [Resolution(tmaxz) >= p > Resolution(tmaxz + 1)]; when [p] exceeds
    [Resolution(0)] the result is clamped to 0, and there
    [Resolution(0) < p]. *)
Theorem ZoomForPixelSize_largest_zoom (p : Q) :
  (Resolution 31 < p)%Q ->
  exists z,
    ZoomForPixelSize p = Some z /\
    open_input_tmaxz None (mkGeoTransform 0 p 0 0 0 (- p)) = Some z /\
    0 <= z <= 30 /\
    ((p <= Resolution 0)%Q ->
       (p <= Resolution z)%Q /\ (Resolution (z + 1) < p)%Q /\
       forall z', 0 <= z' <= 31 -> (p <= Resolution z')%Q -> z' <= z) /\
    ((Resolution 0 < p)%Q -> z = 0).
Proof.
  intros Hp.
  assert (S := ZoomForPixelSize_loop_spec p 32 0 ltac:(lia) ltac:(intros; lia)).
  change (0 + Z.of_nat 32) with MAXZOOMLEVEL in S.
  unfold open_input_tmaxz, ZoomForPixelSize. cbn [gt1].
  destruct (ZoomForPixelSize_loop p (Py.range 0 MAXZOOMLEVEL)) as [z |].
  - exists z. split; [reflexivity | split; [reflexivity |]].
    destruct S as [(_ & -> & H0) | (Hz & Hr & Hle & Hlt)].
    + split; [lia | split; [intros C; lra | reflexivity]].
    + unfold MAXZOOMLEVEL in Hr. split; [lia | split].
      * intros _. split; [assumption | split; [assumption |]].
        intros z' Hz' Hle'.
        destruct (Z_le_gt_dec z' z) as [|Hgt]; [assumption | exfalso].
        assert (M := Resolution_antitone (z + 1) z' ltac:(lia)). lra.
      * intros H0. assert (M := Resolution_antitone 0 z ltac:(lia)). lra.
  - exfalso. specialize (S 31 ltac:(unfold MAXZOOMLEVEL; lia)). lra.
Qed.

Lemma ZoomForPixelSize_largest_zoom_witness :
  (Resolution 31 < 10)%Q /\
  exists z,
    ZoomForPixelSize 10 = Some z /\
    open_input_tmaxz None (mkGeoTransform 0 10 0 0 0 (- 10)) = Some z /\
    0 <= z <= 30 /\
    ((10 <= Resolution 0)%Q ->
       (10 <= Resolution z)%Q /\ (Resolution (z + 1) < 10)%Q /\
       forall z', 0 <= z' <= 31 -> (10 <= Resolution z')%Q -> z' <= z) /\
    ((Resolution 0 < 10)%Q -> z = 0).
Proof.
  split; [reflexivity | apply (ZoomForPixelSize_largest_zoom 10); reflexivity].
Defined.

(** A 10 m pixel gives zoom 13. *)
Example ZoomForPixelSize_10m : ZoomForPixelSize 10 = Some 13.
Proof. vm_compute. reflexivity. Qed.

(** C5, as stated, fails for a pixel size above [Resolution(0)]: the result
    is clamped to 0, and [Resolution(0) >= p] does not hold for the default
    [tmaxz]. *)
Lemma ZoomForPixelSize_counterexample :
  (0 < 2 * Resolution 0)%Q /\
  ZoomForPixelSize (2 * Resolution 0) = Some 0 /\
  open_input_tmaxz None (mkGeoTransform 0 (2 * Resolution 0) 0 0 0 0) = Some 0 /\
  ~ (2 * Resolution 0 <= Resolution 0)%Q.
Proof.
  split; [reflexivity | split; [vm_compute; reflexivity | split]].
  - vm_compute. reflexivity.
  - intros C. vm_compute in C. apply C. reflexivity.
Qed.

(** Below the finest resolution the loop ends without a [return]: the
    result is [None], not a zoom. *)
Example ZoomForPixelSize_falls_through :
  ZoomForPixelSize (Resolution 31) = None.
Proof. vm_compute. reflexivity. Qed.

End ZoomForPixelSize.

(** ** Frame reasoning for computations *)

Section Preserves.

Variable R : world -> world -> Prop.
Hypothesis R_refl : forall w, R w w.
Hypothesis R_trans : forall a b c, R a b -> R b c -> R a c.

Lemma preserves_ret {A : Type} (a : A) : preserves R (ret a).
Proof. intros w. apply R_refl. Qed.

Lemma preserves_raise {A : Type} (e : exn) : preserves R (@raise A e).
Proof. intros w. apply R_refl. Qed.

Lemma preserves_lift {A : Type} (r : res A) : preserves R (lift r).
Proof. intros w. apply R_refl. Qed.

Lemma preserves_gets {A : Type} (f : world -> A) : preserves R (gets f).
Proof. intros w. apply R_refl. Qed.

Lemma preserves_bind {A B : Type} (m : M A) (k : A -> M B) :
  preserves R m -> (forall a, preserves R (k a)) -> preserves R (bind m k).
Proof.
  intros Hm Hk w. unfold bind. specialize (Hm w).
  destruct (m w) as [[a | e] w']; cbn in *.
  - eapply R_trans; [exact Hm | apply Hk].
  - exact Hm.
Qed.

Lemma preserves_for_each {A : Type} (l : list A) (body : A -> M unit) :
  (forall a, preserves R (body a)) -> preserves R (for_each l body).
Proof.
  intros Hb. induction l as [| a l IH]; cbn [for_each].
  - apply preserves_ret.
  - apply preserves_bind; auto.
Qed.

Lemma preserves_for_fold {A S : Type} (l : list A) (body : S -> A -> M S) :
  (forall s a, preserves R (body s a)) ->
  forall s, preserves R (for_fold l s body).
Proof.
  intros Hb. induction l as [| a l IH]; intros s; cbn [for_fold].
  - apply preserves_ret.
  - apply preserves_bind; auto.
Qed.

Lemma preserves_run_process (m : M unit) :
  preserves R m -> preserves R (run_process m).
Proof. intros H w. apply H. Qed.

Lemma preserves_path_exists (p : path) : preserves R (path_exists p).
Proof. apply preserves_gets. Qed.

Lemma preserves_file_read (p : path) : preserves R (file_read p).
Proof. apply preserves_gets. Qed.

Lemma preserves_sql_select_tile (z x y : Z) : preserves R (sql_select_tile z x y).
Proof.
  intros w. unfold sql_select_tile. destruct (negb (schema w)); apply R_refl.
Qed.

End Preserves.

(** One step of a frame proof: split a bind, close a leaf, or branch. *)
Ltac preserves_step :=
  match goal with
  | |- preserves _ (bind _ _) => apply preserves_bind; [assumption .. | | intros]
  | |- preserves _ (ret _) => apply preserves_ret; assumption
  | |- preserves _ (raise _) => apply preserves_raise; assumption
  | |- preserves _ (lift _) => apply preserves_lift; assumption
  | |- preserves _ (gets _) => apply preserves_gets; assumption
  | |- preserves _ (path_exists _) => apply preserves_path_exists; assumption
  | |- preserves _ (file_read _) => apply preserves_file_read; assumption
  | |- preserves _ (sql_select_tile _ _ _) =>
      apply preserves_sql_select_tile; assumption
  | |- preserves _ (for_each _ _) =>
      apply preserves_for_each; [assumption .. | intros]
  | |- preserves _ (for_fold _ _ _) =>
      apply preserves_for_fold; [assumption .. | intros]
  | |- preserves _ (run_process _) =>
      apply preserves_run_process
  | |- preserves _ (if ?c then _ else _) => destruct c
  | |- preserves _ (match ?x with _ => _ end) => destruct x
  end.

(** ** The archive is untouched under antialias resampling *)

Section Antialias.

Lemma same_archive_refl (w : world) : same_archive w w.
Proof. repeat split. Qed.

Lemma same_archive_trans (a b c : world) :
  same_archive a b -> same_archive b c -> same_archive a c.
Proof.
  unfold same_archive. intros (H1 & H2 & H3 & H4 & H5 & H6) (K1 & K2 & K3 & K4 & K5 & K6).
  repeat split; congruence.
Qed.

Lemma same_archive_file_write (p : path) (c : content) :
  preserves same_archive (file_write p c).
Proof. intros w. repeat split. Qed.

Lemma same_archive_scale_query_to_tile self dsquery dstile p :
  preserves same_archive (scale_query_to_tile self dsquery dstile p).
Proof.
  assert (Hr := same_archive_refl). assert (Ht := same_archive_trans).
  unfold scale_query_to_tile.
  destruct (opt_resampling (options self));
    repeat first [apply same_archive_file_write | preserves_step].
Qed.


Lemma same_archive_paint_child self tz tx ty dsquery c :
  preserves same_archive (paint_child self tz tx ty dsquery c).
Proof.
  assert (Hr := same_archive_refl). assert (Ht := same_archive_trans).
  unfold paint_child. destruct c as [x y].
  repeat preserves_step.
Qed.




End Antialias.

(** ** C10: antialias resampling and the tiles table *)

Section AntialiasRun.

Lemma log_grows_refl (P : event -> Prop) (w : world) : log_grows P w w.
Proof. exists []. split; [now rewrite app_nil_r | constructor]. Qed.

Lemma log_grows_trans (P : event -> Prop) (a b c : world) :
  log_grows P a b -> log_grows P b c -> log_grows P a c.
Proof.
  intros (l1 & E1 & F1) (l2 & E2 & F2). exists (l1 ++ l2). split.
  - now rewrite E2, E1, app_assoc.
  - apply Forall_app. now split.
Qed.

Lemma log_grows_one (P : event -> Prop) (e : event) (w w' : world) :
  P e -> log w' = log w ++ [e] -> log_grows P w w'.
Proof. intros He E. exists [e]. split; [assumption | now constructor]. Qed.

Lemma log_grows_same (P : event -> Prop) (w w' : world) :
  log w' = log w -> log_grows P w w'.
Proof. intros E. exists []. split; [now rewrite app_nil_r | constructor]. Qed.

Lemma same_tiles_refl (w : world) : same_tiles w w.
Proof. split; [reflexivity | apply log_grows_refl]. Qed.

Lemma same_tiles_trans (a b c : world) :
  same_tiles a b -> same_tiles b c -> same_tiles a c.
Proof.
  intros [T1 L1] [T2 L2]. split; [congruence | eapply log_grows_trans; eassumption].
Qed.



Lemma same_tiles_file_write p c : preserves same_tiles (file_write p c).
Proof. intros w. split; [reflexivity | now apply log_grows_same]. Qed.

Lemma same_tiles_sql_insert_metadata n v : preserves same_tiles (sql_insert_metadata n v).
Proof.
  intros w. unfold sql_insert_metadata.
  destruct (negb (schema w)); [apply same_tiles_refl|].
  destruct (name_index w && _); [apply same_tiles_refl|].
  split; [reflexivity | eapply log_grows_one; [| reflexivity]]. cbn. tauto.
Qed.

Lemma same_tiles_mbtiles_setup : preserves same_tiles mbtiles_setup.
Proof.
  intros w. unfold mbtiles_setup. destruct (schema w); [apply same_tiles_refl|].
  split; [reflexivity | eapply log_grows_one; [| reflexivity]]. cbn. tauto.
Qed.

Lemma same_tiles_create_index : preserves same_tiles create_index.
Proof.
  apply preserves_bind; [apply same_tiles_trans | | intros _].
  - intros w. unfold create_index_name.
    destruct (negb (schema w) || name_index w); [apply same_tiles_refl|].
    destruct (negb _); [apply same_tiles_refl|].
    split; [reflexivity | eapply log_grows_one; [| reflexivity]]. cbn. tauto.
  - intros w. unfold create_index_tiles.
    destruct (negb (schema w) || tile_index w); [apply same_tiles_refl|].
    destruct (negb _); [apply same_tiles_refl|].
    split; [reflexivity | eapply log_grows_one; [| reflexivity]]. cbn. tauto.
Qed.

Lemma same_tiles_generate_metadata self : preserves same_tiles (generate_metadata self).
Proof.
  assert (Hr := same_tiles_refl). assert (Ht := same_tiles_trans).
  unfold generate_metadata, write_viewer, unless_resumed.
  repeat first [apply same_tiles_file_write | apply same_tiles_sql_insert_metadata
               | preserves_step].
Qed.






(** The sample run with [-r antialias]: the base phase saves four tile
    files and the table stays empty. *)
Example antialias_sample_run :
  let w := snd (main (sample_self antialias xyz false) fresh_world) in
  tiles w = [] /\
  map fst (files w) =
    [ TileFile "world.mbtiles" 1 1 1 "png"; TileFile "world.mbtiles" 1 1 0 "png";
      TileFile "world.mbtiles" 1 0 1 "png"; TileFile "world.mbtiles" 1 0 0 "png";
      OutputDirFile "tilemapresource.xml"; OutputDirFile "metadata.json";
      OutputDirFile "index.html"; OutputDirFile "leaflet.html";
      OutputDirFile "openlayers.html"; OutputDirFile "googlemaps.html" ]%string.
Proof. vm_compute. split; reflexivity. Qed.

End AntialiasRun.

(** ** C1: the row index that is stored *)

Section StoredRow.

(** C1 at a failing input.  The sample run with the output convention
    'xyz' stores, for the tile [tx = 0, ty = 1] of zoom 1, the row
    [(1, 0, 1)]: the TMS row [ty], where C1 asks for [(2^1 - 1) - 1 = 0].
    The rows are the same as those of the run with 'tms'; the XYZ row
    [ty_final] only names the tile file. *)
Theorem xyz_run_stores_tms_rows :
  map tile_key (tiles (snd (main (sample_self average xyz false) fresh_world)))
    = [(1, 0, 1); (1, 0, 0); (1, 1, 1); (1, 1, 0); (0, 0, 0)] /\
  map tile_key (tiles (snd (main (sample_self average tms false) fresh_world)))
    = [(1, 0, 1); (1, 0, 0); (1, 1, 1); (1, 1, 0); (0, 0, 0)] /\
  ty_final (sample_self average xyz false) 1 1 = 0 /\
  tilefilename (sample_self average xyz false) 1 0 1
    = TileFile "world.mbtiles" 1 0 0 "png".
Proof. vm_compute. repeat split. Qed.

End StoredRow.

(** ** C8: a child of the range without a row *)

Section MissingChild.

(** Whatever the object and the archive: a child position inside the range
    of zoom [tz + 1] for which the table has no row makes the child loop
    raise, on [blob_tile[0]]. *)
Lemma paint_child_missing_row self tz tx ty dsquery x y r w :
  schema w = true ->
  list_get (tminmax self) (tz + 1) = Ok r ->
  in_range r x y = true ->
  find (row_matches (tz + 1) x y) (tiles w) = None ->
  paint_child self tz tx ty dsquery (x, y) w = (Raise TypeError, w).
Proof.
  intros Hs Hr Hin Hf. unfold paint_child, bind, lift. rewrite Hr.
  destruct r as [[[minx miny] maxx] maxy]. unfold in_range in Hin.
  rewrite !andb_true_iff, !Z.leb_le in Hin.
  replace ((x >=? minx) && (x <=? maxx) && (y >=? miny) && (y <=? maxy)) with true.
  - unfold sql_select_tile. rewrite Hs, Hf. reflexivity.
  - symmetry. rewrite !andb_true_iff, !Z.geb_le, !Z.leb_le. lia.
Qed.

(** C8 at a failing input.  In the sample archive in which only worker 0 of
    the base phase has written its tiles, the child (1, 0) of the overview
    tile (0, 0, 0) is inside the range of zoom 1 and has no row: the tile
    computation raises [TypeError], no quadrant is left transparent and no
    row for the parent is written. *)
Theorem overview_tile_missing_child_raises :
  let s := sample_self near tms false in
  let w := sample_archive_worker0_only in
  map tile_key (tiles w) = [(1, 0, 1); (1, 0, 0)] /\
  (exists r, list_get (tminmax s) 1 = Ok r /\ in_range r 1 0 = true) /\
  sql_select_tile 1 1 0 w = (Ok None, w) /\
  overview_tile s 0 (0, 0) w = (Raise TypeError, w) /\
  find (row_matches 0 0 0) (tiles (snd (overview_tile s 0 (0, 0) w))) = None.
Proof.
  vm_compute. repeat split. eexists. split; reflexivity.
Qed.

End MissingChild.

(** ** C6: the metadata rows *)

Section MetadataRows.

Local Open Scope string_scope.

Lemma same_metadata_refl (w : world) : same_metadata w w.
Proof. split; [reflexivity | apply log_grows_refl]. Qed.

Lemma same_metadata_trans (a b c : world) :
  same_metadata a b -> same_metadata b c -> same_metadata a c.
Proof.
  intros [M1 L1] [M2 L2]. split; [congruence | eapply log_grows_trans; eassumption].
Qed.

Lemma same_metadata_file_write p c : preserves same_metadata (file_write p c).
Proof. intros w. split; [reflexivity | now apply log_grows_same]. Qed.

Lemma same_metadata_sql_insert_tile z x y d :
  preserves same_metadata (sql_insert_tile z x y d).
Proof.
  intros w. unfold sql_insert_tile.
  destruct (negb (schema w)); [apply same_metadata_refl|].
  destruct (tile_index w && _); [apply same_metadata_refl|].
  split; [reflexivity | eapply log_grows_one; [| reflexivity]]. cbn. tauto.
Qed.

Lemma same_metadata_create_index : preserves same_metadata create_index.
Proof.
  apply preserves_bind; [apply same_metadata_trans | | intros _].
  - intros w. unfold create_index_name.
    destruct (negb (schema w) || name_index w); [apply same_metadata_refl|].
    destruct (negb _); [apply same_metadata_refl|].
    split; [reflexivity | eapply log_grows_one; [| reflexivity]]. cbn. tauto.
  - intros w. unfold create_index_tiles.
    destruct (negb (schema w) || tile_index w); [apply same_metadata_refl|].
    destruct (negb _); [apply same_metadata_refl|].
    split; [reflexivity | eapply log_grows_one; [| reflexivity]]. cbn. tauto.
Qed.

Lemma same_metadata_generate_base_tiles self cpu :
  preserves same_metadata (generate_base_tiles self cpu).
Proof.
  assert (Hr := same_metadata_refl). assert (Ht := same_metadata_trans).
  unfold generate_base_tiles, base_tile, scale_query_to_tile.
  repeat first [apply same_metadata_file_write | apply same_metadata_sql_insert_tile
               | preserves_step].
Qed.

Lemma same_metadata_generate_overview_tiles self cpu tz :
  preserves same_metadata (generate_overview_tiles self cpu tz).
Proof.
  assert (Hr := same_metadata_refl). assert (Ht := same_metadata_trans).
  unfold generate_overview_tiles, overview_tile, paint_child, scale_query_to_tile.
  repeat first [apply same_metadata_file_write | apply same_metadata_sql_insert_tile
               | preserves_step].
Qed.

(** What [main] does once the metadata worker has been joined. *)
Lemma main_after_metadata self w :
  exists rest : M unit,
    main self w = rest (snd (worker_metadata self w)) /\
    preserves same_metadata rest.
Proof.
  assert (Hr := same_metadata_refl). assert (Ht := same_metadata_trans).
  unfold main.
  match goal with
  | |- context [bind (run_process ?m) ?k] => exists (k tt)
  end.
  split; [reflexivity|].
  unfold worker_base_tiles, worker_overview_tiles.
  repeat first [apply same_metadata_generate_base_tiles
               | apply same_metadata_generate_overview_tiles
               | apply same_metadata_create_index
               | preserves_step].
  intros w'. split; [reflexivity | eapply log_grows_one; [| reflexivity]]. cbn. tauto.
Qed.

(** The metadata worker on a new archive, for the Mercator profile with the
    web viewer 'all' or 'metadata' and without [--resume]. *)
Lemma worker_metadata_new_archive self w :
  opt_profile (options self) = mercator ->
  webviewer_in (opt_webviewer (options self)) wv_all wv_metadata = true ->
  opt_resume (options self) = false ->
  new_archive w ->
  let w1 := snd (worker_metadata self w) in
  log w1 = (log w ++ EvCreateTables ::
              map (fun nv => EvInsertMetadata (fst nv) (snd nv))
                  (generate_metadatajson self))%list /\
  metadata w1 = generate_metadatajson self /\
  tiles w1 = [] /\ schema w1 = true /\
  name_index w1 = false /\ tile_index w1 = false.
Proof.
  intros Hp Hv Hres (Hs & Hti & Hm & Hni & Htx).
  destruct self as [o out ts qs drv ext mnz mxz tmm ds dbc nz tsz [[[so we] no] ea]].
  destruct o as [pr rs zm res pc vb kml wv ttl cp oc].
  destruct w as [sc tl md ni tix fl lg].
  cbn in Hp, Hv, Hres, Hs, Hti, Hm, Hni, Htx. subst.
  destruct wv; try discriminate Hv; destruct kml; cbn;
    rewrite <- ?app_assoc; cbn; repeat split; reflexivity.
Qed.

(** C6, as amended.  For every run of the Mercator profile with the web
    viewer 'all' or 'metadata' and without [--resume], on a new archive:
    before any tile row is written the run creates the tables and inserts
    one metadata row for each of the keys name, description, version,
    attribution, type (value 'overlay'), format, minzoom, maxzoom, bounds
    (value 's w n e'), scale (value '1') and profile (value 'mercator'), and
    it inserts no other metadata row afterwards. *)
Theorem metadata_rows_before_tiles (self : GDAL2Mbtiles) (w : world) :
  opt_profile (options self) = mercator ->
  webviewer_in (opt_webviewer (options self)) wv_all wv_metadata = true ->
  opt_resume (options self) = false ->
  new_archive w ->
  exists rest,
    log (snd (main self w))
      = (log w ++ EvCreateTables ::
           map (fun nv => EvInsertMetadata (fst nv) (snd nv))
               (generate_metadatajson self) ++ rest)%list /\
    Forall (fun e => ~ is_metadata_insert e) rest /\
    metadata (snd (main self w)) = generate_metadatajson self /\
    map fst (generate_metadatajson self)
      = ["name"; "description"; "version"; "attribution"; "type"; "format";
         "minzoom"; "maxzoom"; "bounds"; "scale"; "profile"] /\
    In ("type", VStr "overlay") (generate_metadatajson self) /\
    In ("scale", VStr "1") (generate_metadatajson self) /\
    In ("profile", VStr "mercator") (generate_metadatajson self) /\
    (let '(south, west, north, east) := swne_str self in
     In ("bounds", VStr (south ++ " " ++ west ++ " " ++ north ++ " " ++ east))
        (generate_metadatajson self)).
Proof.
  intros Hp Hv Hres Hnew.
  destruct (worker_metadata_new_archive self w Hp Hv Hres Hnew)
    as (Hlog & Hmeta & _).
  destruct (main_after_metadata self w) as (rest & Hmain & Hrest).
  destruct (Hrest (snd (worker_metadata self w))) as (Hm' & l & Hl & Hall).
  exists l. rewrite Hmain.
  split; [| split; [assumption | split; [congruence |]]].
  - rewrite Hl, Hlog. rewrite <- app_assoc. reflexivity.
  - unfold generate_metadatajson. destruct (swne_str self) as [[[so we] no] ea].
    cbn. intuition.
Qed.

Lemma metadata_rows_before_tiles_witness :
  (opt_profile (options (sample_self average xyz false)) = mercator /\
   webviewer_in (opt_webviewer (options (sample_self average xyz false)))
                wv_all wv_metadata = true /\
   opt_resume (options (sample_self average xyz false)) = false /\
   new_archive fresh_world) /\
  exists rest,
    log (snd (main (sample_self average xyz false) fresh_world))
      = (log fresh_world ++ EvCreateTables ::
           map (fun nv => EvInsertMetadata (fst nv) (snd nv))
               (generate_metadatajson (sample_self average xyz false)) ++ rest)%list /\
    Forall (fun e => ~ is_metadata_insert e) rest.
Proof.
  assert (Hnew : new_archive fresh_world) by (repeat split).
  split.
  - split; [reflexivity | split; [reflexivity | split; [reflexivity | exact Hnew]]].
  - destruct (metadata_rows_before_tiles (sample_self average xyz false) fresh_world
                eq_refl eq_refl eq_refl Hnew) as (rest & Hlog & Hall & _).
    exists rest. split; assumption.
Defined.

(** C6, as stated, fails: the sample run of the geodetic profile and the
    sample Mercator run with the web viewer 'none' write their tile rows
    and insert no metadata row at all. *)
Lemma metadata_rows_counterexample :
  log (snd (main sample_geodetic fresh_world))
    = [EvCreateTables; EvInsertTile 1 0 1; EvInsertTile 1 2 1;
       EvInsertTile 1 0 0; EvInsertTile 1 2 0; EvInsertTile 1 1 1;
       EvInsertTile 1 3 1; EvInsertTile 1 1 0; EvInsertTile 1 3 0;
       EvInsertTile 0 0 0; EvInsertTile 0 1 0; EvCreateIndexName;
       EvCreateIndexTiles; EvJournalDelete] /\
  metadata (snd (main sample_geodetic fresh_world)) = [] /\
  log (snd (main (sample_self_viewer wv_none) fresh_world))
    = [EvCreateTables; EvInsertTile 1 0 1; EvInsertTile 1 0 0;
       EvInsertTile 1 1 1; EvInsertTile 1 1 0; EvInsertTile 0 0 0;
       EvCreateIndexName; EvCreateIndexTiles; EvJournalDelete] /\
  metadata (snd (main (sample_self_viewer wv_none) fresh_world)) = [].
Proof. vm_compute. repeat split. Qed.

End MetadataRows.

(** ** C9: the unique indexes *)

Section Subseq.

Context {A : Type}.

Lemma subseq_nil_l (l : list A) : subseq [] l.
Proof. induction l; constructor; assumption. Qed.

Lemma subseq_app (l1 l2 k1 k2 : list A) :
  subseq l1 k1 -> subseq l2 k2 -> subseq (l1 ++ l2) (k1 ++ k2).
Proof.
  intros H1 H2. induction H1; cbn; try (constructor; assumption). assumption.
Qed.

Lemma subseq_In (l k : list A) (a : A) : subseq l k -> In a l -> In a k.
Proof.
  intros H. induction H; cbn; intros Hin; auto.
  destruct Hin; auto.
Qed.

Lemma subseq_NoDup (l k : list A) : subseq l k -> NoDup k -> NoDup l.
Proof.
  intros H. induction H; intros Hk; [constructor | |].
  - inversion Hk; auto.
  - inversion Hk; subst. constructor; auto.
    intros Hin. eapply subseq_In in Hin; eauto.
Qed.

Lemma NoDup_flat_map_disjoint {B : Type} (f : B -> list A) (l : list B) :
  NoDup l ->
  (forall b, In b l -> NoDup (f b)) ->
  (forall b c a, In b l -> In c l -> b <> c -> In a (f b) -> ~ In a (f c)) ->
  NoDup (flat_map f l).
Proof.
  intros Hl. induction Hl as [| b l Hb Hl IH]; intros Hf Hd; cbn; [constructor|].
  apply NoDup_app.
  - apply Hf. now left.
  - apply IH.
    + intros c Hc. apply Hf. now right.
    + intros c d a Hc Hd'. apply Hd; now right.
  - intros a Ha Hin. apply in_flat_map in Hin as (c & Hc & Hac).
    apply (Hd b c a); auto; [now left | now right | congruence].
Qed.

Lemma flat_map_singleton {B : Type} (f : B -> A) (l : list B) :
  flat_map (fun b => [f b]) l = map f l.
Proof. induction l; cbn; congruence. Qed.

Lemma flat_map_ext_in {B : Type} (f g : B -> list A) (l : list B) :
  (forall b, In b l -> f b = g b) -> flat_map f l = flat_map g l.
Proof.
  induction l as [| b l IH]; cbn; intros H; [reflexivity|].
  rewrite H by now left. f_equal. apply IH. intros c Hc. apply H. now right.
Qed.

End Subseq.

Section Appends.

Lemma appends_none (L : list (Z * Z * Z)) (w w' : world) :
  tiles w' = tiles w -> appends_keys L w w'.
Proof.
  intros E. exists []. split; [now rewrite app_nil_r | apply subseq_nil_l].
Qed.

Lemma appends_app (L1 L2 : list (Z * Z * Z)) (a b c : world) :
  appends_keys L1 a b -> appends_keys L2 b c -> appends_keys (L1 ++ L2) a c.
Proof.
  intros (l1 & E1 & S1) (l2 & E2 & S2). exists (l1 ++ l2). split.
  - now rewrite E2, E1, app_assoc.
  - rewrite map_app. now apply subseq_app.
Qed.

Lemma appends_weaken (L1 L2 : list (Z * Z * Z)) (a b : world) :
  appends_keys L1 a b -> appends_keys (L1 ++ L2) a b.
Proof.
  intros (l1 & E1 & S1). exists l1. split; [assumption|].
  rewrite <- (app_nil_r (map tile_key l1)). apply subseq_app; [assumption|].
  apply subseq_nil_l.
Qed.

Lemma appends_after_same_archive (L : list (Z * Z * Z)) (a b c : world) :
  same_archive a b -> appends_keys L b c -> appends_keys L a c.
Proof.
  intros (_ & T & _) (l & E & S). exists l. split; [congruence | assumption].
Qed.

Lemma appends_of_same_archive (L : list (Z * Z * Z)) (a b : world) :
  same_archive a b -> appends_keys L a b.
Proof. intros (_ & T & _). now apply appends_none. Qed.

(** A bind whose first part leaves the archive alone. *)
Lemma preserves_bind_frame {A B : Type} (Q : world -> world -> Prop)
      (m : M A) (k : A -> M B) :
  (forall a b, same_archive a b -> Q a b) ->
  (forall a b c, same_archive a b -> Q b c -> Q a c) ->
  preserves same_archive m -> (forall x, preserves Q (k x)) ->
  preserves Q (bind m k).
Proof.
  intros H1 H2 Hm Hk w. unfold bind. specialize (Hm w).
  destruct (m w) as [[x | e] w']; cbn in *.
  - eapply H2; [exact Hm | apply Hk].
  - now apply H1.
Qed.

Lemma sql_insert_tile_appends z x y d :
  preserves (appends_keys [(z, x, y)]) (sql_insert_tile z x y d).
Proof.
  intros w. unfold sql_insert_tile.
  destruct (negb (schema w)); [now apply appends_none|].
  destruct (tile_index w && _); [now apply appends_none|].
  exists [mkRow z x y d]. split; [reflexivity|]. cbn.
  apply subseq_take, subseq_nil.
Qed.

End Appends.

(** A step of a proof that a tile computation appends at most its own key:
    the parts before the INSERT leave the archive alone. *)
Ltac appends_step :=
  match goal with
  | |- preserves (appends_keys _) (bind _ _) =>
      apply preserves_bind_frame;
      [ intros; now apply appends_of_same_archive
      | intros; eapply appends_after_same_archive; eassumption
      | solve [repeat first [apply same_archive_scale_query_to_tile
                            | apply same_archive_paint_child
                            | preserves_step]]
      | intros ]
  | |- preserves (appends_keys _) (ret _) =>
      intros ?; now apply appends_none
  | |- preserves (appends_keys _) (raise _) =>
      intros ?; now apply appends_none
  | |- preserves (appends_keys _) (sql_insert_tile _ _ _ _) =>
      apply sql_insert_tile_appends
  | |- preserves _ (if ?c then _ else _) => destruct c
  | |- preserves _ (match ?x with _ => _ end) => destruct x
  end.

Section TileKeys.

Lemma base_tile_appends self tmaxx tmaxy tx ty :
  preserves (appends_keys [(tmaxz self, tx, ty)])
            (base_tile self tmaxx tmaxy (tx, ty)).
Proof.
  assert (Hr := same_archive_refl). assert (Ht := same_archive_trans).
  unfold base_tile. repeat appends_step.
Qed.

Lemma overview_tile_appends self tz tx ty :
  preserves (appends_keys [(tz, tx, ty)]) (overview_tile self tz (tx, ty)).
Proof.
  assert (Hr := same_archive_refl). assert (Ht := same_archive_trans).
  unfold overview_tile. repeat appends_step.
Qed.

Lemma for_each_appends {A : Type} (F : A -> list (Z * Z * Z))
      (body : A -> M unit) (l : list A) :
  (forall a, preserves (appends_keys (F a)) (body a)) ->
  preserves (appends_keys (flat_map F l)) (for_each l body).
Proof.
  intros Hb. induction l as [| a l IH]; cbn [for_each flat_map].
  - intros w. now apply appends_none.
  - intros w. unfold bind. specialize (Hb a w).
    destruct (body a w) as [[[] | e] w1]; cbn in *.
    + eapply appends_app; [exact Hb | apply IH].
    + now apply appends_weaken.
Qed.

Lemma generate_base_tiles_appends self cpu :
  preserves
    (appends_keys (worker_keys (opt_processes (options self)) cpu (tmaxz self)
                               (zoom_range self (tmaxz self))))
    (generate_base_tiles self cpu).
Proof.
  intros w. unfold generate_base_tiles, zoom_range, bind, lift.
  destruct (list_get (tminmax self) (tmaxz self)) as [r | e]; cbn [fst snd];
    [| now apply appends_none].
  destruct r as [[[tminx tminy] tmaxx] tmaxy].
  destruct (opt_processes (options self) =? 0).
  - destruct (tile_order _); now apply appends_none.
  - unfold worker_keys. rewrite <- flat_map_singleton.
    apply for_each_appends. intros [tx ty]. apply base_tile_appends.
Qed.

(** The loop that adds up [tcount] reads the ranges and touches nothing. *)
Lemma for_each_lift_pure {A B : Type} (f : A -> res B) (l : list A) (w : world) :
  exists r, for_each l (fun a => bind (lift (f a)) (fun _ => ret tt)) w = (r, w).
Proof.
  induction l as [| a l IH]; cbn [for_each].
  - eexists. reflexivity.
  - unfold bind at 1. unfold bind at 1. unfold lift at 1.
    destruct (f a) as [b | e]; [| eexists; reflexivity].
    unfold ret at 1. exact IH.
Qed.

Lemma generate_overview_tiles_appends self cpu tz :
  preserves
    (appends_keys (worker_keys (opt_processes (options self)) cpu tz
                               (zoom_range self tz)))
    (generate_overview_tiles self cpu tz).
Proof.
  intros w. unfold generate_overview_tiles. unfold bind at 1.
  destruct (for_each_lift_pure (list_get (tminmax self))
              (Py.range_down (tmaxz self - 1) (tminz self - 1)) w) as [r0 E].
  rewrite E. destruct r0 as [[] | e0]; [| now apply appends_none].
  unfold zoom_range, bind, lift.
  destruct (list_get (tminmax self) tz) as [r | e]; cbn [fst snd];
    [| now apply appends_none].
  destruct (opt_processes (options self) =? 0).
  - destruct (tile_order _); now apply appends_none.
  - unfold worker_keys. rewrite <- flat_map_singleton.
    apply for_each_appends. intros [tx ty]. apply overview_tile_appends.
Qed.

End TileKeys.

Section Phases.

Lemma same_setup_refl (w : world) : same_setup w w.
Proof. repeat split; apply log_grows_refl. Qed.

Lemma same_setup_trans (a b c : world) :
  same_setup a b -> same_setup b c -> same_setup a c.
Proof.
  intros (S1 & M1 & N1 & T1 & L1) (S2 & M2 & N2 & T2 & L2).
  repeat split; try congruence. eapply log_grows_trans; eassumption.
Qed.

Lemma same_setup_file_write p c : preserves same_setup (file_write p c).
Proof. intros w. repeat split. now apply log_grows_same. Qed.

Lemma same_setup_sql_insert_tile z x y d :
  preserves same_setup (sql_insert_tile z x y d).
Proof.
  intros w. unfold sql_insert_tile.
  destruct (negb (schema w)); [apply same_setup_refl|].
  destruct (tile_index w && _); [apply same_setup_refl|].
  repeat split. eapply log_grows_one; [| reflexivity]. cbn. tauto.
Qed.

Lemma same_setup_generate_base_tiles self cpu :
  preserves same_setup (generate_base_tiles self cpu).
Proof.
  assert (Hr := same_setup_refl). assert (Ht := same_setup_trans).
  unfold generate_base_tiles, base_tile, scale_query_to_tile.
  repeat first [apply same_setup_file_write | apply same_setup_sql_insert_tile
               | preserves_step].
Qed.

Lemma same_setup_generate_overview_tiles self cpu tz :
  preserves same_setup (generate_overview_tiles self cpu tz).
Proof.
  assert (Hr := same_setup_refl). assert (Ht := same_setup_trans).
  unfold generate_overview_tiles, overview_tile, paint_child, scale_query_to_tile.
  repeat first [apply same_setup_file_write | apply same_setup_sql_insert_tile
               | preserves_step].
Qed.

(** The processes of a phase, run one after the other. *)
Lemma for_each_ok {A : Type} (body : A -> M unit) (g : A -> world -> world)
      (l : list A) :
  (forall a w, body a w = (Ok tt, g a w)) ->
  forall w, for_each l body w = (Ok tt, fold_left (fun w a => g a w) l w).
Proof.
  intros Hb. induction l as [| a l IH]; intros w; cbn [for_each fold_left].
  - reflexivity.
  - unfold bind. rewrite Hb. apply IH.
Qed.

Lemma for_each_run_process {A : Type} (f : A -> M unit) (l : list A) (w : world) :
  for_each l (fun a => run_process (f a)) w = (Ok tt, run_all l f w).
Proof. unfold run_all. now apply for_each_ok. Qed.

Lemma fold_left_rel {A : Type} (R : world -> world -> Prop)
      (g : A -> world -> world) (l : list A) :
  (forall w, R w w) -> (forall a b c, R a b -> R b c -> R a c) ->
  (forall a w, R w (g a w)) ->
  forall w, R w (fold_left (fun w a => g a w) l w).
Proof.
  intros Hr Ht Hg. induction l as [| a l IH]; intros w; cbn; [apply Hr|].
  eapply Ht; [apply Hg | apply IH].
Qed.

Lemma fold_left_appends {A : Type} (F : A -> list (Z * Z * Z))
      (g : A -> world -> world) (l : list A) :
  (forall a w, appends_keys (F a) w (g a w)) ->
  forall w, appends_keys (flat_map F l) w (fold_left (fun w a => g a w) l w).
Proof.
  intros Hg. induction l as [| a l IH]; intros w; cbn.
  - now apply appends_none.
  - eapply appends_app; [apply Hg | apply IH].
Qed.

(** The world in which [main] reaches [create_index]. *)
Lemma main_reaches_create_index self a b w :
  opt_resume (options self) = false ->
  opt_zoom (options self) = Some (a, b) ->
  let n := opt_processes (options self) in
  let w1 := snd (worker_metadata self w) in
  let w2 := run_all (Py.range 0 n) (worker_base_tiles self) w1 in
  let w3 :=
    fold_left
      (fun w tz =>
         run_all (Py.range 0 n)
                 (fun cpu => worker_overview_tiles self (cpu mod n) tz) w)
      (Py.range_down (b - 1) (a - 1)) w2 in
  main self w = bind create_index (fun _ => modify (add_log EvJournalDelete)) w3.
Proof.
  intros Hres Hz. cbv zeta. unfold main. rewrite Hres, Hz. cbn [negb].
  unfold bind at 1. unfold run_process at 1. cbn [snd fst].
  unfold bind at 1. rewrite for_each_run_process.
  unfold bind at 1.
  rewrite (for_each_ok _
             (fun tz w =>
                run_all (Py.range 0 (opt_processes (options self)))
                        (fun cpu => worker_overview_tiles self
                                      (cpu mod opt_processes (options self)) tz) w)).
  - reflexivity.
  - intros tz w'. apply for_each_run_process.
Qed.

End Phases.

Section PlanNoDup.

Lemma distinctb_NoDup {A : Type} (eqb : A -> A -> bool) (l : list A) :
  (forall a b, eqb a b = true <-> a = b) ->
  distinctb eqb l = true <-> NoDup l.
Proof.
  intros Heq. induction l as [| a l IH]; cbn.
  - split; [constructor | reflexivity].
  - rewrite andb_true_iff, negb_true_iff, IH. split.
    + intros [Hn Hl]. constructor; [| assumption].
      intros Hin. assert (existsb (eqb a) l = true); [| congruence].
      apply existsb_exists. exists a. split; [assumption | now apply Heq].
    + intros H. inversion H; subst. split; [| assumption].
      destruct (existsb (eqb a) l) eqn:E; [| reflexivity].
      apply existsb_exists in E as (b & Hb & Hab). apply Heq in Hab. now subst.
Qed.

Lemma tile_key_eqb_eq (a b : Z * Z * Z) : tile_key_eqb a b = true <-> a = b.
Proof.
  destruct a as [[z x] y], b as [[z' x'] y']. unfold tile_key_eqb.
  rewrite !andb_true_iff, !Z.eqb_eq. split.
  - intros [[-> ->] ->]. reflexivity.
  - intros E. inversion E. auto.
Qed.

Lemma NoDup_claimed (N cpu : Z) (l : list (Z * Z)) :
  NoDup l -> forall ti, NoDup (claimed N cpu ti l).
Proof.
  intros Hl. induction Hl as [| a l Ha Hl IH]; intros ti; cbn [claimed];
    [constructor|].
  destruct (negb _); [apply IH|].
  constructor; [| apply IH]. intros Hin. apply Ha.
  eapply claimed_incl; eassumption.
Qed.

Lemma claimed_disjoint (N cpu cpu' : Z) (l : list (Z * Z)) (t : Z * Z) :
  1 <= N -> NoDup l -> cpu <> cpu' ->
  In t (claimed N cpu 0 l) -> ~ In t (claimed N cpu' 0 l).
Proof.
  intros HN Hl Hne Hin.
  assert (Hc : count_occ tile_eq_dec l t = 1%nat).
  { apply NoDup_count_occ'; [assumption | eapply claimed_incl; eassumption]. }
  destruct (claimed_exactly_once N t l HN 0 Hc) as (w & _ & _ & Hothers).
  destruct (Z.eq_dec cpu w) as [-> | Hw].
  - apply Hothers. congruence.
  - exfalso. now apply (Hothers cpu Hw).
Qed.

Lemma in_worker_keys N cpu tz r k :
  In k (worker_keys N cpu tz r) <->
  fst (fst k) = tz /\ In (snd (fst k), snd k) (worker_tiles N cpu r).
Proof.
  unfold worker_keys. rewrite in_map_iff. split.
  - intros ([x y] & <- & Hin). cbn. auto.
  - destruct k as [[z x] y]. cbn. intros [<- Hin]. exists (x, y). auto.
Qed.

Lemma NoDup_worker_keys N cpu tz r : NoDup (worker_keys N cpu tz r).
Proof.
  unfold worker_keys, worker_tiles.
  assert (H := NoDup_claimed N cpu (tile_order r) (NoDup_tile_order r) 0).
  induction H as [| t l Ht Hl IH]; cbn; constructor; auto.
  rewrite in_map_iff. intros ([x y] & E & Hin). destruct t as [x' y'].
  cbn in E. inversion E; subst. contradiction.
Qed.

Lemma in_phase_keys self tz k : In k (phase_keys self tz) -> fst (fst k) = tz.
Proof.
  unfold phase_keys. rewrite in_flat_map. intros (cpu & _ & Hin).
  now apply in_worker_keys in Hin.
Qed.

Lemma NoDup_phase_keys self tz : NoDup (phase_keys self tz).
Proof.
  unfold phase_keys. apply NoDup_flat_map_disjoint.
  - apply NoDup_py_range.
  - intros cpu _. apply NoDup_worker_keys.
  - intros cpu cpu' k Hc Hc' Hne Hin Hin'.
    apply in_py_range in Hc.
    apply in_worker_keys in Hin as [_ Hin]. apply in_worker_keys in Hin' as [_ Hin'].
    revert Hin'. apply claimed_disjoint with (cpu := cpu); auto; try lia.
    apply NoDup_tile_order.
Qed.

Lemma NoDup_plan self a b : NoDup (plan self a b).
Proof.
  unfold plan. apply NoDup_flat_map_disjoint.
  - constructor; [| apply NoDup_py_range_down].
    rewrite in_py_range_down. lia.
  - intros tz _. apply NoDup_phase_keys.
  - intros tz tz' k _ _ Hne Hin Hin'.
    apply in_phase_keys in Hin. apply in_phase_keys in Hin'. congruence.
Qed.

(** Inside a phase the worker ids are those of [range(proc_count)]. *)
Lemma phase_keys_mod self tz :
  let n := opt_processes (options self) in
  flat_map (fun cpu => worker_keys n (cpu mod n) tz (zoom_range self tz))
           (Py.range 0 n)
  = phase_keys self tz.
Proof.
  cbv zeta. unfold phase_keys. apply flat_map_ext_in.
  intros cpu Hc. apply in_py_range in Hc. now rewrite Z.mod_small by lia.
Qed.

End PlanNoDup.

Section UniqueIndexes.

Lemma phases_append_plan self a b w1 :
  tmaxz self = b ->
  let n := opt_processes (options self) in
  let w2 := run_all (Py.range 0 n) (worker_base_tiles self) w1 in
  let w3 :=
    fold_left
      (fun w tz =>
         run_all (Py.range 0 n)
                 (fun cpu => worker_overview_tiles self (cpu mod n) tz) w)
      (Py.range_down (b - 1) (a - 1)) w2 in
  appends_keys (plan self a b) w1 w3 /\ same_setup w1 w3.
Proof.
  intros Hb. cbv zeta. split.
  - unfold plan. cbn [flat_map]. eapply appends_app.
    + unfold run_all, phase_keys. rewrite <- Hb.
      apply (fold_left_appends
               (fun cpu => worker_keys (opt_processes (options self)) cpu (tmaxz self)
                                       (zoom_range self (tmaxz self)))
               (fun cpu w => snd (worker_base_tiles self cpu w))).
      intros cpu w. apply generate_base_tiles_appends.
    + apply (fold_left_appends (phase_keys self)).
      intros tz w. rewrite <- phase_keys_mod. unfold run_all.
      apply (fold_left_appends
               (fun cpu => worker_keys (opt_processes (options self))
                                       (cpu mod opt_processes (options self)) tz
                                       (zoom_range self tz))
               (fun cpu w => snd (worker_overview_tiles self
                                    (cpu mod opt_processes (options self)) tz w))).
      intros cpu w'. apply generate_overview_tiles_appends.
  - eapply same_setup_trans.
    + unfold run_all.
      apply (fold_left_rel same_setup
               (fun cpu w => snd (worker_base_tiles self cpu w)));
        [apply same_setup_refl | apply same_setup_trans |].
      intros cpu w. apply same_setup_generate_base_tiles.
    + apply (fold_left_rel same_setup);
        [apply same_setup_refl | apply same_setup_trans |].
      intros tz w. unfold run_all.
      apply (fold_left_rel same_setup
               (fun cpu w => snd (worker_overview_tiles self
                                    (cpu mod opt_processes (options self)) tz w)));
        [apply same_setup_refl | apply same_setup_trans |].
      intros cpu w'. apply same_setup_generate_overview_tiles.
Qed.

Lemma worker_metadata_no_index self :
  preserves (log_grows (fun e => ~ is_index_event e)) (worker_metadata self).
Proof.
  assert (Hr := log_grows_refl (fun e => ~ is_index_event e)).
  assert (Ht := log_grows_trans (fun e => ~ is_index_event e)).
  assert (Hfile : forall p c,
             preserves (log_grows (fun e => ~ is_index_event e)) (file_write p c)).
  { intros p c w. now apply log_grows_same. }
  assert (Hins : forall n v,
             preserves (log_grows (fun e => ~ is_index_event e))
                       (sql_insert_metadata n v)).
  { intros n v w. unfold sql_insert_metadata.
    destruct (negb (schema w)); [apply Hr|].
    destruct (name_index w && _); [apply Hr|].
    eapply log_grows_one; [| reflexivity]. cbn. tauto. }
  assert (Hsetup : preserves (log_grows (fun e => ~ is_index_event e)) mbtiles_setup).
  { intros w. unfold mbtiles_setup. destruct (schema w); [apply Hr|].
    eapply log_grows_one; [| reflexivity]. cbn. tauto. }
  unfold worker_metadata, generate_metadata, write_viewer, unless_resumed.
  repeat first [apply Hfile | apply Hins | apply Hsetup | preserves_step].
Qed.

(** The metadata worker on a new archive, whatever the profile: the tables
    exist afterwards, no tile row and no index, and the names of the
    metadata rows are distinct. *)
Lemma worker_metadata_sets_up self w :
  opt_resume (options self) = false ->
  new_archive w ->
  let w1 := snd (worker_metadata self w) in
  schema w1 = true /\ tiles w1 = [] /\
  name_index w1 = false /\ tile_index w1 = false /\
  distinctb String.eqb (map fst (metadata w1)) = true /\
  log_grows (fun e => ~ is_index_event e) w w1.
Proof.
  intros Hres Hnew. cbv zeta.
  split; [| split; [| split; [| split; [| split]]]];
    try apply worker_metadata_no_index.
  all: destruct Hnew as (Hs & Hti & Hm & Hni & Htx).
  all: destruct self as [o out ts qs drv ext mnz mxz tmm ds dbc nz tsz [[[so we] no] ea]].
  all: destruct o as [pr rs zm res pc vb kml wv ttl cp oc].
  all: destruct w as [sc tl md ni tix fl lg].
  all: cbn in Hres, Hs, Hti, Hm, Hni, Htx; subst.
  all: destruct pr, wv, kml; reflexivity.
Qed.

(** C9, as amended.  For every run without [--resume] whose zoom range is
    given with [--zoom], started on a new archive: the run returns, all its
    tile and metadata statements come before the index creation, which is
    followed only by the journal pragma; the unique indexes on
    metadata(name) and on tiles(zoom_level, tile_column, tile_row) exist at
    the end, and the triple is unique in the tiles table. *)
Theorem unique_indexes_after_tile_work (self : GDAL2Mbtiles) (a b : Z) (w : world) :
  opt_resume (options self) = false ->
  opt_zoom (options self) = Some (a, b) ->
  tmaxz self = b ->
  new_archive w ->
  exists w' l,
    main self w = (Ok tt, w') /\
    log w' = log w ++ l ++ [EvCreateIndexName; EvCreateIndexTiles; EvJournalDelete] /\
    Forall (fun e => ~ is_index_event e) l /\
    name_index w' = true /\ tile_index w' = true /\
    NoDup (map tile_key (tiles w')) /\
    NoDup (map fst (metadata w')).
Proof.
  intros Hres Hz Hb Hnew.
  rewrite (main_reaches_create_index self a b w Hres Hz). cbv zeta.
  destruct (worker_metadata_sets_up self w Hres Hnew)
    as (Hs1 & Ht1 & Hn1 & Hi1 & Hd1 & l01 & Hl01 & Hf01).
  destruct (phases_append_plan self a b (snd (worker_metadata self w)) Hb)
    as ((rows & Hrows & Hsub) & (Hs3 & Hm3 & Hn3 & Hi3 & l13 & Hl13 & Hf13)).
  cbv zeta in Hrows, Hs3, Hm3, Hn3, Hi3, Hl13.
  set (w3 := fold_left _ _ _) in *.
  assert (Hkeys : NoDup (map tile_key (tiles w3))).
  { rewrite Hrows, Ht1. cbn. eapply subseq_NoDup; [exact Hsub | apply NoDup_plan]. }
  assert (Hnames : distinctb String.eqb (map fst (metadata w3)) = true)
    by now rewrite Hm3.
  assert (Hkeysb : distinctb tile_key_eqb (map tile_key (tiles w3)) = true).
  { apply distinctb_NoDup; [apply tile_key_eqb_eq | assumption]. }
  unfold create_index, bind, create_index_name.
  rewrite Hs3, Hs1, Hn3, Hn1, Hnames. cbn [negb orb].
  unfold create_index_tiles. cbn [schema tile_index tiles add_log set_name_index].
  rewrite Hs3, Hs1, Hi3, Hi1, Hkeysb. cbn [negb orb].
  unfold modify.
  eexists. exists (l01 ++ l13). split; [reflexivity|].
  cbn. rewrite Hl13, Hl01.
  split; [rewrite <- !app_assoc; reflexivity|].
  split; [apply Forall_app; now split|].
  split; [reflexivity | split; [reflexivity | split; [assumption|]]].
  apply (distinctb_NoDup String.eqb); [apply String.eqb_eq | assumption].
Qed.

Lemma unique_indexes_after_tile_work_witness :
  (opt_resume (options (sample_self average xyz false)) = false /\
   opt_zoom (options (sample_self average xyz false)) = Some (0, 1) /\
   tmaxz (sample_self average xyz false) = 1 /\
   new_archive fresh_world) /\
  exists w' l,
    main (sample_self average xyz false) fresh_world = (Ok tt, w') /\
    log w' = log fresh_world ++ l ++
             [EvCreateIndexName; EvCreateIndexTiles; EvJournalDelete] /\
    Forall (fun e => ~ is_index_event e) l /\
    name_index w' = true /\ tile_index w' = true /\
    NoDup (map tile_key (tiles w')) /\
    NoDup (map fst (metadata w')).
Proof.
  assert (Hnew : new_archive fresh_world) by (repeat split).
  split.
  - split; [reflexivity | split; [reflexivity | split; [reflexivity | exact Hnew]]].
  - apply (unique_indexes_after_tile_work (sample_self average xyz false) 0 1
             fresh_world eq_refl eq_refl eq_refl Hnew).
Defined.

(** C9, as stated, fails for runs with [--resume].  Resuming the sample run
    that was interrupted after its base phase writes the overview tile and
    creates no index; resuming once more writes the overview tile again, so
    that the key (0, 0, 0) is in the table twice at the end of the run. *)
Lemma resume_run_counterexample :
  let s := sample_self average xyz true in
  let w1 := snd (main s sample_archive_after_base) in
  let w2 := snd (main s w1) in
  fst (main s sample_archive_after_base) = Ok tt /\
  name_index w1 = false /\ tile_index w1 = false /\
  ~ In EvCreateIndexTiles (log w1) /\
  fst (main s w1) = Ok tt /\
  tile_index w2 = false /\
  map tile_key (tiles w2)
    = [(1, 0, 1); (1, 0, 0); (1, 1, 1); (1, 1, 0); (0, 0, 0); (0, 0, 0)] /\
  ~ NoDup (map tile_key (tiles w2)).
Proof.
  cbv zeta.
  split; [vm_compute; reflexivity|].
  split; [vm_compute; reflexivity|].
  split; [vm_compute; reflexivity|].
  split.
  { vm_compute. intros H.
    repeat (destruct H as [H | H]; [discriminate H|]). exact H. }
  split; [vm_compute; reflexivity|].
  split; [vm_compute; reflexivity|].
  split; [vm_compute; reflexivity|].
  intros H.
  assert (E : map tile_key
                (tiles (snd (main (sample_self average xyz true)
                               (snd (main (sample_self average xyz true)
                                          sample_archive_after_base)))))
              = [(1, 0, 1); (1, 0, 0); (1, 1, 1); (1, 1, 0); (0, 0, 0); (0, 0, 0)])
    by (vm_compute; reflexivity).
  rewrite E in H.
  do 4 (apply NoDup_cons_iff in H as [_ H]).
  apply NoDup_cons_iff in H as [H _]. apply H. now left.
Qed.

End UniqueIndexes.

Section ResumeRun.

(** A run with [--resume] sets up nothing and creates no index: tables,
    metadata rows and index flags are as before, and no index statement is
    executed. *)
Lemma resume_run_creates_no_index self :
  opt_resume (options self) = true -> preserves same_setup (main self).
Proof.
  intros Hres. assert (Hr := same_setup_refl). assert (Ht := same_setup_trans).
  unfold main, worker_metadata, worker_base_tiles, worker_overview_tiles.
  rewrite Hres. cbn [negb].
  repeat first [apply same_setup_generate_base_tiles
               | apply same_setup_generate_overview_tiles
               | preserves_step].
  intros w. repeat split. eapply log_grows_one; [| reflexivity]. cbn. tauto.
Qed.

End ResumeRun.

(** * Further properties of the coordinate kernel *)

Section MercatorKernel.

Import GlobalMercator.

(** X1. Inside the pyramid of a zoom below 32, a pixel coordinate that is
    converted to meters and back comes back within a thousandth of a
    pixel.  The conversions round, so it need not come back exactly. *)
Theorem pixels_meters_roundtrip (zoom : Z) (a b : Q) :
  0 <= zoom < MAXZOOMLEVEL ->
  (0 <= a <= inject_Z (256 * 2 ^ zoom))%Q ->
  (0 <= b <= inject_Z (256 * 2 ^ zoom))%Q ->
  let '(mx, my) := PixelsToMeters a b zoom in
  let '(px, py) := MetersToPixels mx my zoom in
  (Qabs (px - a) <= 1 # 1000)%Q /\ (Qabs (py - b) <= 1 # 1000)%Q.
Proof.
  intros Hz Ha Hb. unfold PixelsToMeters, MetersToPixels. cbv zeta. cbv beta iota.
  assert (S := pyramid_width_small zoom Hz).
  assert (A := pixel_roundtrip_near zoom a (proj1 Hz) Ha).
  assert (B := pixel_roundtrip_near zoom b (proj1 Hz) Hb).
  cbv zeta in A, B.
  split; apply Qabs_Qle_condition; lra.
Qed.

Lemma pixels_meters_roundtrip_witness :
  0 <= 3 < MAXZOOMLEVEL /\
  (0 <= 100 <= inject_Z (256 * 2 ^ 3))%Q /\
  (0 <= 200 <= inject_Z (256 * 2 ^ 3))%Q /\
  (let '(mx, my) := PixelsToMeters 100 200 3 in
   let '(px, py) := MetersToPixels mx my 3 in
   (Qabs (px - 100) <= 1 # 1000)%Q /\ (Qabs (py - 200) <= 1 # 1000)%Q).
Proof.
  assert (Ha : (0 <= 100 <= inject_Z (256 * 2 ^ 3))%Q)
    by (split; vm_compute; discriminate).
  assert (Hb : (0 <= 200 <= inject_Z (256 * 2 ^ 3))%Q)
    by (split; vm_compute; discriminate).
  split; [unfold MAXZOOMLEVEL; lia | split; [exact Ha | split; [exact Hb |]]].
  apply (pixels_meters_roundtrip 3 100 200);
    [unfold MAXZOOMLEVEL; lia | exact Ha | exact Hb].
Defined.

(** At zoom 3 the pixel (100, 200) comes back as
    (99.999999999999929, 200.00000000000006). *)
Example pixels_meters_roundtrip_rounds :
  let '(mx, my) := PixelsToMeters 100 200 3 in
  let '(px, py) := MetersToPixels mx my 3 in
  (px < 100)%Q /\ (200 < py)%Q.
Proof. vm_compute. split; reflexivity. Qed.

Lemma ceil_in_tile (q : Q) (t : Z) :
  (inject_Z t < q)%Q -> (q <= inject_Z (t + 1))%Q -> Py.ceil q - 1 = t.
Proof.
  intros Hlo Hhi. unfold Py.ceil.
  assert (H1 : Qceiling q <= t + 1).
  { rewrite <- (Qceiling_Z (t + 1)). now apply Qceiling_resp_le. }
  assert (H2 : t < Qceiling q).
  { assert (C := Qle_ceiling q).
    assert (inject_Z t < inject_Z (Qceiling q))%Q by lra.
    now rewrite <- Zlt_Qlt in H. }
  lia.
Qed.

Lemma Resolution_halves (zoom : Z) :
  0 <= zoom -> (Resolution (zoom + 1) == Resolution zoom / 2)%Q.
Proof.
  intros Hz. unfold Resolution.
  assert (P := pow2_pos zoom Hz).
  rewrite Z.pow_add_r, Z.pow_1_r, inject_Z_mult by lia.
  change (inject_Z 2) with 2%Q. field. lra.
Qed.

(** One coordinate of a point that lies at least one pixel inside the
    computed bounds of the tile [t]. *)
Lemma inside_coord (zoom t : Z) (m : Q) :
  0 <= zoom < MAXZOOMLEVEL -> 0 <= t < 2 ^ zoom ->
  let lo := Float64.fl (Float64.fl (inject_Z (t * tileSize) * Resolution zoom)
                        - originShift) in
  let hi := Float64.fl (Float64.fl (inject_Z ((t + 1) * tileSize) * Resolution zoom)
                        - originShift) in
  (lo + Resolution zoom <= m <= hi - Resolution zoom)%Q ->
  Py.ceil (Float64.fl (Float64.fl (m + originShift) / Resolution zoom)
           / Py.float tileSize) - 1 = t.
Proof.
  intros Hz Ht. cbv zeta. intros [Hlo Hhi].
  assert (Hr := Resolution_pos zoom (proj1 Hz)). assert (Ho := originShift_pos).
  assert (Hw := world_meters zoom (proj1 Hz)).
  assert (S := pyramid_width_small zoom Hz).
  assert (P0 : (0 <= inject_Z (t * tileSize) <= inject_Z (256 * 2 ^ zoom))%Q).
  { unfold tileSize. change 0%Q with (inject_Z 0). rewrite <- !Zle_Qle. lia. }
  assert (P1 : (0 <= inject_Z ((t + 1) * tileSize) <= inject_Z (256 * 2 ^ zoom))%Q).
  { unfold tileSize. change 0%Q with (inject_Z 0). rewrite <- !Zle_Qle. lia. }
  assert (A0 := pixels_to_meters_near zoom _ (proj1 Hz) P0).
  assert (A1 := pixels_to_meters_near zoom _ (proj1 Hz) P1).
  cbv zeta in A0, A1.
  set (lo := Float64.fl (Float64.fl (inject_Z (t * tileSize) * Resolution zoom)
                         - originShift)) in *.
  set (hi := Float64.fl (Float64.fl (inject_Z ((t + 1) * tileSize) * Resolution zoom)
                         - originShift)) in *.
  set (r := Resolution zoom) in *.
  set (P := inject_Z (256 * 2 ^ zoom)) in *.
  unfold tileSize, Py.float in *. rewrite !inject_Z_mult, inject_Z_plus in *.
  change (inject_Z 256) with 256%Q in *. change (inject_Z 1) with 1%Q in *.
  set (T := inject_Z t) in *.
  assert (T0 : (0 <= T * 256 * r)%Q).
  { apply Qmult_le_0_compat; [| lra]. lra. }
  assert (T1 : ((T + 1) * 256 * r <= 2 * originShift)%Q).
  { rewrite <- Hw. apply Qmult_le_compat_r; lra. }
  assert (Hm : (- (2 * originShift) <= m <= 2 * originShift)%Q) by lra.
  assert (B := meters_to_pixels_near zoom m (proj1 Hz) Hm). cbv zeta in B.
  fold r P in B.
  set (px := Float64.fl (Float64.fl (m + originShift) / r)) in *.
  assert (D : (T * 256 + 1 - P * (2 # 9007199254740992) <= (m + originShift) / r
               <= (T + 1) * 256 - 1 + P * (2 # 9007199254740992))%Q).
  { apply div_between; [assumption|].
    setoid_replace ((T * 256 + 1 - P * (2 # 9007199254740992)) * r)%Q
      with (T * 256 * r + r - P * r * (2 # 9007199254740992))%Q by ring.
    setoid_replace (((T + 1) * 256 - 1 + P * (2 # 9007199254740992)) * r)%Q
      with ((T + 1) * 256 * r - r + P * r * (2 # 9007199254740992))%Q by ring.
    rewrite Hw. lra. }
  apply ceil_in_tile.
  - apply Qlt_shift_div_l; [reflexivity|]. fold T. lra.
  - rewrite inject_Z_plus. change (inject_Z 1) with 1%Q. fold T.
    apply Qle_shift_div_r; [reflexivity | lra].
Qed.

(** X2. Below zoom 32, a point that lies at least one pixel (one
    resolution unit) inside the bounds that [TileBounds] computes for an
    in-range tile is mapped by [MetersToTile] to that tile.  On the edges
    themselves the rounding of the conversions decides. *)
Theorem MetersToTile_inside_tile (zoom tx ty : Z) (mx my : Q) :
  tile_in_range zoom tx ty = true -> zoom < MAXZOOMLEVEL ->
  (let '(minx, miny, maxx, maxy) := TileBounds tx ty zoom in
   minx + Resolution zoom <= mx /\ mx <= maxx - Resolution zoom /\
   miny + Resolution zoom <= my /\ my <= maxy - Resolution zoom)%Q ->
  MetersToTile mx my zoom = (tx, ty).
Proof.
  unfold tile_in_range. rewrite !andb_true_iff, !Z.leb_le, !Z.ltb_lt.
  intros [[[[Hz Hx0] Hx1] Hy0] Hy1] Hmax.
  assert (Z1 : 0 <= zoom < MAXZOOMLEVEL) by lia.
  unfold TileBounds, PixelsToMeters, MetersToTile, MetersToPixels, PixelsToTile.
  cbv zeta. cbv beta iota. intros (Hx & Hx' & Hy & Hy').
  f_equal.
  - apply (inside_coord zoom tx mx Z1); [lia | now split].
  - apply (inside_coord zoom ty my Z1); [lia | now split].
Qed.

End MercatorKernel.

Section MercatorPyramid.

Import GlobalMercator.

Lemma MetersToTile_inside_tile_witness :
  tile_in_range 1 1 0 = true /\ 1 < MAXZOOMLEVEL /\
  (let '(minx, miny, maxx, maxy) := TileBounds 1 0 1 in
   minx + Resolution 1 <= 10000000 /\ 10000000 <= maxx - Resolution 1 /\
   miny + Resolution 1 <= -10000000 /\ -10000000 <= maxy - Resolution 1)%Q /\
  MetersToTile 10000000 (-10000000) 1 = (1, 0).
Proof.
  assert (H : (let '(minx, miny, maxx, maxy) := TileBounds 1 0 1 in
               minx + Resolution 1 <= 10000000 /\ 10000000 <= maxx - Resolution 1 /\
               miny + Resolution 1 <= -10000000 /\
               -10000000 <= maxy - Resolution 1)%Q).
  { vm_compute. repeat split; discriminate. }
  split; [reflexivity | split; [reflexivity | split; [exact H |]]].
  apply (MetersToTile_inside_tile 1 1 0 10000000 (-10000000));
    [reflexivity | reflexivity | exact H].
Defined.

(** The meters of a pixel depend on the product of pixel and resolution
    only. *)
Lemma PixelsToMeters_product (p p' : Q) (zoom zoom' : Z) :
  (p * Resolution zoom == p' * Resolution zoom')%Q ->
  Float64.fl (Float64.fl (p * Resolution zoom) - originShift)
  = Float64.fl (Float64.fl (p' * Resolution zoom') - originShift).
Proof. intros E. now rewrite (fl_comp _ _ E). Qed.

Lemma PixelsToMeters_mono (p p' : Q) (zoom : Z) :
  0 <= zoom -> (p <= p')%Q ->
  (Float64.fl (Float64.fl (p * Resolution zoom) - originShift)
   <= Float64.fl (Float64.fl (p' * Resolution zoom) - originShift))%Q.
Proof.
  intros Hz H. assert (Hr := Resolution_pos zoom Hz).
  apply fl_mono.
  assert (M : (Float64.fl (p * Resolution zoom)
               <= Float64.fl (p' * Resolution zoom))%Q).
  { apply fl_mono. apply Qmult_le_compat_r; lra. }
  lra.
Qed.

(** X3. The four children of a tile cover it without gap or overlap, with
    the rounding of the conversions included: the lower-left child starts
    at the lower-left corner of the parent, the upper-right child ends at
    its upper-right corner, the children share their inner edges, and the
    inner edges lie between the edges of the parent. *)
Theorem TileBounds_children_subdivide (zoom tx ty : Z) :
  0 <= zoom ->
  let '(minx, miny, maxx, maxy) := TileBounds tx ty zoom in
  let '(a0, b0, a1, b1) := TileBounds (2 * tx) (2 * ty) (zoom + 1) in
  let '(c0, d0, c1, d1) := TileBounds (2 * tx + 1) (2 * ty + 1) (zoom + 1) in
  (a0 == minx /\ b0 == miny /\ c1 == maxx /\ d1 == maxy /\
   a1 == c0 /\ b1 == d0 /\
   minx <= a1 <= maxx /\ miny <= b1 <= maxy)%Q.
Proof.
  intros Hz. assert (Hh := Resolution_halves zoom Hz).
  assert (Hr := Resolution_pos zoom Hz).
  unfold TileBounds, PixelsToMeters. cbv zeta. cbv beta iota.
  unfold tileSize.
  assert (E0 : forall t,
             (inject_Z (2 * t * 256) * Resolution (zoom + 1)
              == inject_Z (t * 256) * Resolution zoom)%Q).
  { intros t. rewrite Hh, !inject_Z_mult. change (inject_Z 2) with 2%Q. field. }
  assert (E1 : forall t,
             (inject_Z ((2 * t + 1 + 1) * 256) * Resolution (zoom + 1)
              == inject_Z ((t + 1) * 256) * Resolution zoom)%Q).
  { intros t. rewrite Hh, !inject_Z_mult, !inject_Z_plus, !inject_Z_mult.
    change (inject_Z 2) with 2%Q. change (inject_Z 1) with 1%Q. field. }
  assert (E2 : forall t,
             (inject_Z ((2 * t + 1) * 256) * Resolution (zoom + 1)
              == (inject_Z (t * 256) + 128) * Resolution zoom)%Q).
  { intros t. rewrite Hh, !inject_Z_mult, !inject_Z_plus, !inject_Z_mult.
    change (inject_Z 2) with 2%Q. change (inject_Z 1) with 1%Q. field. }
  rewrite !(PixelsToMeters_product _ _ _ _ (E0 _)).
  rewrite !(PixelsToMeters_product _ _ _ _ (E1 _)).
  rewrite !(PixelsToMeters_product _ _ _ _ (E2 _)).
  assert (Mid : forall t, (inject_Z (t * 256) <= inject_Z (t * 256) + 128
                           <= inject_Z ((t + 1) * 256))%Q).
  { intros t. rewrite !inject_Z_mult, inject_Z_plus.
    change (inject_Z 256) with 256%Q. change (inject_Z 1) with 1%Q. lra. }
  repeat split; try reflexivity;
    apply PixelsToMeters_mono; try assumption; apply Mid.
Qed.

Lemma TileBounds_children_subdivide_witness :
  0 <= 2 /\
  (let '(minx, miny, maxx, maxy) := TileBounds 1 3 2 in
   let '(a0, b0, a1, b1) := TileBounds (2 * 1) (2 * 3) (2 + 1) in
   let '(c0, d0, c1, d1) := TileBounds (2 * 1 + 1) (2 * 3 + 1) (2 + 1) in
   (a0 == minx /\ b0 == miny /\ c1 == maxx /\ d1 == maxy /\
    a1 == c0 /\ b1 == d0 /\
    minx <= a1 <= maxx /\ miny <= b1 <= maxy)%Q).
Proof.
  split; [lia | apply (TileBounds_children_subdivide 2 1 3); lia].
Defined.

(** X4. [GoogleTile] flips the row between the TMS and the XYZ convention:
    applying it twice gives the tile back, a tile lies in the pyramid
    exactly when its flipped tile does, and the flipped row counts the
    tiles from the top of the world: the upper edge of a tile of the
    pyramid lies [gy] tile heights below [originShift], up to the rounding
    of [PixelsToMeters], which is less than 10^-8 meters. *)
Theorem GoogleTile_flips_rows (zoom tx ty : Z) :
  0 <= zoom ->
  let '(gx, gy) := GoogleTile tx ty zoom in
  GoogleTile gx gy zoom = (tx, ty) /\
  tile_in_range zoom gx gy = tile_in_range zoom tx ty /\
  (tile_in_range zoom tx ty = true ->
   let '(_, _, _, maxy) := TileBounds tx ty zoom in
   (Qabs (maxy - (originShift - inject_Z gy * (256 * Resolution zoom)))
    <= 1 # 100000000)%Q).
Proof.
  intros Hz. unfold GoogleTile. split; [| split].
  - f_equal. lia.
  - unfold tile_in_range. set (p := 2 ^ zoom).
    destruct (0 <=? zoom), (0 <=? tx), (tx <? p); cbn; try reflexivity.
    destruct (Z.leb_spec 0 ty), (Z.ltb_spec ty p),
             (Z.leb_spec 0 (p - 1 - ty)), (Z.ltb_spec (p - 1 - ty) p);
      cbn; try reflexivity; lia.
  - unfold tile_in_range. rewrite !andb_true_iff, !Z.leb_le, !Z.ltb_lt.
    intros [[[[_ Hx0] Hx1] Hy0] Hy1].
    unfold TileBounds, PixelsToMeters. cbv zeta. cbv beta iota.
    assert (Hp : (0 <= inject_Z ((ty + 1) * tileSize)
                  <= inject_Z (256 * 2 ^ zoom))%Q).
    { unfold tileSize. change 0%Q with (inject_Z 0). rewrite <- !Zle_Qle. lia. }
    assert (N := pixels_to_meters_near zoom _ Hz Hp). cbv zeta in N.
    assert (Hw := world_meters zoom Hz).
    set (m := Float64.fl _) in *.
    assert (D : (2 * originShift * (2 # 9007199254740992) <= 1 # 100000000)%Q)
      by (vm_compute; discriminate).
    unfold tileSize in N.
    rewrite inject_Z_mult, inject_Z_plus in N. rewrite inject_Z_mult in Hw.
    unfold Z.sub. rewrite !inject_Z_plus, !inject_Z_opp.
    change (inject_Z 256) with 256%Q in *. change (inject_Z 1) with 1%Q in *.
    set (r := Resolution zoom) in *.
    set (T := inject_Z ty) in *. set (P := inject_Z (2 ^ zoom)) in *.
    apply Qabs_Qle_condition. split; lra.
Qed.

Lemma GoogleTile_flips_rows_witness :
  0 <= 3 /\
  (let '(gx, gy) := GoogleTile 2 5 3 in
   GoogleTile gx gy 3 = (2, 5) /\
   tile_in_range 3 gx gy = tile_in_range 3 2 5 /\
   (tile_in_range 3 2 5 = true ->
    let '(_, _, _, maxy) := TileBounds 2 5 3 in
    (Qabs (maxy - (originShift - inject_Z gy * (256 * Resolution 3)))
     <= 1 # 100000000)%Q)).
Proof.
  split; [lia | apply (GoogleTile_flips_rows 3 2 5); lia].
Defined.

End MercatorPyramid.

Section QuadKeys.

Import GlobalMercator MercatorTiles.

Lemma string_append_assoc (a b c : string) :
  String.append (String.append a b) c = String.append a (String.append b c).
Proof. induction a as [| ch a IH]; cbn; [reflexivity | now rewrite IH]. Qed.

Lemma string_append_nil_r (a : string) : String.append a EmptyString = a.
Proof. induction a as [| ch a IH]; cbn; [reflexivity | now rewrite IH]. Qed.

Lemma string_length_append (a b : string) :
  String.length (String.append a b) = (String.length a + String.length b)%nat.
Proof. induction a as [| ch a IH]; cbn; [reflexivity | now rewrite IH]. Qed.

Lemma fold_append_acc {A : Type} (g : A -> string) (l : list A) (acc : string) :
  fold_left (fun k i => String.append k (g i)) l acc
  = String.append acc (fold_left (fun k i => String.append k (g i)) l EmptyString).
Proof.
  revert acc. induction l as [| a l IH]; intros acc; cbn.
  - now rewrite string_append_nil_r.
  - rewrite IH, (IH (g a)). now rewrite string_append_assoc.
Qed.

Lemma fold_append_length {A : Type} (g : A -> string) (l : list A) :
  (forall a, String.length (g a) = 1%nat) ->
  String.length (fold_left (fun k i => String.append k (g i)) l EmptyString)
  = List.length l.
Proof.
  intros Hg. induction l as [| a l IH]; cbn; [reflexivity|].
  rewrite fold_append_acc, string_length_append, Hg, IH. reflexivity.
Qed.

Lemma fold_append_map {A B : Type} (f : A -> B) (g : B -> string) (l : list A)
      (acc : string) :
  fold_left (fun k i => String.append k (g i)) (map f l) acc
  = fold_left (fun k i => String.append k (g (f i))) l acc.
Proof. revert acc. induction l as [| a l IH]; intros acc; cbn; auto. Qed.

Lemma fold_append_ext {A : Type} (g h : A -> string) (l : list A) (acc : string) :
  (forall a, In a l -> g a = h a) ->
  fold_left (fun k i => String.append k (g i)) l acc
  = fold_left (fun k i => String.append k (h i)) l acc.
Proof.
  revert acc. induction l as [| a l IH]; intros acc H; cbn; [reflexivity|].
  rewrite (H a) by now left. apply IH. intros b Hb. apply H. now right.
Qed.

Lemma range_down_succ (z : Z) :
  0 <= z ->
  Py.range_down (z + 1) 0 = map (fun i => i + 1) (Py.range_down z 0) ++ [1].
Proof.
  intros Hz. unfold Py.range_down.
  replace (Z.to_nat (z + 1 - 0)) with (S (Z.to_nat (z - 0))) by lia.
  rewrite seq_S, map_app, map_map. cbn [map Nat.add]. f_equal.
  - apply map_ext. intros k. lia.
  - f_equal. lia.
Qed.

(** [x & (1 << i)] is non-zero exactly when bit [i] of [x] is set. *)
Lemma land_mask_testbit (x i : Z) :
  0 <= i -> negb (Z.land x (Z.shiftl 1 i) =? 0) = Z.testbit x i.
Proof.
  intros Hi. rewrite Z.shiftl_1_l.
  destruct (Z.testbit x i) eqn:E.
  - assert (H : Z.land x (2 ^ i) = 2 ^ i).
    { apply Z.bits_inj'. intros n Hn.
      rewrite Z.land_spec, Z.pow2_bits_eqb by assumption.
      destruct (Z.eqb_spec i n) as [-> | _]; [now rewrite E | apply andb_false_r]. }
    rewrite H. assert (0 < 2 ^ i) by (apply Z.pow_pos_nonneg; lia).
    destruct (Z.eqb_spec (2 ^ i) 0); [lia | reflexivity].
  - assert (H : Z.land x (2 ^ i) = 0).
    { apply Z.bits_inj'. intros n Hn.
      rewrite Z.land_spec, Z.pow2_bits_eqb, Z.bits_0 by assumption.
      destruct (Z.eqb_spec i n) as [-> | _]; [now rewrite E | apply andb_false_r]. }
    now rewrite H.
Qed.

Lemma quad_digit_bits (tx ty i : Z) :
  1 <= i ->
  quad_digit tx ty i
  = Z.b2z (Z.testbit tx (i - 1)) + 2 * Z.b2z (Z.testbit ty (i - 1)).
Proof.
  intros Hi. unfold quad_digit. cbv zeta.
  rewrite !land_mask_testbit by lia.
  destruct (Z.testbit tx (i - 1)), (Z.testbit ty (i - 1)); reflexivity.
Qed.

Lemma testbit_double_plus (a b n : Z) :
  0 <= b <= 1 -> 0 <= n -> Z.testbit (2 * a + b) (n + 1) = Z.testbit a n.
Proof.
  intros Hb Hn.
  assert (E : b = Z.b2z (negb (b =? 0))).
  { destruct (Z.eqb_spec b 0); cbn; lia. }
  rewrite E. apply Z.testbit_succ_r. assumption.
Qed.

Lemma testbit_double_plus_0 (a b : Z) :
  0 <= b <= 1 -> Z.b2z (Z.testbit (2 * a + b) 0) = b.
Proof.
  intros Hb.
  assert (E : b = Z.b2z (negb (b =? 0))).
  { destruct (Z.eqb_spec b 0); cbn; lia. }
  rewrite E at 1. rewrite Z.testbit_0_r. now rewrite <- E.
Qed.

(** X5. The quadtree key of a tile has one digit per zoom level, and the
    key of a child tile is the key of its parent followed by the digit of
    its quadrant: 0 and 1 for the upper row (the one with the larger TMS
    row), 2 and 3 for the lower one. *)
Theorem QuadTree_child_extends_parent (zoom tx ty dx dy : Z) :
  0 <= zoom -> 0 <= dx <= 1 -> 0 <= dy <= 1 ->
  String.length (QuadTree tx ty zoom) = Z.to_nat zoom /\
  QuadTree (2 * tx + dx) (2 * ty + dy) (zoom + 1)
  = String.append (QuadTree tx ty zoom) (str_digit (dx + 2 * (1 - dy))).
Proof.
  intros Hz Hdx Hdy. split.
  - unfold QuadTree. cbv zeta. rewrite fold_append_length by reflexivity.
    unfold Py.range_down. rewrite length_map, length_seq. lia.
  - unfold QuadTree. cbv zeta.
    rewrite range_down_succ, fold_left_app by assumption.
    cbn [fold_left]. f_equal.
    + rewrite fold_append_map. apply fold_append_ext.
      intros i Hi. apply in_py_range_down in Hi.
      rewrite !quad_digit_bits by lia.
      replace (i + 1 - 1) with (i - 1 + 1) by lia.
      replace (2 ^ (zoom + 1) - 1 - (2 * ty + dy))
        with (2 * (2 ^ zoom - 1 - ty) + (1 - dy))
        by (rewrite Z.pow_add_r, Z.pow_1_r by lia; lia).
      rewrite !testbit_double_plus by lia. reflexivity.
    + rewrite quad_digit_bits by lia.
      replace (2 ^ (zoom + 1) - 1 - (2 * ty + dy))
        with (2 * (2 ^ zoom - 1 - ty) + (1 - dy))
        by (rewrite Z.pow_add_r, Z.pow_1_r by lia; lia).
      change (1 - 1) with 0.
      rewrite !testbit_double_plus_0 by lia. reflexivity.
Qed.

Lemma QuadTree_child_extends_parent_witness :
  0 <= 2 /\ 0 <= 1 <= 1 /\ 0 <= 0 <= 1 /\
  String.length (QuadTree 1 2 2) = Z.to_nat 2 /\
  QuadTree (2 * 1 + 1) (2 * 2 + 0) (2 + 1)
  = String.append (QuadTree 1 2 2) (str_digit (1 + 2 * (1 - 0))).
Proof.
  split; [lia | split; [lia | split; [lia |]]].
  apply (QuadTree_child_extends_parent 2 1 2 1 0); lia.
Defined.

(** X6. On the integer pixel rows of the pyramid of a zoom below 32
    [PixelsToRaster] is exact: it returns the row counted from the top of
    the map, applying it twice gives the row back, and the result lies as
    far below the upper edge of the flipped row of [GoogleTile] as the
    pixel lies below the upper edge of the TMS tile row [ty]. *)
Theorem PixelsToRaster_flips_rows (zoom tx ty py : Z) (px : Q) :
  0 <= zoom < MAXZOOMLEVEL -> 0 <= py <= 256 * 2 ^ zoom ->
  exists ry,
    PixelsToRaster px (inject_Z py) zoom = Some (px, ry) /\
    (ry == inject_Z (256 * 2 ^ zoom - py))%Q /\
    (exists qy, PixelsToRaster px ry zoom = Some (px, qy) /\
                (qy == inject_Z py)%Q) /\
    (let '(_, gy) := GoogleTile tx ty zoom in
     ry - inject_Z (gy * 256) == inject_Z ((ty + 1) * 256 - py))%Q.
Proof.
  unfold MAXZOOMLEVEL. intros Hz Hp. unfold PixelsToRaster, lshift, tileSize.
  destruct (Z.ltb_spec zoom 0); [lia|].
  rewrite Z.shiftl_mul_pow2 by lia.
  assert (U : 2 ^ zoom <= 2 ^ 31) by (apply Z.pow_le_mono_r; lia).
  assert (L : 0 < 2 ^ zoom) by (apply Z.pow_pos_nonneg; lia).
  assert (E1 : (Float64.fl (inject_Z (256 * 2 ^ zoom) - inject_Z py)
                == inject_Z (256 * 2 ^ zoom - py))%Q).
  { rewrite (fl_comp _ (inject_Z (256 * 2 ^ zoom - py))).
    - apply fl_Z. change (2 ^ 53) with 9007199254740992. lia.
    - unfold Z.sub. now rewrite inject_Z_plus, inject_Z_opp. }
  eexists. split; [reflexivity|]. split; [exact E1|]. split.
  - eexists. split; [reflexivity|].
    rewrite (fl_comp _ (inject_Z py)).
    + apply fl_Z. change (2 ^ 53) with 9007199254740992. lia.
    + rewrite E1. unfold Z.sub. rewrite inject_Z_plus, inject_Z_opp. ring.
  - unfold GoogleTile. rewrite E1. unfold Qminus.
    rewrite <- inject_Z_opp, <- inject_Z_plus, inject_Z_injective. lia.
Qed.

Lemma PixelsToRaster_flips_rows_witness :
  0 <= 2 < MAXZOOMLEVEL /\ 0 <= 300 <= 256 * 2 ^ 2 /\
  exists ry,
    PixelsToRaster 10 (inject_Z 300) 2 = Some (10%Q, ry) /\
    (ry == inject_Z (256 * 2 ^ 2 - 300))%Q /\
    (exists qy, PixelsToRaster 10 ry 2 = Some (10%Q, qy) /\
                (qy == inject_Z 300)%Q) /\
    (let '(_, gy) := GoogleTile 0 1 2 in
     ry - inject_Z (gy * 256) == inject_Z ((1 + 1) * 256 - 300))%Q.
Proof.
  split; [unfold MAXZOOMLEVEL; lia | split; [lia |]].
  apply (PixelsToRaster_flips_rows 2 0 1 300 10); [unfold MAXZOOMLEVEL; lia | lia].
Defined.

End QuadKeys.

Section MercatorRanges.

Import GlobalMercator.

Lemma nth_error_py_range (a b : Z) (k : nat) :
  (k < Z.to_nat (b - a))%nat -> nth_error (Py.range a b) k = Some (a + Z.of_nat k).
Proof.
  intros Hk. unfold Py.range.
  rewrite nth_error_map, nth_error_seq.
  destruct (Nat.ltb_spec k (Z.to_nat (b - a))); [reflexivity | lia].
Qed.

Lemma length_py_range (a b : Z) : List.length (Py.range a b) = Z.to_nat (b - a).
Proof. unfold Py.range. now rewrite length_map, length_seq. Qed.


Lemma list_get_map_range_out {A : Type} (f : Z -> A) (n tz : Z) :
  0 <= n <= tz -> list_get (map f (Py.range 0 n)) tz = Raise IndexError.
Proof.
  intros H. unfold list_get. rewrite length_map, length_py_range.
  destruct (Z.ltb_spec tz 0); [lia|].
  replace (Z.of_nat (Z.to_nat (n - 0))) with n by lia.
  destruct (Z.leb_spec 0 tz); [| lia]. destruct (Z.ltb_spec tz n); [lia|].
  reflexivity.
Qed.












End MercatorRanges.

Section RasterProfile.

Lemma res_map_nth {A B : Type} (f : A -> res B) (l : list A) (l' : list B) :
  res_map f l = Ok l' ->
  List.length l' = List.length l /\
  forall k a, nth_error l k = Some a ->
              exists b, f a = Ok b /\ nth_error l' k = Some b.
Proof.
  revert l'. induction l as [| x l IH]; intros l' H; cbn in H.
  - injection H as <-. split; [reflexivity|]. intros [|k] a E; discriminate.
  - destruct (f x) as [b | e] eqn:Ef; cbn in H; [| discriminate].
    destruct (res_map f l) as [bs | e] eqn:Er; cbn in H; [| discriminate].
    injection H as <-. destruct (IH bs eq_refl) as [Hl Hn].
    split; [cbn; now rewrite Hl|].
    intros [|k] a E; cbn in E.
    + injection E as <-. exists b. now split.
    + apply Hn in E. exact E.
Qed.

Lemma list_get_nth {A : Type} (l : list A) (i : Z) (a : A) :
  0 <= i -> nth_error l (Z.to_nat i) = Some a -> list_get l i = Ok a.
Proof.
  intros Hi E. unfold list_get.
  assert (Hlen : (Z.to_nat i < List.length l)%nat).
  { apply nth_error_Some. rewrite E. discriminate. }
  destruct (Z.ltb_spec i 0); [lia|].
  destruct (Z.leb_spec 0 i); [| lia].
  destruct (Z.ltb_spec i (Z.of_nat (List.length l))); [| lia].
  cbn [andb]. now rewrite E.
Qed.

(** The entries of the two tables at a zoom of the table. *)
Lemma raster_tables_entry ds tilesize nativezoom tmaxz tminmax tsize tz :
  raster_tables ds tilesize nativezoom tmaxz = Ok (tminmax, tsize) ->
  0 <= tz <= tmaxz ->
  exists r t, raster_level ds tilesize nativezoom tz = Ok (r, t) /\
              list_get tminmax tz = Ok r /\ list_get tsize tz = Ok t.
Proof.
  intros H Hz. unfold raster_tables in H.
  destruct (res_map _ _) as [l | e] eqn:Er; cbn in H; [| discriminate].
  injection H as <- <-.
  destruct (res_map_nth _ _ _ Er) as [_ Hn].
  destruct (Hn (Z.to_nat tz) tz) as [[r t] [Hf Ht]].
  { rewrite nth_error_py_range by lia. f_equal. lia. }
  exists r, t. split; [exact Hf|].
  split; apply list_get_nth; try lia; rewrite nth_error_map, Ht; reflexivity.
Qed.

Lemma int_float (n : Z) : Py.int (Py.float n) = n.
Proof.
  unfold Py.int, Py.float.
  destruct (Qle_bool 0 (inject_Z n)); [apply Qfloor_Z | apply Qceiling_Z].
Qed.

(** [ceil(X / t)] for positive integers: the least [c] with [X <= c * t]. *)
Lemma ceil_quotient (X t : Z) :
  0 < t ->
  let c := Py.ceil (inject_Z X / inject_Z t) in
  (c - 1) * t < X <= c * t.
Proof.
  intros Ht c. unfold Py.ceil in c.
  assert (Hq : (0 < inject_Z t)%Q).
  { change 0%Q with (inject_Z 0). now rewrite <- Zlt_Qlt. }
  assert (U := Qle_ceiling (inject_Z X / inject_Z t)).
  assert (L := Qceiling_lt (inject_Z X / inject_Z t)). fold c in U, L.
  split.
  - assert (L' : (inject_Z (c - 1) * inject_Z t < inject_Z X)%Q).
    { setoid_replace (inject_Z X) with (inject_Z X / inject_Z t * inject_Z t)%Q
        by (field; lra).
      apply Qmult_lt_compat_r; [exact Hq | exact L]. }
    rewrite <- inject_Z_mult, <- Zlt_Qlt in L'. exact L'.
  - assert (U' : (inject_Z X <= inject_Z c * inject_Z t)%Q).
    { setoid_replace (inject_Z X) with (inject_Z X / inject_Z t * inject_Z t)%Q
        by (field; lra).
      apply Qmult_le_compat_r; [exact U | lra]. }
    rewrite <- inject_Z_mult, <- Zle_Qle in U'. exact U'.
Qed.

(** The size of the last tile of a row or column: the remainder, or a
    whole tile when the raster ends at a tile boundary. *)
Lemma edge_size (X t m : Z) :
  0 < t -> m * t < X <= (m + 1) * t ->
  m * t + (if X mod t =? 0 then t else X mod t) = X.
Proof.
  intros Ht H.
  assert (D := Z.div_mod X t ltac:(lia)).
  assert (B := Z.mod_pos_bound X t Ht).
  destruct (Z.eqb_spec (X mod t) 0) as [E | E].
  - rewrite E in D. assert (X / t = m + 1) by nia. nia.
  - assert (X / t = m) by nia. nia.
Qed.

Lemma scaled_size (r t ts : Z) :
  0 < r <= t -> 0 < ts ->
  0 <= Py.int (Py.float r / Py.float t * Py.float ts) <= ts.
Proof.
  intros Hr Hts. unfold Py.float.
  assert (Ht : (0 < inject_Z t)%Q).
  { change 0%Q with (inject_Z 0). rewrite <- Zlt_Qlt. lia. }
  assert (Hr0 : (0 < inject_Z r)%Q).
  { change 0%Q with (inject_Z 0). rewrite <- Zlt_Qlt. lia. }
  assert (Hrt : (inject_Z r <= inject_Z t)%Q) by (rewrite <- Zle_Qle; lia).
  assert (Hs : (0 < inject_Z ts)%Q).
  { change 0%Q with (inject_Z 0). now rewrite <- Zlt_Qlt. }
  assert (F0 : (0 <= inject_Z r / inject_Z t)%Q).
  { apply Qle_shift_div_l; [assumption | lra]. }
  assert (F1 : (inject_Z r / inject_Z t <= 1)%Q).
  { apply Qle_shift_div_r; [assumption | lra]. }
  split.
  - apply int_lower; [lia|]. change (inject_Z 0) with 0%Q.
    apply Qmult_le_0_compat; lra.
  - apply int_upper; [lia|].
    setoid_replace (inject_Z ts) with (1 * inject_Z ts)%Q at 2 by ring.
    apply Qmult_le_compat_r; lra.
Qed.

(** X9. In the raster profile, with the tables of [open_input] and at a
    zoom up to the native one, every tile of the range of the zoom gets a
    read window inside the raster and a write window inside the tile. *)
Theorem raster_base_windows_in_bounds (self : GDAL2Mbtiles) (tz tx ty : Z) :
  opt_profile (options self) = raster ->
  raster_tables (out_ds self) (tilesize self) (nativezoom self) (tmaxz self)
  = Ok (tminmax self, tsize self) ->
  0 < tilesize self ->
  0 < RasterXSize (out_ds self) -> 0 < RasterYSize (out_ds self) ->
  0 <= tz <= tmaxz self -> tz <= nativezoom self ->
  in_range (zoom_range self tz) tx ty = true ->
  let '(_, _, tmaxx, tmaxy) := zoom_range self tz in
  exists rb wb q,
    base_windows self tmaxx tmaxy tx ty tz = Ok (rb, wb, q) /\
    windows_in_bounds (out_ds self) (tilesize self) (rb, wb).
Proof.
  intros Hp Htab Hts HX HY Hz Hnz Hin.
  destruct (raster_tables_entry _ _ _ _ _ _ tz Htab Hz) as (r & t & Hl & Hr & Ht).
  unfold zoom_range in *. rewrite Hr in *.
  unfold raster_level in Hl. cbv zeta in Hl.
  set (k := nativezoom self - tz) in *.
  assert (Hk : 0 <= k) by (unfold k; lia).
  assert (Pk : 0 < 2 ^ k) by (apply Z.pow_pos_nonneg; lia).
  unfold pow2_float in Hl. destruct (Z.leb_spec 0 k); [| lia].
  unfold Py.float in Hl. rewrite <- inject_Z_mult in Hl.
  set (T := 2 ^ k * tilesize self) in *.
  assert (HT : 0 < T) by (unfold T; nia).
  assert (HTq : ~ (inject_Z T == 0)%Q).
  { intros E. unfold Qeq in E. cbn in E. lia. }
  rewrite !fdiv_nonzero in Hl by assumption. cbn [res_bind] in Hl.
  unfold Py.ceil at 3 in Hl. rewrite Qceiling_Z in Hl.
  injection Hl as <- <-.
  assert (CX := ceil_quotient (RasterXSize (out_ds self)) T HT).
  assert (CY := ceil_quotient (RasterYSize (out_ds self)) T HT).
  cbv zeta in CX, CY.
  set (cx := Py.ceil (inject_Z (RasterXSize (out_ds self)) / inject_Z T)) in *.
  set (cy := Py.ceil (inject_Z (RasterYSize (out_ds self)) / inject_Z T)) in *.
  unfold in_range in Hin. rewrite !andb_true_iff, !Z.leb_le in Hin.
  destruct Hin as [[[Hx0 Hx1] Hy0] Hy1].
  unfold base_windows. rewrite Hp, Ht. cbn [res_bind]. cbv zeta.
  set (X := RasterXSize (out_ds self)) in *.
  set (Y := RasterYSize (out_ds self)) in *.
  assert (EX := edge_size X T (cx - 1) HT ltac:(lia)).
  assert (EY := edge_size Y T (cy - 1) HT ltac:(lia)).
  assert (BX := Z.mod_pos_bound X T HT).
  assert (BY := Z.mod_pos_bound Y T HT).
  assert (ZX : zmod X T = Ok (X mod T)).
  { unfold zmod. destruct (Z.eqb_spec T 0); [lia | reflexivity]. }
  assert (ZY : zmod Y T = Ok (Y mod T)).
  { unfold zmod. destruct (Z.eqb_spec T 0); [lia | reflexivity]. }
  (* the sizes of the read window *)
  set (rxsize := if tx =? cx - 1
                 then (if X mod T =? 0 then T else X mod T) else T).
  set (rysize := if ty =? cy - 1
                 then (if Y mod T =? 0 then T else Y mod T) else T).
  assert (Rx : 0 < rxsize <= T /\ tx * T + rxsize <= X).
  { unfold rxsize. destruct (Z.eqb_spec tx (cx - 1)) as [-> | N].
    - destruct (Z.eqb_spec (X mod T) 0); lia.
    - nia. }
  assert (Ry : 0 < rysize <= T /\ ty * T + rysize <= Y).
  { unfold rysize. destruct (Z.eqb_spec ty (cy - 1)) as [-> | N].
    - destruct (Z.eqb_spec (Y mod T) 0); lia.
    - nia. }
  assert (Ex : (rxsize0 <- (if tx =? cx - 1 then zmod X T else Ok 0) ;;
                Ok (if rxsize0 =? 0 then T else rxsize0))%res = Ok rxsize).
  { unfold rxsize. destruct (tx =? cx - 1); [rewrite ZX |]; reflexivity. }
  assert (Ey : (rysize0 <- (if ty =? cy - 1 then zmod Y T else Ok 0) ;;
                Ok (if rysize0 =? 0 then T else rysize0))%res = Ok rysize).
  { unfold rysize. destruct (ty =? cy - 1); [rewrite ZY |]; reflexivity. }
  assert (Sx := scaled_size rxsize T (tilesize self) (proj1 Rx) Hts).
  assert (Sy := scaled_size rysize T (tilesize self) (proj1 Ry) Hts).
  assert (HTf : ~ (Py.float T == 0)%Q) by exact HTq.
  destruct (tx =? cx - 1) eqn:Etx; destruct (ty =? cy - 1) eqn:Ety;
    rewrite ?ZX, ?ZY; cbn [res_bind];
    rewrite !fdiv_nonzero by assumption; cbn [res_bind];
    eexists _, _, _; (split; [reflexivity|]);
    unfold windows_in_bounds;
    change (RasterXSize (out_ds self)) with X;
    change (RasterYSize (out_ds self)) with Y;
    change (0 =? 0) with true; cbv iota;
    unfold rxsize, rysize in *; clear Ex Ey;
    repeat match goal with
           | H : context [Py.int ?e] |- _ =>
               let v := fresh "w" in set (v := Py.int e) in *; clearbody v
           end;
    clearbody X Y T cx cy;
    repeat match goal with
           | |- context [negb (?a =? ?b)] =>
               destruct (Z.eqb_spec a b); cbn [negb]
           | H : context [if ?a =? ?b then _ else _] |- _ =>
               destruct (Z.eqb_spec a b)
           end; nia.
Qed.

Lemma raster_base_windows_in_bounds_witness :
  let '(_, _, tmaxx, tmaxy) := zoom_range sample_raster 2 in
  exists rb wb q,
    base_windows sample_raster tmaxx tmaxy 3 3 2 = Ok (rb, wb, q) /\
    windows_in_bounds (out_ds sample_raster) (tilesize sample_raster) (rb, wb).
Proof.
  apply (raster_base_windows_in_bounds sample_raster 2 3 3);
    try reflexivity; cbn; lia.
Defined.

End RasterProfile.

Section GeodeticProfile.

Import GeodeticTiles.

Lemma geodetic_res_pos (zoom : Z) :
  0 <= zoom -> (0 < 180 / inject_Z tileSize / inject_Z (2 ^ zoom))%Q.
Proof.
  intros Hz. assert (P := pow2_pos zoom Hz).
  apply Qlt_shift_div_l; [assumption|]. rewrite Qmult_0_l. reflexivity.
Qed.

(** The geodetic resolution is a binary64 number, [45 * 2^(-6 - zoom)],
    and so are its small integer multiples. *)
Lemma geodetic_res_pow2 (zoom : Z) :
  0 <= zoom ->
  (180 / 256 / inject_Z (2 ^ zoom) == inject_Z 45 * 2 ^ (-6 - zoom))%Q.
Proof.
  intros Hz. assert (P := two_pos zoom).
  rewrite two_inject by assumption.
  unfold Z.sub. rewrite two_plus, Qpower_opp.
  change (2 ^ (-6))%Q with (1 # 64)%Q. change (inject_Z 45) with 45%Q.
  field. lra.
Qed.

Lemma geodetic_multiple_exact (zoom n : Z) :
  0 <= zoom -> Z.abs (n * 45) <= 2 ^ 53 ->
  (Float64.fl (inject_Z n * (180 / 256 / inject_Z (2 ^ zoom)))
   == inject_Z n * (180 / 256 / inject_Z (2 ^ zoom)))%Q.
Proof.
  intros Hz Hn. apply (fl_exact _ (n * 45) (-6 - zoom)); [| assumption].
  rewrite (geodetic_res_pow2 zoom Hz), inject_Z_mult. ring.
Qed.

(** The edges of the tiles of the pyramid are binary64 numbers:
    [TileBounds] computes them without rounding; [o] is 180 or 90. *)
Lemma geodetic_bound_exact (zoom t o : Z) :
  0 <= zoom < MAXZOOMLEVEL -> 0 <= t <= 2 ^ (zoom + 1) -> 0 <= o <= 180 ->
  let r := (180 / 256 / inject_Z (2 ^ zoom))%Q in
  (Float64.fl (Float64.fl (inject_Z (t * 256) * r) - inject_Z o)
   == inject_Z t * 256 * r - inject_Z o)%Q.
Proof.
  unfold MAXZOOMLEVEL. intros Hz Ht Ho. cbv zeta.
  assert (Z0 : 0 <= zoom) by lia.
  assert (U : 2 ^ (zoom + 1) <= 2 ^ 32) by (apply Z.pow_le_mono_r; lia).
  change (2 ^ 32) with 4294967296 in U.
  assert (V : 2 ^ (6 + zoom) <= 2 ^ 37) by (apply Z.pow_le_mono_r; lia).
  assert (V0 : 0 < 2 ^ (6 + zoom)) by (apply Z.pow_pos_nonneg; lia).
  change (2 ^ 37) with 137438953472 in V.
  assert (E := geodetic_multiple_exact zoom (t * 256) Z0
                 ltac:(change (2 ^ 53) with 9007199254740992; lia)).
  rewrite (fl_comp _ (inject_Z (t * 256) * (180 / 256 / inject_Z (2 ^ zoom))
                      - inject_Z o))
    by (rewrite E; reflexivity).
  rewrite (fl_exact _ (t * 256 * 45 - o * 2 ^ (6 + zoom)) (-6 - zoom)).
  - rewrite inject_Z_mult. change (inject_Z 256) with 256%Q. reflexivity.
  - rewrite (geodetic_res_pow2 zoom Z0).
    replace (-6 - zoom) with (- (6 + zoom)) by lia. rewrite Qpower_opp.
    replace (t * 256 * 45 - o * 2 ^ (6 + zoom))
      with (t * 256 * 45 + - (o * 2 ^ (6 + zoom))) by lia.
    rewrite inject_Z_plus, inject_Z_opp, !inject_Z_mult.
    rewrite (two_inject (6 + zoom)) by lia.
    assert (P := two_pos (6 + zoom)). set (p := (2 ^ (6 + zoom))%Q) in *.
    field. lra.
  - change (2 ^ 53) with 9007199254740992. nia.
Qed.

(** One coordinate of a point that lies at least one pixel above the lower
    edge of the tile [t] and up to its upper edge; [o] is 180 or 90. *)
Lemma geodetic_inside_coord (zoom t : Z) (o v : Q) :
  0 <= zoom < MAXZOOMLEVEL -> 0 <= t < 2 ^ (zoom + 1) ->
  let r := (180 / 256 / inject_Z (2 ^ zoom))%Q in
  (inject_Z t * 256 * r + r <= o + v)%Q ->
  (o + v <= inject_Z (t + 1) * 256 * r)%Q ->
  Py.ceil (Float64.fl (Float64.fl (o + v) / r) / 256) - 1 = t.
Proof.
  unfold MAXZOOMLEVEL. intros Hz Ht. cbv zeta. intros Hlo Hhi.
  assert (Z0 : 0 <= zoom) by lia.
  assert (Hr := geodetic_res_pos zoom Z0). unfold tileSize in Hr.
  change (inject_Z 256) with 256%Q in Hr.
  assert (U : 2 ^ (zoom + 1) <= 2 ^ 32) by (apply Z.pow_le_mono_r; lia).
  change (2 ^ 32) with 4294967296 in U.
  assert (EL := geodetic_multiple_exact zoom (256 * t + 1) Z0
                  ltac:(change (2 ^ 53) with 9007199254740992; lia)).
  assert (EU := geodetic_multiple_exact zoom (256 * (t + 1)) Z0
                  ltac:(change (2 ^ 53) with 9007199254740992; lia)).
  set (r := (180 / 256 / inject_Z (2 ^ zoom))%Q) in *.
  set (a := Float64.fl (o + v)).
  assert (AL : (inject_Z (256 * t + 1) * r <= a)%Q).
  { rewrite <- EL. apply fl_mono.
    rewrite inject_Z_plus, inject_Z_mult. change (inject_Z 256) with 256%Q.
    change (inject_Z 1) with 1%Q. lra. }
  assert (AU : (a <= inject_Z (256 * (t + 1)) * r)%Q).
  { rewrite <- EU. apply fl_mono.
    rewrite inject_Z_mult. change (inject_Z 256) with 256%Q. lra. }
  assert (DL : (inject_Z (256 * t + 1) <= a / r)%Q).
  { apply Qle_shift_div_l; assumption. }
  assert (DU : (a / r <= inject_Z (256 * (t + 1)))%Q).
  { apply Qle_shift_div_r; assumption. }
  assert (PL : (inject_Z (256 * t + 1) <= Float64.fl (a / r))%Q).
  { rewrite <- (fl_Z (256 * t + 1)) by (change (2 ^ 53) with 9007199254740992; lia).
    now apply fl_mono. }
  assert (PU : (Float64.fl (a / r) <= inject_Z (256 * (t + 1)))%Q).
  { rewrite <- (fl_Z (256 * (t + 1))) by (change (2 ^ 53) with 9007199254740992; lia).
    now apply fl_mono. }
  rewrite inject_Z_plus, inject_Z_mult in PL. rewrite inject_Z_mult in PU.
  change (inject_Z 256) with 256%Q in *. change (inject_Z 1) with 1%Q in *.
  apply ceil_in_tile.
  - apply Qlt_shift_div_l; [reflexivity | lra].
  - apply Qle_shift_div_r; [reflexivity | lra].
Qed.

(** X10. In the geodetic profile, below zoom 32, a point that lies at
    least one pixel (one resolution unit) above the lower and left edges of
    a tile of the pyramid and up to its upper and right edges is mapped by
    [LatLonToTile] to that tile.  Nearer to the lower and left edges the
    rounding of the sum decides. *)
Theorem LatLonToTile_inside_tile (zoom tx ty : Z) (x y : Q) :
  0 <= zoom < MAXZOOMLEVEL -> 0 <= tx < 2 ^ (zoom + 1) -> 0 <= ty < 2 ^ zoom ->
  (let '(minx, miny, maxx, maxy) := GlobalGeodetic.TileBounds tx ty zoom in
   minx + Resolution zoom <= x /\ x <= maxx /\
   miny + Resolution zoom <= y /\ y <= maxy)%Q ->
  LatLonToTile x y zoom = (tx, ty).
Proof.
  intros Hz Hx Hy.
  assert (Hy' : 0 <= ty < 2 ^ (zoom + 1)).
  { rewrite Z.pow_add_r, Z.pow_1_r by lia. lia. }
  unfold GlobalGeodetic.TileBounds, LatLonToTile, LatLonToPixels, PixelsToTile,
    Resolution.
  cbv zeta. cbv beta iota. unfold GlobalGeodetic.tileSize.
  assert (A0 := geodetic_bound_exact zoom tx 180 Hz ltac:(lia) ltac:(lia)).
  assert (A1 := geodetic_bound_exact zoom (tx + 1) 180 Hz ltac:(lia) ltac:(lia)).
  assert (B0 := geodetic_bound_exact zoom ty 90 Hz ltac:(lia) ltac:(lia)).
  assert (B1 := geodetic_bound_exact zoom (ty + 1) 90 Hz ltac:(lia) ltac:(lia)).
  cbv zeta in A0, A1, B0, B1.
  change (inject_Z 180) with 180%Q in *. change (inject_Z 90) with 90%Q in *.
  unfold Py.float, tileSize in *.
  change (inject_Z 256) with 256%Q in *.
  rewrite A0, A1, B0, B1.
  intros (Hx1 & Hx2 & Hy1 & Hy2).
  f_equal.
  - apply (geodetic_inside_coord zoom tx 180 x Hz Hx); cbv zeta; lra.
  - apply (geodetic_inside_coord zoom ty 90 y Hz Hy'); cbv zeta; lra.
Qed.

Lemma LatLonToTile_inside_tile_witness :
  0 <= 2 < MAXZOOMLEVEL /\ 0 <= 5 < 2 ^ (2 + 1) /\ 0 <= 1 < 2 ^ 2 /\
  (let '(minx, miny, maxx, maxy) := GlobalGeodetic.TileBounds 5 1 2 in
   minx + Resolution 2 <= 50 /\ 50 <= maxx /\
   miny + Resolution 2 <= -30 /\ -30 <= maxy)%Q /\
  LatLonToTile 50 (-30) 2 = (5, 1).
Proof.
  assert (H : (let '(minx, miny, maxx, maxy) := GlobalGeodetic.TileBounds 5 1 2 in
               minx + Resolution 2 <= 50 /\ 50 <= maxx /\
               miny + Resolution 2 <= -30 /\ -30 <= maxy)%Q).
  { vm_compute. repeat split; discriminate. }
  split; [unfold MAXZOOMLEVEL; lia | split; [lia | split; [lia | split; [exact H |]]]].
  apply (LatLonToTile_inside_tile 2 5 1 50 (-30));
    [unfold MAXZOOMLEVEL; lia | lia | lia | exact H].
Defined.

(** Just above a left edge the sum [180 + x] rounds down to the edge: at
    zoom 2 the point [x = -45 + 2^-47] lies to the right of the left edge,
    -45, of the column 3 and is given to the column 2. *)
Example LatLonToTile_left_edge_rounds :
  let x := (-45 + (1 # 140737488355328))%Q in
  (fst (fst (fst (GlobalGeodetic.TileBounds 3 0 2))) < x)%Q /\
  fst (LatLonToTile x 0 2) = 2.
Proof. vm_compute. split; reflexivity. Qed.









(** The ranges of the geodetic sample are those of [open_input]. *)
Example geodetic_sample_ranges :
  firstn 2 (geodetic_tminmax geodetic_512) = tminmax sample_geodetic.
Proof. vm_compute. reflexivity. Qed.

End GeodeticProfile.

Section Progress.

Lemma length_py_range_down (a b : Z) :
  List.length (Py.range_down a b) = Z.to_nat (a - b).
Proof. unfold Py.range_down. now rewrite length_map, length_seq. Qed.

Lemma length_rows {A B C : Type} (f : A -> B -> C) (xs : list A) (ys : list B) :
  List.length (flat_map (fun y => map (fun x => f x y) xs) ys)
  = (List.length ys * List.length xs)%nat.
Proof.
  induction ys as [| y ys IH]; cbn; [reflexivity|].
  now rewrite length_app, length_map, IH.
Qed.

Lemma length_tile_order (tminx tminy tmaxx tmaxy : Z) :
  Z.of_nat (List.length (tile_order (tminx, tminy, tmaxx, tmaxy)))
  = Z.max 0 (tmaxy - tminy + 1) * Z.max 0 (tmaxx - tminx + 1).
Proof.
  unfold tile_order. rewrite length_rows, length_py_range, length_py_range_down.
  lia.
Qed.

(** X12. For a range that is not empty the total [tcount] announced on the
    progress queue is the number of tiles that the two loops visit; for an
    empty range the loops visit no tile, while [tcount] stays positive. *)
Theorem tcount_counts_visited_tiles (tminx tminy tmaxx tmaxy : Z) :
  let r := (tminx, tminy, tmaxx, tmaxy) in
  (if (tminx <=? tmaxx) && (tminy <=? tmaxy)
   then tcount r = Z.of_nat (List.length (tile_order r))
   else tile_order r = [] /\ 0 < tcount r).
Proof.
  cbv zeta.
  destruct (Z.leb_spec tminx tmaxx), (Z.leb_spec tminy tmaxy); cbn [andb].
  - rewrite length_tile_order. unfold tcount.
    rewrite !Z.abs_eq, !Z.max_r by lia. ring.
  - split; [| unfold tcount; nia].
    apply length_zero_iff_nil. apply Nat2Z.inj. rewrite length_tile_order. nia.
  - split; [| unfold tcount; nia].
    apply length_zero_iff_nil. apply Nat2Z.inj. rewrite length_tile_order. nia.
  - split; [| unfold tcount; nia].
    apply length_zero_iff_nil. apply Nat2Z.inj. rewrite length_tile_order. nia.
Qed.

Lemma share_step (N cpu ti : Z) :
  0 < N -> 0 <= cpu < N ->
  (ti + 1 + N - 1 - cpu) / N
  = (ti + N - 1 - cpu) / N + (if ti mod N =? cpu then 1 else 0).
Proof.
  intros HN Hc.
  assert (D := Z.div_mod ti N ltac:(lia)).
  assert (B := Z.mod_pos_bound ti N HN).
  set (q := ti / N) in *. set (m := ti mod N) in *.
  destruct (Z.eqb_spec m cpu) as [E | E].
  - rewrite <- (Z.div_unique_pos (ti + 1 + N - 1 - cpu) N (q + 1) 0) by lia.
    rewrite <- (Z.div_unique_pos (ti + N - 1 - cpu) N q (N - 1)) by lia.
    reflexivity.
  - destruct (Z.lt_ge_cases m cpu).
    + rewrite <- (Z.div_unique_pos (ti + 1 + N - 1 - cpu) N q (m + N - cpu)) by lia.
      rewrite <- (Z.div_unique_pos (ti + N - 1 - cpu) N q (m + N - 1 - cpu)) by lia.
      lia.
    + rewrite <- (Z.div_unique_pos (ti + 1 + N - 1 - cpu) N (q + 1) (m - cpu)) by lia.
      rewrite <- (Z.div_unique_pos (ti + N - 1 - cpu) N (q + 1) (m - 1 - cpu)) by lia.
      lia.
Qed.

Lemma length_claimed (N cpu ti : Z) (l : list (Z * Z)) :
  0 < N -> 0 <= cpu < N ->
  Z.of_nat (List.length (claimed N cpu ti l))
  = (ti + Z.of_nat (List.length l) + N - 1 - cpu) / N - (ti + N - 1 - cpu) / N.
Proof.
  intros HN Hc. revert ti. induction l as [| t l IH]; intros ti.
  - cbn. replace (ti + 0 + N - 1 - cpu) with (ti + N - 1 - cpu) by lia. lia.
  - cbn [claimed]. cbv zeta.
    replace (ti + 1 - 1) with ti by lia.
    assert (S := share_step N cpu ti HN Hc).
    replace (ti + Z.of_nat (List.length (t :: l)) + N - 1 - cpu)
      with (ti + 1 + Z.of_nat (List.length l) + N - 1 - cpu)
      by (cbn [List.length]; lia).
    destruct (Z.eqb_spec (ti mod N) cpu) as [E | E]; cbn [negb].
    + cbn [List.length]. rewrite Nat2Z.inj_succ, IH. lia.
    + rewrite IH. lia.
Qed.

(** X13. The round robin is balanced: with [N] workers over [n] tiles, the
    worker [cpu] computes [(n + N - 1 - cpu) / N] of them, so that two
    workers differ by at most one tile. *)
Theorem worker_share_balanced (N cpu cpu' : Z) (r : TileRange) :
  0 < N -> 0 <= cpu < N -> 0 <= cpu' < N ->
  let n := Z.of_nat (List.length (tile_order r)) in
  Z.of_nat (List.length (worker_tiles N cpu r)) = (n + N - 1 - cpu) / N /\
  - 1 <= Z.of_nat (List.length (worker_tiles N cpu r))
         - Z.of_nat (List.length (worker_tiles N cpu' r)) <= 1.
Proof.
  intros HN Hc Hc'. cbv zeta.
  assert (S : forall c, 0 <= c < N ->
                Z.of_nat (List.length (worker_tiles N c r))
                = (Z.of_nat (List.length (tile_order r)) + N - 1 - c) / N).
  { intros c Hcc. unfold worker_tiles. rewrite length_claimed by assumption.
    replace ((0 + N - 1 - c) / N) with 0; [rewrite Z.sub_0_r; f_equal; lia|].
    symmetry. apply Z.div_small. lia. }
  split; [now apply S|].
  rewrite (S cpu Hc), (S cpu' Hc').
  set (n := Z.of_nat (List.length (tile_order r))).
  assert (D : forall a b, a <= b + N -> a / N <= b / N + 1).
  { intros a b Hab. rewrite <- (Z.div_add b 1 N) by lia.
    apply Z.div_le_mono; lia. }
  assert (D1 := D (n + N - 1 - cpu) (n + N - 1 - cpu') ltac:(lia)).
  assert (D2 := D (n + N - 1 - cpu') (n + N - 1 - cpu) ltac:(lia)).
  lia.
Qed.

Lemma worker_share_balanced_witness :
  0 < 2 /\ 0 <= 0 < 2 /\ 0 <= 1 < 2 /\
  (let n := Z.of_nat (List.length (tile_order (0, 0, 2, 2))) in
   Z.of_nat (List.length (worker_tiles 2 0 (0, 0, 2, 2))) = (n + 2 - 1 - 0) / 2 /\
   - 1 <= Z.of_nat (List.length (worker_tiles 2 0 (0, 0, 2, 2)))
          - Z.of_nat (List.length (worker_tiles 2 1 (0, 0, 2, 2))) <= 1).
Proof.
  split; [lia | split; [lia | split; [lia |]]].
  apply (worker_share_balanced 2 0 1 (0, 0, 2, 2)); lia.
Defined.

(** X14. With at least one zoom level, a positive total and a count of
    processed tiles up to the total, [progress_emiter] emits a percentage:
    between 0 and the share of one level in the base phase, between that
    share and 100 in the overview phase. *)
Theorem progress_emiter_percentage (maxz minz processed total : Z) (overview : bool) :
  minz <= maxz -> 0 < total -> 0 <= processed <= total ->
  exists v,
    progress_emiter maxz minz processed total overview = Ok v /\
    0 <= v <= 100 /\
    (if overview then 100 <= (v + 1) * (maxz - minz + 1)
     else v * (maxz - minz + 1) <= 100).
Proof.
  intros Hz Ht Hp. unfold progress_emiter.
  set (L := maxz - minz + 1). assert (HL : 0 < L) by (unfold L; lia).
  rewrite (fdiv_pos _ L HL). cbn [res_bind].
  assert (FL := float_pos L HL). assert (Ft := float_pos total Ht).
  assert (Fp := float_nonneg processed (proj1 Hp)).
  assert (Fpt := float_le processed total (proj2 Hp)).
  assert (F1 : (1 <= Py.float L)%Q).
  { change 1%Q with (Py.float 1). apply float_le. lia. }
  set (base := (Py.float 100 / Py.float L)%Q).
  assert (B0 : (0 < base)%Q).
  { unfold base. apply Qlt_shift_div_l; [assumption|]. rewrite Qmult_0_l. reflexivity. }
  assert (B1 : (base <= 100)%Q).
  { unfold base. apply Qle_shift_div_r; [assumption|].
    change (Py.float 100) with 100%Q. lra. }
  assert (BL : (base * Py.float L == 100)%Q).
  { unfold base. change (Py.float 100) with 100%Q. field. lra. }
  (* the fraction of the tiles that are processed *)
  assert (Fr0 : (0 <= Py.float processed / Py.float total)%Q).
  { apply Qle_shift_div_l; [assumption | lra]. }
  assert (Fr1 : (Py.float processed / Py.float total <= 1)%Q).
  { apply Qle_shift_div_r; [assumption | lra]. }
  set (f := (Py.float processed / Py.float total)%Q) in *.
  destruct overview; cbn [negb]; rewrite (fdiv_pos _ total Ht); cbn [res_bind];
    eexists; (split; [reflexivity|]).
  - (* overview tiles *)
    set (x := (base + Py.float processed * ((100 - base) / Py.float total))%Q).
    assert (Ex : (x == base + f * (100 - base))%Q).
    { unfold x, f. field. lra. }
    assert (X0 : (base <= x)%Q) by (rewrite Ex; nra).
    assert (X1 : (x <= 100)%Q) by (rewrite Ex; nra).
    assert (Hi0 : 0 <= Py.int x).
    { apply int_lower; [lia|]. change (inject_Z 0) with 0%Q. lra. }
    assert (Hi1 : Py.int x <= 100).
    { apply int_upper; [lia|]. change (inject_Z 100) with 100%Q. lra. }
    split; [lia|].
    assert (Hfl : (x < inject_Z (Py.int x + 1))%Q).
    { rewrite int_nonneg by lra. apply Qlt_floor. }
    assert (Hm : (100 < inject_Z (Py.int x + 1) * Py.float L)%Q).
    { rewrite <- BL. apply Qmult_lt_compat_r; [assumption | lra]. }
    unfold Py.float in Hm. rewrite <- inject_Z_mult in Hm.
    change 100%Q with (inject_Z 100) in Hm. rewrite <- Zlt_Qlt in Hm. lia.
  - (* base tiles *)
    set (x := (Py.float processed * (base / Py.float total))%Q).
    assert (Ex : (x == f * base)%Q).
    { unfold x, f. field. lra. }
    assert (X0 : (0 <= x)%Q) by (rewrite Ex; nra).
    assert (X1 : (x <= base)%Q) by (rewrite Ex; nra).
    assert (Hi0 : 0 <= Py.int x).
    { apply int_lower; [lia|]. change (inject_Z 0) with 0%Q. lra. }
    assert (Hi1 : Py.int x <= 100).
    { apply int_upper; [lia|]. change (inject_Z 100) with 100%Q. lra. }
    split; [lia|].
    assert (Hfl : (inject_Z (Py.int x) <= x)%Q).
    { rewrite int_nonneg by lra. apply Qfloor_le. }
    assert (Hm : (inject_Z (Py.int x) * Py.float L <= 100)%Q).
    { rewrite <- BL. apply Qmult_le_compat_r; lra. }
    unfold Py.float in Hm. rewrite <- inject_Z_mult in Hm.
    change 100%Q with (inject_Z 100) in Hm. rewrite <- Zle_Qle in Hm. lia.
Qed.

Lemma progress_emiter_percentage_witness :
  0 <= 2 /\ 0 < 4 /\ 0 <= 3 <= 4 /\
  exists v,
    progress_emiter 2 0 3 4 true = Ok v /\
    0 <= v <= 100 /\
    (if true then 100 <= (v + 1) * (2 - 0 + 1) else v * (2 - 0 + 1) <= 100).
Proof.
  split; [lia | split; [lia | split; [lia |]]].
  apply (progress_emiter_percentage 2 0 3 4 true); lia.
Defined.

End Progress.

Section GeoQueryInside.

Local Open Scope res_scope.

Lemma clip_axis_inside (r rsize wsize RasterSize : Z) :
  0 <= r -> r + rsize <= RasterSize ->
  clip_axis r rsize wsize RasterSize = Ok (r, rsize, 0, wsize).
Proof.
  intros H0 H1. unfold clip_axis. cbv zeta.
  destruct (Z.ltb_spec r 0); [lia|]. cbn [res_bind].
  destruct (Z.gtb_spec (r + rsize) RasterSize); [lia|]. reflexivity.
Qed.

(** An offset and a size that are rounded as in [geo_query] stay inside
    an extent that holds their sum. *)
Lemma int_sum_bound (a b : Q) (S : Z) :
  (0 <= a)%Q -> (0 <= b)%Q -> (a + b <= inject_Z S)%Q ->
  0 <= Py.int (a + (1 # 1000)) /\
  Py.int (a + (1 # 1000)) + Py.int (b + (1 # 2)) <= S.
Proof.
  intros Ha Hb Hab.
  rewrite !int_nonneg by lra.
  assert (F1 := Qfloor_le (a + (1 # 1000))).
  assert (F2 := Qfloor_le (b + (1 # 2))).
  assert (G1 : 0 <= Qfloor (a + (1 # 1000))).
  { rewrite <- (Qfloor_Z 0). apply Qfloor_resp_le. change (inject_Z 0) with 0%Q. lra. }
  split; [exact G1|].
  assert (H : (inject_Z (Qfloor (a + (1 # 1000)) + Qfloor (b + (1 # 2)))
               < inject_Z (S + 1))%Q).
  { rewrite !inject_Z_plus. change (inject_Z 1) with 1%Q. lra. }
  rewrite <- Zlt_Qlt in H. lia.
Qed.

(** X15. A query rectangle that lies inside the extent of a north-up
    raster is not clipped: the read window is the rounded rectangle and the
    write window is the whole query, at offset (0, 0). *)
Theorem geo_query_inside_raster (ds : Dataset) (ulx uly lrx lry : Q) (querysize : Z) :
  let g := GetGeoTransform ds in
  (0 < gt1 g)%Q -> (gt5 g < 0)%Q ->
  (gt0 g <= ulx)%Q -> (ulx <= lrx)%Q ->
  (lrx <= gt0 g + inject_Z (RasterXSize ds) * gt1 g)%Q ->
  (gt3 g + inject_Z (RasterYSize ds) * gt5 g <= lry)%Q ->
  (lry <= uly)%Q -> (uly <= gt3 g)%Q ->
  let rx := Py.int ((ulx - gt0 g) / gt1 g + (1 # 1000)) in
  let ry := Py.int ((uly - gt3 g) / gt5 g + (1 # 1000)) in
  let rxsize := Py.int ((lrx - ulx) / gt1 g + (1 # 2)) in
  let rysize := Py.int ((lry - uly) / gt5 g + (1 # 2)) in
  geo_query ds ulx uly lrx lry querysize
  = Ok ((rx, ry, rxsize, rysize),
        (0, 0, (if querysize =? 0 then rxsize else querysize),
               (if querysize =? 0 then rysize else querysize))) /\
  0 <= rx /\ rx + rxsize <= RasterXSize ds /\
  0 <= ry /\ ry + rysize <= RasterYSize ds.
Proof.
  intros g H1 H5 Hx0 Hx1 Hx2 Hy0 Hy1 Hy2. cbv zeta.
  assert (N1 : ~ (gt1 g == 0)%Q) by lra.
  assert (N5 : ~ (gt5 g == 0)%Q) by lra.
  set (p := (- gt5 g)%Q). assert (Hp : (0 < p)%Q) by (unfold p; lra).
  set (a := ((ulx - gt0 g) / gt1 g)%Q).
  set (b := ((lrx - ulx) / gt1 g)%Q).
  set (c := ((uly - gt3 g) / gt5 g)%Q).
  set (d := ((lry - uly) / gt5 g)%Q).
  assert (Ha : (0 <= a)%Q).
  { unfold a. apply Qle_shift_div_l; [assumption | lra]. }
  assert (Hb : (0 <= b)%Q).
  { unfold b. apply Qle_shift_div_l; [assumption | lra]. }
  assert (Hab : (a + b <= inject_Z (RasterXSize ds))%Q).
  { setoid_replace (a + b)%Q with ((lrx - gt0 g) / gt1 g)%Q
      by (unfold a, b; field; assumption).
    apply Qle_shift_div_r; [assumption | lra]. }
  assert (Ec : (c == (gt3 g - uly) / p)%Q) by (unfold c, p; field; lra).
  assert (Ed : (d == (uly - lry) / p)%Q) by (unfold d, p; field; lra).
  assert (Hc : (0 <= c)%Q).
  { rewrite Ec. apply Qle_shift_div_l; [assumption | lra]. }
  assert (Hd : (0 <= d)%Q).
  { rewrite Ed. apply Qle_shift_div_l; [assumption | lra]. }
  assert (Hcd : (c + d <= inject_Z (RasterYSize ds))%Q).
  { setoid_replace (c + d)%Q with ((gt3 g - lry) / p)%Q
      by (rewrite Ec, Ed; field; lra).
    apply Qle_shift_div_r; [assumption | unfold p; lra]. }
  destruct (int_sum_bound a b _ Ha Hb Hab) as [X0 X1].
  destruct (int_sum_bound c d _ Hc Hd Hcd) as [Y0 Y1].
  split; [| lia].
  rewrite geo_query_by_axis. cbv zeta. fold g.
  rewrite !fdiv_nonzero by assumption. cbn [res_bind].
  fold a b c d.
  rewrite !clip_axis_inside by assumption. reflexivity.
Qed.

Lemma geo_query_inside_raster_witness :
  geo_query raster_1000x800 100 (-200) 356 (-456) 1024
  = Ok ((100, 200, 256, 256), (0, 0, 1024, 1024)) /\
  0 <= 100 /\ 100 + 256 <= RasterXSize raster_1000x800 /\
  0 <= 200 /\ 200 + 256 <= RasterYSize raster_1000x800.
Proof.
  apply (geo_query_inside_raster raster_1000x800 100 (-200) 356 (-456) 1024);
    vm_compute; reflexivity || discriminate.
Defined.

End GeoQueryInside.

Section ResumedBasePhase.

Lemma for_each_noop {A : Type} (l : list A) (body : A -> M unit) (w : world) :
  (forall a, In a l -> body a w = (Ok tt, w)) -> for_each l body w = (Ok tt, w).
Proof.
  induction l as [| a l IH]; intros H; cbn [for_each]; [reflexivity|].
  unfold bind. rewrite (H a) by now left. apply IH. intros b Hb. apply H. now right.
Qed.

Lemma base_tile_resume_skip self tmaxx tmaxy tx ty w :
  opt_resume (options self) = true -> schema w = true ->
  stored w (tmaxz self) tx ty <> None ->
  base_tile self tmaxx tmaxy (tx, ty) w = (Ok tt, w).
Proof.
  intros Hres Hs Hst. unfold base_tile, bind, path_exists, gets.
  destruct (existsb _ (files w)); [reflexivity|].
  rewrite Hres. unfold sql_select_tile, ret. rewrite Hs. cbn [negb].
  unfold stored in Hst.
  destruct (find (row_matches (tmaxz self) tx ty) (tiles w)); cbn in *;
    [reflexivity | congruence].
Qed.

(** X16. A resumed base phase over a zoom whose rows are all stored
    changes nothing: every worker returns and leaves the archive and the
    files as they were. *)
Theorem resumed_base_phase_is_noop (self : GDAL2Mbtiles) (cpu : Z) (w : world)
        (r : TileRange) :
  opt_resume (options self) = true ->
  opt_processes (options self) <> 0 ->
  schema w = true ->
  list_get (tminmax self) (tmaxz self) = Ok r ->
  (forall tx ty, In (tx, ty) (tile_order r) ->
                 stored w (tmaxz self) tx ty <> None) ->
  generate_base_tiles self cpu w = (Ok tt, w).
Proof.
  intros Hres Hn Hs Hr Hall. unfold generate_base_tiles, bind, lift.
  rewrite Hr. destruct r as [[[tminx tminy] tmaxx] tmaxy].
  destruct (Z.eqb_spec (opt_processes (options self)) 0); [contradiction|].
  apply for_each_noop. intros [tx ty] Hin.
  apply base_tile_resume_skip; try assumption.
  apply Hall. unfold worker_tiles in Hin. eapply claimed_incl. exact Hin.
Qed.

Lemma resumed_base_phase_is_noop_witness :
  generate_base_tiles (sample_self average xyz true) 0 sample_archive_after_base
  = (Ok tt, sample_archive_after_base).
Proof.
  apply (resumed_base_phase_is_noop (sample_self average xyz true) 0
           sample_archive_after_base (0, 0, 1, 1));
    try (vm_compute; reflexivity); try (vm_compute; discriminate).
  intros tx ty Hin. vm_compute in Hin.
  destruct Hin as [E | [E | [E | [E | []]]]]; injection E as <- <-;
    vm_compute; discriminate.
Defined.

End ResumedBasePhase.

Section OverviewLayout.

Lemma children_four (tx ty : Z) :
  children tx ty
  = [(2 * tx, 2 * ty); (2 * tx + 1, 2 * ty);
     (2 * tx, 2 * ty + 1); (2 * tx + 1, 2 * ty + 1)].
Proof.
  unfold children.
  rewrite (py_range_cons (2 * ty)) by lia.
  rewrite (py_range_cons (2 * ty + 1)) by lia.
  replace (2 * ty + 1 + 1) with (2 * ty + 2) by lia. rewrite py_range_nil.
  rewrite (py_range_cons (2 * tx)) by lia.
  rewrite (py_range_cons (2 * tx + 1)) by lia.
  replace (2 * tx + 1 + 1) with (2 * tx + 2) by lia. rewrite py_range_nil.
  reflexivity.
Qed.

Lemma tileposx_child (tilesize tx x : Z) :
  0 <= tx -> x = 2 * tx \/ x = 2 * tx + 1 ->
  tileposx tilesize tx x = (x - 2 * tx) * tilesize.
Proof.
  intros Htx Hx. rewrite tileposx_by_cond, tileposx_cond_simple by assumption.
  destruct Hx as [-> | ->].
  - replace (2 * tx - 2 * tx) with 0 by lia. reflexivity.
  - replace (2 * tx + 1 - 2 * tx) with 1 by lia.
    change (1 =? 1) with true. cbv iota. lia.
Qed.

Lemma tileposy_child (tilesize ty y : Z) :
  0 <= ty -> y = 2 * ty \/ y = 2 * ty + 1 ->
  tileposy tilesize ty y = (1 - (y - 2 * ty)) * tilesize.
Proof.
  intros Hty Hy. unfold tileposy. rewrite tileposy_cond_simple by assumption.
  destruct Hy as [-> | ->].
  - replace (2 * ty - 2 * ty) with 0 by lia.
    change (0 =? 1) with false. cbv iota. lia.
  - replace (2 * ty + 1 - 2 * ty) with 1 by lia. reflexivity.
Qed.

(** A child that is in the range and has a row is pasted into its
    quadrant of the canvas; the archive is only read. *)
Lemma paint_child_places self tz tx ty dsquery x y r d w :
  schema w = true ->
  list_get (tminmax self) (tz + 1) = Ok r ->
  in_range r x y = true ->
  stored w (tz + 1) x y = Some d ->
  0 <= tx -> 0 <= ty ->
  x = 2 * tx \/ x = 2 * tx + 1 -> y = 2 * ty \/ y = 2 * ty + 1 ->
  paint_child self tz tx ty dsquery (x, y) w
  = (Ok (WriteArray dsquery ((x - 2 * tx) * tilesize self)
                    ((1 - (y - 2 * ty)) * tilesize self) (Decoded d)), w).
Proof.
  intros Hs Hr Hin Hst Htx Hty Hx Hy.
  unfold paint_child, bind, lift. rewrite Hr.
  destruct r as [[[minx miny] maxx] maxy]. unfold in_range in Hin.
  rewrite !Z.geb_leb, Hin.
  unfold sql_select_tile. rewrite Hs. cbn [negb].
  unfold stored in Hst. rewrite Hst. unfold ret.
  rewrite tileposx_child, tileposy_child by assumption. reflexivity.
Qed.

(** X17. An overview tile whose four children are in the range of the
    zoom below and have rows is their mosaic: the children are pasted into
    a canvas of twice the tile size, the TMS row [2*ty + 1] in the upper
    half and the column [2*tx + 1] in the right half, the canvas is scaled
    by the resampling algorithm, and one row with the key of the tile is
    appended to the archive. *)
Theorem overview_tile_is_mosaic_of_children
        (self : GDAL2Mbtiles) (tz tx ty : Z) (w : world) (r : TileRange)
        (d00 d10 d01 d11 : image) :
  opt_resume (options self) = false ->
  resampling_eqb (opt_resampling (options self)) antialias = false ->
  schema w = true -> tile_index w = false ->
  0 <= tx -> 0 <= ty ->
  list_get (tminmax self) (tz + 1) = Ok r ->
  in_range r (2 * tx) (2 * ty) = true ->
  in_range r (2 * tx + 1) (2 * ty + 1) = true ->
  stored w (tz + 1) (2 * tx) (2 * ty) = Some d00 ->
  stored w (tz + 1) (2 * tx + 1) (2 * ty) = Some d10 ->
  stored w (tz + 1) (2 * tx) (2 * ty + 1) = Some d01 ->
  stored w (tz + 1) (2 * tx + 1) (2 * ty + 1) = Some d11 ->
  let ts := tilesize self in
  let bands :=
    match self_tiledriver self with
    | JPEG => if dataBandsCount self + 1 =? 4 then 3 else dataBandsCount self + 1
    | PNG => dataBandsCount self + 1
    end in
  let canvas :=
    WriteArray
      (WriteArray
         (WriteArray
            (WriteArray (Create (2 * ts) (2 * ts) bands) 0 ts (Decoded d00))
            ts ts (Decoded d10))
         0 0 (Decoded d01))
      ts 0 (Decoded d11) in
  overview_tile self tz (tx, ty) w
  = (Ok tt,
     add_log (EvInsertTile tz tx ty)
       (set_tiles
          (tiles w ++
           [mkRow tz tx ty
                  (Encoded (self_tiledriver self)
                           (Scaled (opt_resampling (options self)) canvas))])
          w)).
Proof.
  intros Hres Hanti Hs Hi Htx Hty Hr H00 H11 S00 S10 S01 S11. cbv zeta.
  assert (H10 : in_range r (2 * tx + 1) (2 * ty) = true).
  { destruct r as [[[minx miny] maxx] maxy]. unfold in_range in *.
    rewrite !andb_true_iff, !Z.leb_le in *. lia. }
  assert (H01 : in_range r (2 * tx) (2 * ty + 1) = true).
  { destruct r as [[[minx miny] maxx] maxy]. unfold in_range in *.
    rewrite !andb_true_iff, !Z.leb_le in *. lia. }
  unfold overview_tile. rewrite Hres, Hanti, children_four. cbn [negb].
  unfold bind at 1. unfold ret at 1.
  cbn [for_fold]. unfold bind.
  rewrite (paint_child_places _ _ _ _ _ _ _ r d00) by (auto; lia).
  rewrite (paint_child_places _ _ _ _ _ _ _ r d10) by (auto; lia).
  rewrite (paint_child_places _ _ _ _ _ _ _ r d01) by (auto; lia).
  rewrite (paint_child_places _ _ _ _ _ _ _ r d11) by (auto; lia).
  unfold ret at 1.
  replace (2 * tx - 2 * tx) with 0 by lia.
  replace (2 * ty - 2 * ty) with 0 by lia.
  replace (2 * tx + 1 - 2 * tx) with 1 by lia.
  replace (2 * ty + 1 - 2 * ty) with 1 by lia.
  replace ((1 - 0) * tilesize self) with (tilesize self) by lia.
  replace (1 * tilesize self) with (tilesize self) by lia.
  replace ((1 - 1) * tilesize self) with 0 by lia.
  replace (0 * tilesize self) with 0 by lia.
  unfold scale_query_to_tile.
  destruct (opt_resampling (options self)); try discriminate;
    unfold ret, sql_insert_tile; rewrite Hs, Hi; reflexivity.
Qed.

Lemma overview_tile_is_mosaic_of_children_witness :
  match stored sample_archive_after_base 1 0 0,
        stored sample_archive_after_base 1 1 0,
        stored sample_archive_after_base 1 0 1,
        stored sample_archive_after_base 1 1 1 with
  | Some d00, Some d10, Some d01, Some d11 =>
      overview_tile (sample_self average tms false) 0 (0, 0)
                    sample_archive_after_base
      = (Ok tt,
         add_log (EvInsertTile 0 0 0)
           (set_tiles
              (tiles sample_archive_after_base ++
               [mkRow 0 0 0
                  (Encoded PNG
                     (Scaled average
                        (WriteArray
                           (WriteArray
                              (WriteArray
                                 (WriteArray (Create 512 512 4) 0 256 (Decoded d00))
                                 256 256 (Decoded d10))
                              0 0 (Decoded d01))
                           256 0 (Decoded d11))))])
              sample_archive_after_base))
  | _, _, _, _ => False
  end.
Proof.
  destruct (stored sample_archive_after_base 1 0 0) as [d00 |] eqn:S00;
    [| vm_compute in S00; discriminate].
  destruct (stored sample_archive_after_base 1 1 0) as [d10 |] eqn:S10;
    [| vm_compute in S10; discriminate].
  destruct (stored sample_archive_after_base 1 0 1) as [d01 |] eqn:S01;
    [| vm_compute in S01; discriminate].
  destruct (stored sample_archive_after_base 1 1 1) as [d11 |] eqn:S11;
    [| vm_compute in S11; discriminate].
  apply (overview_tile_is_mosaic_of_children
           (sample_self average tms false) 0 0 0 sample_archive_after_base
           (0, 0, 1, 1) d00 d10 d01 d11);
    try assumption; try (vm_compute; reflexivity); lia.
Defined.

End OverviewLayout.

Section RunOrder.

Lemma FOP_all {A : Type} (R : A -> A -> Prop) (l : list A) :
  (forall a b, In a l -> In b l -> R a b) -> ForallOrdPairs R l.
Proof.
  induction l as [| x l IH]; intros H; constructor.
  - apply Forall_forall. intros b Hb. apply H; [now left | now right].
  - apply IH. intros a b Ha Hb. apply H; now right.
Qed.

Lemma FOP_app {A : Type} (R : A -> A -> Prop) (l1 l2 : list A) :
  ForallOrdPairs R l1 -> ForallOrdPairs R l2 ->
  (forall a b, In a l1 -> In b l2 -> R a b) ->
  ForallOrdPairs R (l1 ++ l2).
Proof.
  intros H1 H2. induction H1 as [| x l1 Hx H1 IH]; intros Hc; cbn; [assumption|].
  constructor.
  - apply Forall_app. split; [assumption|].
    apply Forall_forall. intros b Hb. apply Hc; [now left | assumption].
  - apply IH. intros a b Ha Hb. apply Hc; [now right | assumption].
Qed.

Lemma FOP_subseq {A : Type} (R : A -> A -> Prop) (l k : list A) :
  subseq l k -> ForallOrdPairs R k -> ForallOrdPairs R l.
Proof.
  intros H. induction H as [| a l1 l2 H IH | a l1 l2 H IH]; intros Hk.
  - constructor.
  - inversion Hk; subst. now apply IH.
  - inversion Hk as [| x y Hx Hy]; subst. constructor; [| now apply IH].
    rewrite Forall_forall in *. intros b Hb. apply Hx.
    eapply subseq_In; eassumption.
Qed.

Lemma FOP_map_inv {A B : Type} (f : A -> B) (R : B -> B -> Prop) (l : list A) :
  ForallOrdPairs R (map f l) -> ForallOrdPairs (fun a b => R (f a) (f b)) l.
Proof.
  induction l as [| x l IH]; cbn; intros H; [constructor|].
  inversion H as [| y k Hy Hk]; subst. constructor; [| now apply IH].
  rewrite Forall_forall in *. intros b Hb. apply Hy. now apply in_map.
Qed.

Lemma range_down_descending (a b : Z) :
  ForallOrdPairs (fun z1 z2 => z2 <= z1) (Py.range_down a b).
Proof.
  unfold Py.range_down. generalize (Z.to_nat (a - b)) as n. generalize 0%nat as s.
  intros s n. revert s. induction n as [| n IH]; intros s; cbn; constructor.
  - apply Forall_forall. intros z Hz.
    apply in_map_iff in Hz as (k & <- & Hk). apply in_seq in Hk. lia.
  - apply IH.
Qed.

(** The plan lists the keys by decreasing zoom. *)
Lemma plan_descending self a b :
  ForallOrdPairs (fun k1 k2 => fst (fst k2) <= fst (fst k1)) (plan self a b).
Proof.
  unfold plan.
  assert (Hz : ForallOrdPairs (fun z1 z2 => z2 <= z1)
                              (b :: Py.range_down (b - 1) (a - 1))).
  { constructor; [| apply range_down_descending].
    apply Forall_forall. intros z Hz. apply in_py_range_down in Hz. lia. }
  induction Hz as [| z zs Hz Hzs IH]; cbn [flat_map]; [constructor|].
  apply FOP_app; [| assumption |].
  - apply FOP_all. intros k1 k2 H1 H2.
    apply in_phase_keys in H1, H2. lia.
  - intros k1 k2 H1 H2. apply in_phase_keys in H1.
    apply in_flat_map in H2 as (z' & Hz' & H2). apply in_phase_keys in H2.
    rewrite Forall_forall in Hz. specialize (Hz z' Hz'). lia.
Qed.

(** A key of the plan has a zoom of the run and a tile of the range of
    that zoom. *)
Lemma in_plan self a b z x y :
  In (z, x, y) (plan self a b) ->
  Z.min a b <= z <= b /\ in_range (zoom_range self z) x y = true.
Proof.
  unfold plan. intros H. apply in_flat_map in H as (z' & Hz' & H).
  unfold phase_keys in H. apply in_flat_map in H as (cpu & _ & H).
  apply in_worker_keys in H as [E H]. cbn in E, H. subst z'.
  split.
  - destruct Hz' as [<- | Hz']; [lia|]. apply in_py_range_down in Hz'. lia.
  - apply in_tile_order. unfold worker_tiles in H. eapply claimed_incl. exact H.
Qed.

(** [main] as the sequence of its phases, for a run with [--zoom]. *)
Lemma main_phases self a b w :
  opt_zoom (options self) = Some (a, b) ->
  let n := opt_processes (options self) in
  let w1 := snd (worker_metadata self w) in
  let w2 := run_all (Py.range 0 n) (worker_base_tiles self) w1 in
  let w3 :=
    fold_left
      (fun w tz =>
         run_all (Py.range 0 n)
                 (fun cpu => worker_overview_tiles self (cpu mod n) tz) w)
      (Py.range_down (b - 1) (a - 1)) w2 in
  main self w
  = bind (if negb (opt_resume (options self)) then create_index else ret tt)
         (fun _ => modify (add_log EvJournalDelete)) w3.
Proof.
  intros Hz. cbv zeta. unfold main. rewrite Hz.
  unfold bind at 1. unfold run_process at 1. cbn [snd fst].
  unfold bind at 1. rewrite for_each_run_process.
  unfold bind at 1.
  rewrite (for_each_ok _
             (fun tz w =>
                run_all (Py.range 0 (opt_processes (options self)))
                        (fun cpu => worker_overview_tiles self
                                      (cpu mod opt_processes (options self)) tz) w)).
  - reflexivity.
  - intros tz w'. apply for_each_run_process.
Qed.

(** X18. A run with [--zoom a-b] only appends rows to the table of tiles,
    each with a zoom of the run and a tile of the range of its zoom, and it
    appends them from the highest zoom to the lowest: no row has a higher
    zoom than a row appended before it. *)
Theorem main_appends_rows_top_down (self : GDAL2Mbtiles) (a b : Z) (w : world) :
  opt_zoom (options self) = Some (a, b) ->
  tmaxz self = b ->
  exists l,
    tiles (snd (main self w)) = tiles w ++ l /\
    (forall row, In row l ->
       Z.min a b <= zoom_level row <= b /\
       in_range (zoom_range self (zoom_level row))
                (tile_column row) (tile_row row) = true) /\
    ForallOrdPairs (fun r1 r2 => zoom_level r2 <= zoom_level r1) l.
Proof.
  intros Hz Hb.
  assert (Hr := same_tiles_refl). assert (Ht := same_tiles_trans).
  assert (M1 : preserves same_tiles (worker_metadata self)).
  { unfold worker_metadata.
    repeat first [apply same_tiles_mbtiles_setup
                 | apply same_tiles_generate_metadata | preserves_step]. }
  assert (M3 : preserves same_tiles
                 (bind (if negb (opt_resume (options self))
                        then create_index else ret tt)
                       (fun _ => modify (add_log EvJournalDelete)))).
  { repeat first [apply same_tiles_create_index | preserves_step].
    intros w'. split; [reflexivity | eapply log_grows_one; [| reflexivity]].
    cbn. tauto. }
  rewrite (main_phases self a b w Hz). cbv zeta.
  destruct (phases_append_plan self a b (snd (worker_metadata self w)) Hb)
    as [(l & Hl & Hsub) _].
  cbv zeta in Hl.
  exists l. split; [| split].
  - rewrite (proj1 (M3 _)), Hl, (proj1 (M1 w)). reflexivity.
  - intros row Hin.
    assert (Hk : In (tile_key row) (plan self a b)).
    { eapply subseq_In; [exact Hsub | now apply in_map]. }
    unfold tile_key in Hk. now apply in_plan in Hk.
  - apply (FOP_map_inv tile_key (fun k1 k2 => fst (fst k2) <= fst (fst k1))).
    eapply FOP_subseq; [exact Hsub | apply plan_descending].
Qed.

Lemma main_appends_rows_top_down_witness :
  exists l,
    tiles (snd (main (sample_self average tms false) fresh_world))
    = tiles fresh_world ++ l /\
    (forall row, In row l ->
       Z.min 0 1 <= zoom_level row <= 1 /\
       in_range (zoom_range (sample_self average tms false) (zoom_level row))
                (tile_column row) (tile_row row) = true) /\
    ForallOrdPairs (fun r1 r2 => zoom_level r2 <= zoom_level r1) l.
Proof.
  apply (main_appends_rows_top_down (sample_self average tms false) 0 1 fresh_world);
    reflexivity.
Defined.

End RunOrder.

Section ResumedRun.

Lemma only_tile_work_refl (w : world) : only_tile_work w w.
Proof.
  repeat split; [| apply log_grows_refl]. exists []. now rewrite app_nil_r.
Qed.

Lemma only_tile_work_trans (a b c : world) :
  only_tile_work a b -> only_tile_work b c -> only_tile_work a c.
Proof.
  intros (S1 & M1 & N1 & T1 & (l1 & R1) & L1) (S2 & M2 & N2 & T2 & (l2 & R2) & L2).
  split; [congruence|]. split; [congruence|]. split; [congruence|].
  split; [congruence|]. split.
  - exists (l1 ++ l2). now rewrite R2, R1, app_assoc.
  - eapply log_grows_trans; eassumption.
Qed.

Lemma only_tile_work_file_write p c : preserves only_tile_work (file_write p c).
Proof.
  intros w. repeat split; [| now apply log_grows_same].
  exists []. cbn. now rewrite app_nil_r.
Qed.

Lemma only_tile_work_sql_insert_tile z x y d :
  preserves only_tile_work (sql_insert_tile z x y d).
Proof.
  intros w. unfold sql_insert_tile.
  destruct (negb (schema w)); [apply only_tile_work_refl|].
  destruct (tile_index w && _); [apply only_tile_work_refl|].
  repeat split.
  - eexists. reflexivity.
  - eapply log_grows_one; [| reflexivity]. cbn. tauto.
Qed.

Lemma only_tile_work_generate_base_tiles self cpu :
  preserves only_tile_work (generate_base_tiles self cpu).
Proof.
  assert (Hr := only_tile_work_refl). assert (Ht := only_tile_work_trans).
  unfold generate_base_tiles, base_tile, scale_query_to_tile.
  repeat first [apply only_tile_work_file_write
               | apply only_tile_work_sql_insert_tile | preserves_step].
Qed.

Lemma only_tile_work_generate_overview_tiles self cpu tz :
  preserves only_tile_work (generate_overview_tiles self cpu tz).
Proof.
  assert (Hr := only_tile_work_refl). assert (Ht := only_tile_work_trans).
  unfold generate_overview_tiles, overview_tile, paint_child, scale_query_to_tile.
  repeat first [apply only_tile_work_file_write
               | apply only_tile_work_sql_insert_tile | preserves_step].
Qed.

(** X19. A run with [--resume] only computes tiles: whether it returns or
    raises, it creates no table, inserts no metadata row and creates no
    index, it keeps the rows of tiles that were there, and the only
    statements it executes on the archive are INSERTs into tiles and the
    closing journal statement. *)
Theorem resumed_run_only_adds_tiles (self : GDAL2Mbtiles) (w : world) :
  opt_resume (options self) = true ->
  only_tile_work w (snd (main self w)).
Proof.
  intros Hres. revert w. change (preserves only_tile_work (main self)).
  assert (Hr := only_tile_work_refl). assert (Ht := only_tile_work_trans).
  unfold main, worker_metadata, worker_base_tiles, worker_overview_tiles.
  rewrite Hres. cbn [negb].
  repeat first [apply only_tile_work_generate_base_tiles
               | apply only_tile_work_generate_overview_tiles
               | preserves_step].
  intros w. repeat split.
  - exists []. cbn. now rewrite app_nil_r.
  - eapply log_grows_one; [| reflexivity]. cbn. tauto.
Qed.

Lemma resumed_run_only_adds_tiles_witness :
  opt_resume (options (sample_self average xyz true)) = true /\
  only_tile_work sample_archive_after_base
                 (snd (main (sample_self average xyz true) sample_archive_after_base)).
Proof.
  split; [reflexivity|].
  apply (resumed_run_only_adds_tiles (sample_self average xyz true)
           sample_archive_after_base).
  reflexivity.
Defined.

End ResumedRun.

Section DefaultZooms.

Import GlobalMercator.

Lemma ZoomForPixelSize_spec (p : Q) :
  match ZoomForPixelSize p with
  | Some z =>
      (z = 0 /\ (Resolution 0 < p)%Q) \/
      (0 <= z < 31 /\ (p <= Resolution z)%Q /\ (Resolution (z + 1) < p)%Q)
  | None => forall j, 0 <= j < 32 -> (p <= Resolution j)%Q
  end.
Proof.
  assert (S := ZoomForPixelSize_loop_spec p 32 0 ltac:(lia) ltac:(intros; lia)).
  change (0 + Z.of_nat 32) with MAXZOOMLEVEL in S. unfold ZoomForPixelSize.
  destruct (ZoomForPixelSize_loop p (Py.range 0 MAXZOOMLEVEL)) as [z |].
  - destruct S as [(_ & -> & H0) | (Hz & Hr & Hle & Hlt)]; [left; auto | right].
    unfold MAXZOOMLEVEL in Hr. repeat split; try lia; assumption.
  - exact S.
Qed.

(** A coarser pixel gets a zoom that is not higher. *)
Lemma ZoomForPixelSize_antitone (p p' : Q) (z : Z) :
  (p <= p')%Q -> ZoomForPixelSize p = Some z ->
  exists z', ZoomForPixelSize p' = Some z' /\ 0 <= z' <= z.
Proof.
  intros Hpp Hz.
  assert (S := ZoomForPixelSize_spec p). rewrite Hz in S.
  assert (S' := ZoomForPixelSize_spec p').
  destruct (ZoomForPixelSize p') as [z' |].
  - exists z'. split; [reflexivity|].
    destruct S' as [(-> & _) | (Hz' & Hle' & Hlt')].
    + destruct S as [(-> & _) | (Hz0 & _)]; lia.
    + destruct S as [(-> & H0) | (Hz0 & Hle & Hlt)].
      * assert (M := Resolution_antitone 0 z' ltac:(lia)). lra.
      * destruct (Z_le_gt_dec z' z) as [| Hgt]; [lia | exfalso].
        assert (M := Resolution_antitone (z + 1) z' ltac:(lia)). lra.
  - exfalso. destruct S as [(-> & H0) | (Hz0 & Hle & Hlt)].
    + specialize (S' 0 ltac:(lia)). lra.
    + specialize (S' (z + 1) ltac:(lia)). lra.
Qed.

(** X20. For a raster that is at least one tile wide or high, the default
    minimal zoom of the Mercator profile exists whenever the default
    maximal zoom does, and it is not above it. *)
Theorem default_zooms_ordered (ds : Dataset) (tilesize zmax : Z) :
  (0 < gt1 (GetGeoTransform ds))%Q ->
  0 < tilesize <= Z.max (RasterXSize ds) (RasterYSize ds) ->
  open_input_tmaxz None (GetGeoTransform ds) = Some zmax ->
  exists zmin,
    open_input_tminz None ds tilesize = Ok (Some zmin) /\ 0 <= zmin <= zmax.
Proof.
  intros Hp Hts Hmax. unfold open_input_tmaxz in Hmax. unfold open_input_tminz.
  rewrite fdiv_pos by lia. cbn [res_bind].
  set (m := Z.max (RasterXSize ds) (RasterYSize ds)) in *.
  assert (Ft := float_pos tilesize ltac:(lia)).
  assert (Fm := float_le tilesize m ltac:(lia)).
  assert (Hq : (gt1 (GetGeoTransform ds)
                <= gt1 (GetGeoTransform ds) * Py.float m / Py.float tilesize)%Q).
  { apply Qle_shift_div_l; [assumption|].
    apply Qmult_le_l; assumption. }
  destruct (ZoomForPixelSize_antitone _ _ zmax Hq Hmax) as (zmin & E & B).
  exists zmin. rewrite E. now split.
Qed.

Lemma default_zooms_ordered_witness :
  exists zmin,
    open_input_tminz None world_512 256 = Ok (Some zmin) /\ 0 <= zmin <= 1.
Proof.
  apply (default_zooms_ordered world_512 256 1);
    [reflexivity | cbn; lia | vm_compute; reflexivity].
Defined.

End DefaultZooms.
